(** * feed_my_wled: audio analysis and WLED audio-sync packets

    A shallow embedding of [feed_my_wled.py]: the spectral analyzer
    [calculate_fft], the packet encoder [create_udp_packet], the ring buffer
    ([collections.deque] with [maxlen]), the loop of
    [stream_audio_to_wled] and the list of controllers read from the
    configuration, followed by the properties of the program.

    Python floats are IEEE binary64; they are represented by [spec_float]
    with the operations of the standard library's [SpecFloat] at precision 53
    and maximal exponent 1024, so that every definition computes. Exceptions
    are the [Raise] results of a small error monad. The magnitude spectrum
    that numpy computes is a parameter of the analyzer; a reference transform
    ([RefDFT]) stands for it where a concrete block is analysed. *)

From Stdlib Require Import Strings.Byte Strings.Ascii Strings.String.
From Stdlib Require Import ZArith List Bool Lia.
From Stdlib Require Import Floats.SpecFloat.
Import ListNotations.
Open Scope Z_scope.

(** ** Exceptions *)

(** The exceptions the modelled code can raise. *)
Inductive exn : Type :=
| ValueError
| OverflowError
| StructError
| OSError.

Inductive result (A : Type) : Type :=
| Ok (a : A)
| Raise (e : exn).
Arguments Ok {A} a.
Arguments Raise {A} e.

Definition bind {A B : Type} (r : result A) (k : A -> result B) : result B :=
  match r with
  | Ok a => k a
  | Raise e => Raise e
  end.

Declare Scope exn_scope.
Delimit Scope exn_scope with exn.
Notation "x <- c1 ;; c2" := (bind c1 (fun x => c2))
  (at level 100, c1 at next level, right associativity) : exn_scope.
Open Scope exn_scope.

Definition is_ok {A : Type} (r : result A) : bool :=
  match r with Ok _ => true | Raise _ => false end.

(** [try: ... except Exception: return None] *)
Definition catch_all {A : Type} (r : result A) : option A :=
  match r with Ok a => Some a | Raise _ => None end.

(** ** Binary64 arithmetic *)

Definition float : Type := spec_float.

Module F64.

Definition prec : Z := 53.
Definition emax : Z := 1024.

Definition zero : float := S754_zero false.
Definition add : float -> float -> float := SFadd prec emax.
Definition sub : float -> float -> float := SFsub prec emax.
Definition mul : float -> float -> float := SFmul prec emax.
Definition div : float -> float -> float := SFdiv prec emax.
Definition sqrt : float -> float := SFsqrt prec emax.
Definition opp : float -> float := SFopp.
Definition eqb : float -> float -> bool := SFeqb.
Definition ltb : float -> float -> bool := SFltb.
Definition leb : float -> float -> bool := SFleb.

Definition is_nan (x : float) : bool :=
  match x with S754_nan => true | _ => false end.

Definition is_finite (x : float) : bool :=
  match x with S754_zero _ | S754_finite _ _ _ => true | _ => false end.

(** The integer [z] rounded to the nearest binary64 value (ties to even). *)
Definition of_Z (z : Z) : float := binary_normalize prec emax z 0 false.

(** The quotient [a / b] of two integers rounded to binary64: the value of a
    decimal literal such as [0.8], which is [8 / 10]. *)
Definition of_ratio (a b : Z) : float := div (of_Z a) (of_Z b).

(** Truncation toward zero of a finite value; [None] on NaN and infinities. *)
Definition trunc (x : float) : option Z :=
  match x with
  | S754_zero _ => Some 0
  | S754_finite s m e => Some (cond_Zopp s (Z.shiftl (Zpos m) e))
  | _ => None
  end.

End F64.

(** ** Python numbers *)

(** The values the encoder receives are Python or numpy numbers: integers or
    floats. *)
Inductive num : Type :=
| PyInt (z : Z)
| PyFloat (x : float).

(** [int(v)] *)
Definition py_int (v : num) : result Z :=
  match v with
  | PyInt z => Ok z
  | PyFloat x =>
      match F64.trunc x with
      | Some z => Ok z
      | None => if F64.is_nan x then Raise ValueError else Raise OverflowError
      end
  end.

(** [float(v)] *)
Definition py_float (v : num) : result float :=
  match v with
  | PyFloat x => Ok x
  | PyInt z =>
      let x := F64.of_Z z in
      if F64.is_finite x then Ok x else Raise OverflowError
  end.

(** ** numpy on int16 and float64 arrays *)

Definition wrap_int16 (z : Z) : Z := (z + 32768) mod 65536 - 32768.

Definition int16_of_bytes (lo hi : byte) : Z :=
  wrap_int16 (Z.of_N (Byte.to_N lo) + 256 * Z.of_N (Byte.to_N hi)).

(** [np.frombuffer(buf, dtype=np.int16)]: little-endian pairs; a buffer of odd
    length is refused. *)
Fixpoint frombuffer_int16 (buf : list byte) : result (list Z) :=
  match buf with
  | [] => Ok []
  | lo :: hi :: rest =>
      match frombuffer_int16 rest with
      | Ok l => Ok (int16_of_bytes lo hi :: l)
      | Raise e => Raise e
      end
  | [_] => Raise ValueError
  end.

(** [np.abs] on an int16 array stays in int16: [abs(-32768)] wraps to
    [-32768]. *)
Definition np_abs_int16 (l : list Z) : list Z :=
  map (fun x => wrap_int16 (Z.abs x)) l.

Definition Zsum (l : list Z) : Z := fold_left Z.add l 0.

(** [np.mean] of an integer array: the sum is accumulated in float64 (exact
    for int16 data) and divided by the element count. *)
Definition np_mean (l : list Z) : float :=
  F64.div (F64.of_Z (Zsum l)) (F64.of_Z (Z.of_nat (length l))).

(** [np.max] of an integer array; it raises on an empty array. *)
Definition np_max_int (l : list Z) : result Z :=
  match l with
  | [] => Raise ValueError
  | x :: t => Ok (fold_left Z.max t x)
  end.

(** [np.maximum] on floats: a NaN operand wins. *)
Definition fmax (a b : float) : float :=
  if F64.is_nan a then a
  else if F64.is_nan b then b
  else if F64.ltb a b then b else a.

Definition np_max (l : list float) : result float :=
  match l with
  | [] => Raise ValueError
  | x :: t => Ok (fold_left fmax t x)
  end.

(** [np.sum] of a float64 array is numpy's pairwise summation
    ([pairwise_sum] of [loops_utils.h.src]). A block of 8 to 128 elements is
    added in eight lanes: the lanes start as its first eight elements, every
    further full group of eight is added to them lane by lane, the lanes are
    combined as [((r0 + r1) + (r2 + r3)) + ((r4 + r5) + (r6 + r7))], and the
    elements after the last full group are added to this one by one. *)
Definition neg_zero : float := S754_zero true.

Fixpoint add_lanes (r xs : list float) : list float :=
  match r, xs with
  | a :: r', x :: xs' => F64.add a x :: add_lanes r' xs'
  | _, _ => []
  end.

(** The lanes [r] after [groups] further groups of eight elements of [l], and
    the elements of [l] left. *)
Fixpoint sum_groups (groups : nat) (r l : list float)
  : list float * list float :=
  match groups with
  | O => (r, l)
  | S g => sum_groups g (add_lanes r (firstn 8 l)) (skipn 8 l)
  end.

Definition sum_lanes (r : list float) : float :=
  match r with
  | [r0; r1; r2; r3; r4; r5; r6; r7] =>
      F64.add (F64.add (F64.add r0 r1) (F64.add r2 r3))
              (F64.add (F64.add r4 r5) (F64.add r6 r7))
  | _ => F64.zero
  end.

Definition block_sum (l : list float) : float :=
  let (r, rest) :=
    sum_groups (length l / 8 - 1) (firstn 8 l) (skipn 8 l) in
  fold_left F64.add rest (sum_lanes r).

(** Fewer than eight elements are added one by one, starting from [-0.0];
    more than 128 are split after [n / 2] elements, lowered to a multiple of
    eight, and the sums of the two parts are added. Every split at least
    halves the longer part, so a [fuel] of the length of the array is more
    than the splits need. *)
Fixpoint pairwise_sum (fuel : nat) (l : list float) : float :=
  let n := length l in
  if (n <? 8)%nat then fold_left F64.add l neg_zero
  else
    match fuel with
    | S f =>
        if (128 <? n)%nat then
          let n2 := (n / 2 - (n / 2) mod 8)%nat in
          F64.add (pairwise_sum f (firstn n2 l)) (pairwise_sum f (skipn n2 l))
        else block_sum l
    | O => block_sum l
    end.

(** The reduction adds the pairwise sum to its initial value [-0.0]; the sum
    of an empty array is [0.0]. (Older releases of numpy start from [0.0] in
    both places, which changes the result only when every element is
    [-0.0].) *)
Definition np_sum (l : list float) : float :=
  match l with
  | [] => F64.zero
  | _ :: _ => F64.add neg_zero (pairwise_sum (length l) l)
  end.

(** [np.argmax]: the first index holding the maximum; the running maximum is
    replaced when the next element is not [<=] it. *)
Fixpoint argmax_from (l : list float) (i : Z) (best : float) (besti : Z) : Z :=
  match l with
  | [] => besti
  | x :: t =>
      if F64.is_nan best then besti
      else if F64.leb x best then argmax_from t (i + 1) best besti
      else argmax_from t (i + 1) x i
  end.

Definition np_argmax (l : list float) : result Z :=
  match l with
  | [] => Raise ValueError
  | x :: t => Ok (argmax_from t 1 x 0)
  end.

(** [np.interp(x, (x0, x1), (f0, f1))] at one point, following numpy's
    [arr_interp] for a table of two points: a NaN is passed through, a point
    right of [x1] gets [f1] and one left of [x0] gets [f0]; otherwise the
    interval index [j] is found by linear search, and [j = 1] (that is
    [x >= x1]) answers [f1] without interpolating. (numpy asks for
    increasing abscissae and does not check them; with [x0 = x1] this is what
    its code computes.) *)
Definition interp1 (x0 x1 f0 f1 x : float) : float :=
  if F64.is_nan x then x
  else if F64.ltb x1 x then f1
  else if F64.ltb x x0 then f0
  else if F64.leb x1 x then f1
  else if F64.eqb x0 x then f0
  else
    let slope := F64.div (F64.sub f1 f0) (F64.sub x1 x0) in
    let r := F64.add (F64.mul slope (F64.sub x x0)) f0 in
    if F64.is_nan r then
      let r' := F64.add (F64.mul slope (F64.sub x x1)) f1 in
      if F64.is_nan r' && F64.eqb f0 f1 then f0 else r'
    else r.

Definition np_interp (xs : list float) (x0 x1 f0 f1 : float) : list float :=
  map (interp1 x0 x1 f0 f1) xs.

(** [astype(np.uint8)] on a float: the fraction is dropped and the integer is
    reduced to eight bits. (The conversion of NaN and infinities is left
    undefined by C; they are sent to 0 here.) *)
Definition uint8_of_float (x : float) : Z :=
  match F64.trunc x with
  | Some z => z mod 256
  | None => 0
  end.

(** ** The spectral analyzer *)

Record analysis : Type := {
  fft_values : list Z;
  raw_level : float;
  peak_level : Z;
  fft_magnitude_sum : float;
  fft_peak_frequency : float
}.

Section Analyzer.

(** [np.abs(np.fft.rfft(samples))], the magnitude spectrum computed by
    numpy, is a parameter of the analyzer. *)
Variable rfft_abs : list Z -> list float.

Definition calculate_fft_body (audio_chunk : list byte) (sample_rate : Z)
  : result analysis :=
  audio_data <- frombuffer_int16 audio_chunk ;;
  let raw := np_mean (np_abs_int16 audio_data) in
  m <- np_max_int (np_abs_int16 audio_data) ;;
  peak <- py_int (PyFloat (F64.mul (F64.div (F64.of_Z m) (F64.of_Z 32767))
                                   (F64.of_Z 255))) ;;
  let fft_result := rfft_abs audio_data in
  top <- np_max fft_result ;;
  let fft_normalized :=
    np_interp fft_result F64.zero top F64.zero (F64.of_Z 255) in
  let bands := map uint8_of_float (firstn 16 fft_normalized) in
  freq_index <- np_argmax fft_result ;;
  (* [sample_rate / len(audio_data)] divides two Python integers: the
     quotient is rounded once, and beyond the range of the floats the
     division raises OverflowError. The quotient of the two floats is this
     value as long as both integers are below 2^53 in magnitude, which the
     properties that depend on the sample rate assume. *)
  let freq :=
    F64.mul (F64.of_Z freq_index)
            (F64.div (F64.of_Z sample_rate)
                     (F64.of_Z (Z.of_nat (length audio_data)))) in
  let magsum := np_sum fft_result in
  Ok {| fft_values := bands;
        raw_level := raw;
        peak_level := peak;
        fft_magnitude_sum := magsum;
        fft_peak_frequency := freq |}.

(** [calculate_fft]: any exception of the body is caught and reported as
    [None]. *)
Definition calculate_fft (audio_chunk : list byte) (sample_rate : Z)
  : option analysis :=
  catch_all (calculate_fft_body audio_chunk sample_rate).

End Analyzer.

(** ** struct.pack *)

(** Rounding of a binary64 value to binary32, as the C conversion from
    [double] to [float] does it (to nearest, ties to even). *)
Definition to_binary32 (x : float) : spec_float :=
  match x with
  | S754_finite s m e => binary_normalize 24 128 (cond_Zopp s (Zpos m)) e s
  | _ => x
  end.

Definition sign_bit32 (s : bool) : Z := if s then 2147483648 else 0.

(** The 32 bits of a binary32 value: sign, eight exponent bits, 23 fraction
    bits. A NaN is the quiet NaN [0x7fc00000]. *)
Definition bits_of_binary32 (y : spec_float) : Z :=
  match y with
  | S754_zero s => sign_bit32 s
  | S754_infinity s => sign_bit32 s + 2139095040
  | S754_nan => 2143289344
  | S754_finite s m e =>
      sign_bit32 s +
      (if Zpos m <? 8388608 then Zpos m
       else (e + 150) * 8388608 + (Zpos m - 8388608))
  end.

Definition byte_of_Z (z : Z) : byte :=
  match Byte.of_N (Z.to_N (z mod 256)) with
  | Some b => b
  | None => x00
  end.

Definition le_bytes32 (w : Z) : list byte :=
  [byte_of_Z w; byte_of_Z (w / 256); byte_of_Z (w / 65536);
   byte_of_Z (w / 16777216)].

(** Format ['<f']: a finite value too large for binary32 is refused. *)
Definition pack_f (x : float) : result (list byte) :=
  let y := to_binary32 x in
  match x, y with
  | S754_finite _ _ _, S754_infinity _ => Raise OverflowError
  | _, _ => Ok (le_bytes32 (bits_of_binary32 y))
  end.

(** Format ['B']: an integer outside [0, 255] is refused. *)
Definition pack_B (v : Z) : result (list byte) :=
  if (0 <=? v) && (v <=? 255) then Ok [byte_of_Z v] else Raise StructError.

(** Format ['<n>s']: the bytes are cut or padded with null bytes to [n]. *)
Definition pack_s (n : nat) (b : list byte) : list byte :=
  firstn n b ++ repeat x00 (n - length b).

Inductive fmt : Type :=
| Fs (n : nat)
| FB
| Ff.

Inductive arg : Type :=
| ABytes (b : list byte)
| AInt (v : Z)
| AFloat (x : float).

Definition pack_item (f : fmt) (a : arg) : result (list byte) :=
  match f, a with
  | Fs n, ABytes b => Ok (pack_s n b)
  | FB, AInt v => pack_B v
  | Ff, AFloat x => pack_f x
  | Ff, AInt v => x <- py_float (PyInt v) ;; pack_f x
  | _, _ => Raise StructError
  end.

Fixpoint pack_items (fs : list fmt) (args : list arg) : result (list byte) :=
  match fs, args with
  | [], [] => Ok []
  | f :: fs', a :: args' =>
      b <- pack_item f a ;;
      rest <- pack_items fs' args' ;;
      Ok (b ++ rest)
  | _, _ => Raise StructError
  end.

(** [struct.pack('<...', *args)]: the number of arguments is checked against
    the format before anything is packed. *)
Definition struct_pack (fs : list fmt) (args : list arg) : result (list byte) :=
  if Nat.eqb (length fs) (length args) then pack_items fs args
  else Raise StructError.

Definition item_size (f : fmt) : nat :=
  match f with Fs n => n | FB => 1 | Ff => 4 end.

(** [struct.calcsize] *)
Definition calcsize (fs : list fmt) : nat :=
  fold_right (fun f n => (item_size f + n)%nat) 0%nat fs.

(** ** The packet encoder *)

(** The format string ['<6s2B2fBB16B2B2f']. *)
Definition wled_format : list fmt :=
  [Fs 6] ++ repeat FB 2 ++ repeat Ff 2 ++ [FB; FB] ++ repeat FB 16
  ++ repeat FB 2 ++ repeat Ff 2.

(** [b'00002'] *)
Definition header : list byte := [x30; x30; x30; x30; x32].

Fixpoint map_result {A B : Type} (f : A -> result B) (l : list A)
  : result (list B) :=
  match l with
  | [] => Ok []
  | a :: t =>
      b <- f a ;;
      bs <- map_result f t ;;
      Ok (b :: bs)
  end.

Definition create_udp_packet
  (fft_values : list num)
  (raw_level smoothed_level peak_level : num)
  (fft_magnitude_sum fft_peak_frequency : num)
  : result (list byte) :=
  peak_level <- py_int peak_level ;;
  fft_values <- map_result py_int fft_values ;;
  raw <- py_float raw_level ;;
  smoothed <- py_float smoothed_level ;;
  magsum <- py_float fft_magnitude_sum ;;
  freq <- py_float fft_peak_frequency ;;
  struct_pack wled_format
    ([ABytes header; AInt 0; AInt 0; AFloat raw; AFloat smoothed;
      AInt peak_level; AInt 0]
     ++ map AInt fft_values
     ++ [AInt 0; AInt 0; AFloat magsum; AFloat freq]).

(** ** The ring buffer *)

(** [collections.deque(maxlen=n)]: the blocks from the oldest (left) to the
    newest (right). *)
Record deque : Type := {
  maxlen : nat;
  items : list (list byte)
}.

Definition deque_new (n : nat) : deque := {| maxlen := n; items := [] |}.

(** [d.append(x)]: [x] is added on the right; once the deque holds more than
    [maxlen] items the leftmost one is discarded. *)
Definition deque_append (d : deque) (x : list byte) : deque :=
  let l := (items d ++ [x])%list in
  {| maxlen := maxlen d;
     items := if (maxlen d <? length l)%nat then tl l else l |}.

(** [b"".join(ring_buffer)] *)
Definition join (d : deque) : list byte := concat (items d).

(** ** The stream loop *)

Record config : Type := {
  WLED_IP_ADDRESSES : list string;
  USE_MULTICAST : bool;
  MULTICAST_IP : string;
  sample_rate : Z;
  buffer_size : nat;
  chunk_size : nat
}.

(** The capacity of the ring buffer, [buffer_size // chunk_size]. (With a
    chunk size of 0 the program stops at this division; the capacity is 0
    here.) *)
Definition capacity (cfg : config) : nat :=
  (buffer_size cfg / chunk_size cfg)%nat.

Record state : Type := {
  ring_buffer : deque;
  previous_smoothed_level : float
}.

(** The for loop that seeds the buffer with [maxlen] blocks of zeros. *)
Fixpoint fill_zeros (n : nat) (chunk : nat) (d : deque) : deque :=
  match n with
  | O => d
  | S n' => fill_zeros n' chunk (deque_append d (repeat x00 chunk))
  end.

Definition initial_state (cfg : config) : state :=
  let d := deque_new (capacity cfg) in
  {| ring_buffer := fill_zeros (maxlen d) (chunk_size cfg) d;
     previous_smoothed_level := F64.zero |}.

(** [if audio_data: ring_buffer.append(audio_data)] *)
Definition push_read (d : deque) (audio_data : list byte) : deque :=
  match audio_data with
  | [] => d
  | _ :: _ => deque_append d audio_data
  end.

(** The for loop over the unicast addresses. [net ip] tells whether
    [udp_socket.sendto] to [ip] succeeds; a failing call raises [OSError],
    which ends the loop. The result lists the addresses the datagram was sent
    to. *)
Fixpoint send_unicast (net : string -> bool) (ips : list string)
  : list string * result unit :=
  match ips with
  | [] => ([], Ok tt)
  | ip :: rest =>
      if net ip then
        let (sent, r) := send_unicast net rest in (ip :: sent, r)
      else ([], Raise OSError)
  end.

Definition dispatch (cfg : config) (net : string -> bool)
  : list string * result unit :=
  if USE_MULTICAST cfg then
    if net (MULTICAST_IP cfg) then ([MULTICAST_IP cfg], Ok tt)
    else ([], Raise OSError)
  else send_unicast net (WLED_IP_ADDRESSES cfg).

(** How one iteration of [while True] ends: the next iteration starts, after a
    packet was sent or after [continue], or an exception leaves the loop. *)
Inductive status : Type :=
| Sent
| Skipped
| Raised (e : exn).

Record cycle_result : Type := {
  next : state;
  fft_result : option analysis;
  packet : option (list byte);
  delivered : list string;
  outcome : status
}.

Definition smooth (previous raw : float) : float :=
  F64.add (F64.mul (F64.of_ratio 8 10) previous)
          (F64.mul (F64.of_ratio 2 10) raw).

Section Loop.

Variable rfft_abs : list Z -> list float.
Variable cfg : config.

(** One iteration of the loop of [stream_audio_to_wled], on what
    [sys.stdin.buffer.read(chunk_size)] returned. *)
Definition cycle (net : string -> bool) (st : state) (audio_data : list byte)
  : cycle_result :=
  let rb := push_read (ring_buffer st) audio_data in
  let combined_data := join rb in
  match calculate_fft rfft_abs (firstn (chunk_size cfg) combined_data)
                      (sample_rate cfg) with
  | None =>
      {| next := {| ring_buffer := rb;
                    previous_smoothed_level := previous_smoothed_level st |};
         fft_result := None;
         packet := None; delivered := []; outcome := Skipped |}
  | Some r =>
      let smoothed_level := smooth (previous_smoothed_level st) (raw_level r) in
      let st' := {| ring_buffer := rb;
                    previous_smoothed_level := smoothed_level |} in
      match create_udp_packet
              (map PyInt (fft_values r)) (PyFloat (raw_level r))
              (PyFloat smoothed_level) (PyInt (peak_level r))
              (PyFloat (fft_magnitude_sum r))
              (PyFloat (fft_peak_frequency r)) with
      | Raise e =>
          {| next := st'; fft_result := Some r;
             packet := None; delivered := []; outcome := Raised e |}
      | Ok udp_packet =>
          let (sent, sr) := dispatch cfg net in
          {| next := st'; fft_result := Some r;
             packet := Some udp_packet; delivered := sent;
             outcome := match sr with Ok _ => Sent | Raise e => Raised e end |}
      end
  end.

(** The loop on a finite sequence of reads; it stops at the first
    exception. The results of the iterations run are returned in order. *)
Fixpoint run (net : string -> bool) (st : state) (reads : list (list byte))
  : list cycle_result :=
  match reads with
  | [] => []
  | audio_data :: rest =>
      let c := cycle net st audio_data in
      match outcome c with
      | Raised _ => [c]
      | _ => c :: run net (next c) rest
      end
  end.

(** [stream_audio_to_wled] on a finite sequence of reads: the buffer is
    seeded with silence and the loop runs on the reads. *)
Definition stream_audio_to_wled (net : string -> bool)
  (reads : list (list byte)) : list cycle_result :=
  run net (initial_state cfg) reads.

End Loop.

(** ** A reference transform *)

(** The magnitudes of the discrete Fourier transform of a real block at the
    frequencies [0 .. N/2], evaluated term by term in binary64. numpy computes
    the same transform with a fast algorithm, so the two spectra agree up to
    rounding errors. It instantiates the analyzer on concrete blocks. *)
Module RefDFT.

(** The binary64 value nearest to pi. *)
Definition pi : float := F64.of_ratio 7074237752028440 2251799813685248.

(** [n] further terms of an alternating power series in [x2 = x * x], the
    last one added being [term] of order [k]. *)
Fixpoint series (n : nat) (x2 term : float) (k : Z) (acc : float) : float :=
  match n with
  | O => acc
  | S n' =>
      let term' :=
        F64.div (F64.mul (F64.opp term) x2) (F64.of_Z ((k + 1) * (k + 2))) in
      series n' x2 term' (k + 2) (F64.add acc term')
  end.

Definition cos (x : float) : float :=
  series 14 (F64.mul x x) (F64.of_Z 1) 0 (F64.of_Z 1).

Definition sin (x : float) : float :=
  series 14 (F64.mul x x) x 1 x.

(** The angle [2 * pi * j / n] for [0 <= j < n], taken in [(-pi, pi]]. *)
Definition angle (n j : Z) : float :=
  let j' := if n <? 2 * j then j - n else j in
  F64.div (F64.mul (F64.of_Z (2 * j')) pi) (F64.of_Z n).

Fixpoint upto (k : nat) : list Z :=
  match k with
  | O => []
  | S k' => (upto k' ++ [Z.of_nat k'])%list
  end.

Definition table (f : float -> float) (n : Z) : list float :=
  map (fun j => f (angle n j)) (upto (Z.to_nat n)).

(** The sum over [t] of [x_t * tab[(k * t) mod n]]. *)
Fixpoint dot (tab : list float) (n k : Z) (xs : list Z) (t : Z) (acc : float)
  : float :=
  match xs with
  | [] => acc
  | x :: xs' =>
      let w := nth (Z.to_nat ((k * t) mod n)) tab F64.zero in
      dot tab n k xs' (t + 1) (F64.add acc (F64.mul (F64.of_Z x) w))
  end.

Definition dft_abs (xs : list Z) : list float :=
  let n := Z.of_nat (length xs) in
  let ct := table cos n in
  let st := table sin n in
  map (fun k =>
         let re := dot ct n k xs 0 F64.zero in
         let im := F64.opp (dot st n k xs 0 F64.zero) in
         F64.sqrt (F64.add (F64.mul re re) (F64.mul im im)))
      (upto (Z.to_nat (n / 2) + 1)).

End RefDFT.

(** ** Definitions used to state the properties *)

(** A float that is neither a zero nor a NaN, of sign [s]. *)
Inductive nonzero_of_sign (s : bool) : float -> Prop :=
| nz_finite m e : nonzero_of_sign s (S754_finite s m e)
| nz_infinity : nonzero_of_sign s (S754_infinity s).

(** The expression [int((m / 32767) * 255)] of [calculate_fft]. *)
Definition peak_of_max (m : Z) : result Z :=
  py_int (PyFloat (F64.mul (F64.div (F64.of_Z m) (F64.of_Z 32767))
                           (F64.of_Z 255))).

Definition f32767 : float := Eval vm_compute in F64.of_Z 32767.
Definition f255 : float := Eval vm_compute in F64.of_Z 255.

(** The quotient of the integer [p] by 32767 as a float, with the division
    done on the integer itself instead of on the two mantissas. *)
Definition div_32767 (p : positive) : float :=
  let d := Zpos (digits2_pos p) in
  let (q, r) := Z.div_eucl (Zpos p * 2 ^ (68 - d)) 32767 in
  binary_round_aux F64.prec F64.emax false q (d - 68)
    (if r =? 0 then loc_Exact else loc_Inexact (2 * r ?= 32767)).

(** The product by 255, the mantissa of 255 being the first factor. *)
Definition mul_255 (x : float) : float :=
  match x with
  | S754_finite s m e =>
      binary_round_aux F64.prec F64.emax s
        (Zpos (8972014882652160 * m)) (e + -45) loc_Exact
  | _ => F64.mul x f255
  end.

Definition int16 (z : Z) : Prop := -32768 <= z <= 32767.

Definition in_byte_range (v : Z) : Prop := 0 <= v <= 255.

(** The largest absolute value of a block of samples. *)
Definition max_abs (samples : list Z) : Z :=
  fold_left Z.max (map Z.abs samples) 0.

(** The nearest integer to [a / b] for [b > 0], ties to the even one: Python's
    [round]. *)
Definition round_div (a b : Z) : Z :=
  let q := a / b in
  let r := a mod b in
  if 2 * r <? b then q
  else if b <? 2 * r then q + 1
  else if Z.even q then q else q + 1.

(** The peak level as the specification words it:
    [round(max(abs(samples)) / 32767 * 255)], clamped to [0, 255]. *)
Definition spec_peak_level (samples : list Z) : Z :=
  Z.max 0 (Z.min 255 (round_div (max_abs samples * 255) 32767)).

Definition spectrum_top (x : float) (sp : list float) : float :=
  fold_left fmax sp x.

(** What [calculate_fft] returns on non-empty [samples] whose spectrum is
    [x :: sp]. *)
Definition analysis_of (sample_rate : Z) (samples : list Z) (x : float)
  (sp : list float) : analysis :=
  {| fft_values :=
       map uint8_of_float
           (firstn 16 (np_interp (x :: sp) F64.zero (spectrum_top x sp)
                                 F64.zero (F64.of_Z 255)));
     raw_level := np_mean (np_abs_int16 samples);
     peak_level :=
       Z.quot (match np_abs_int16 samples with
               | [] => 0
               | a :: t => fold_left Z.max t a
               end * 255) 32767;
     fft_magnitude_sum := np_sum (x :: sp);
     fft_peak_frequency :=
       F64.mul (F64.of_Z (argmax_from sp 1 x 0))
               (F64.div (F64.of_Z sample_rate)
                        (F64.of_Z (Z.of_nat (length samples)))) |}.

(** [idx] is the first index at which [l] takes its maximum: no element is
    above the one at [idx], and every element before it is below it. *)
Definition first_max (l : list float) (idx : Z) : Prop :=
  0 <= idx < Z.of_nat (length l)
  /\ (forall j, (j < length l)%nat ->
                F64.leb (nth j l F64.zero) (nth (Z.to_nat idx) l F64.zero)
                = true)
  /\ (forall j, (j < Z.to_nat idx)%nat ->
                F64.ltb (nth j l F64.zero) (nth (Z.to_nat idx) l F64.zero)
                = true).

(** The bytes of a packet from offset [off], [len] of them. *)
Definition slice (off len : nat) (b : list byte) : list byte :=
  firstn len (skipn off b).

(** A float that fits the format ['<f']. *)
Definition fits_binary32 (x : float) : bool := is_ok (pack_f x).

(** The packet laid out field by field. *)
Definition wled_packet (vs : list Z) (r s : float) (p : Z) (m f : float)
  : list byte :=
  header ++ [x00] ++ [x00; x00]
  ++ le_bytes32 (bits_of_binary32 (to_binary32 r))
  ++ le_bytes32 (bits_of_binary32 (to_binary32 s))
  ++ [byte_of_Z p] ++ [x00]
  ++ map byte_of_Z vs
  ++ [x00; x00]
  ++ le_bytes32 (bits_of_binary32 (to_binary32 m))
  ++ le_bytes32 (bits_of_binary32 (to_binary32 f)).

(** Pushing a sequence of blocks, the oldest first. *)
Definition push_all (d : deque) (blocks : list (list byte)) : deque :=
  fold_left deque_append blocks d.

(** The smoothed levels of a sequence of raw levels, from the level [s]. *)
Fixpoint smoothed_levels (s : float) (raws : list float) : list float :=
  match raws with
  | [] => []
  | r :: rest => let s' := smooth s r in s' :: smoothed_levels s' rest
  end.

(** The iterations of a run on which the analysis succeeded, with the state
    they left. *)
Definition analysed (cs : list cycle_result) : list (analysis * state) :=
  flat_map (fun c => match fft_result c with
                     | Some r => [(r, next c)]
                     | None => []
                     end) cs.

(** ** Definitions for the further properties *)

(** The value of a byte read with the format ['B']. *)
Definition uint8 (b : byte) : Z := Z.of_N (Byte.to_N b).

(** The addresses a packet goes to when every send succeeds. *)
Definition targets (cfg : config) : list string :=
  if USE_MULTICAST cfg then [MULTICAST_IP cfg] else WLED_IP_ADDRESSES cfg.

(** The analysis of a block of silence with sixteen bands. *)
Definition silence_result : analysis :=
  {| fft_values := repeat 255 16;
     raw_level := F64.zero;
     peak_level := 0;
     fft_magnitude_sum := F64.zero;
     fft_peak_frequency := F64.zero |}.

(** The packet of this analysis at the smoothed level 0.0. *)
Definition silence_packet : list byte :=
  wled_packet (repeat 255 16) F64.zero F64.zero 0 F64.zero F64.zero.

(** The state a sequence of iterations ends in. *)
Definition final_state (st : state) (cs : list cycle_result) : state :=
  last (map next cs) st.

(** The reads that the iterations [cs] pushed to the ring buffer: the
    non-empty ones among the reads these iterations consumed. *)
Definition pushed (cs : list cycle_result) (reads : list (list byte))
  : list (list byte) :=
  filter (fun d => match d with [] => false | _ :: _ => true end)
         (firstn (length cs) reads).

(** The window holds [capacity] blocks of [chunk_size] bytes. *)
Definition full_window (cfg : config) (d : deque) : Prop :=
  maxlen d = capacity cfg
  /\ length (items d) = capacity cfg
  /\ Forall (fun b => length b = chunk_size cfg) (items d).

(** ** The list of controllers *)

(** A [string] stands for a Python [str] whose code points are below 256.
    [str.isspace] on one of them: the code points 9 to 13, 28 to 32, 133 and
    160. *)
Definition isspace (c : ascii) : bool :=
  let n := N_of_ascii c in
  ((9 <=? n) && (n <=? 13) || (28 <=? n) && (n <=? 32)
   || (n =? 133) || (n =? 160))%N.

(** [s.split(sep)] for a separator of one character: the pieces between the
    separators, empty ones included. *)
Fixpoint str_split (sep : ascii) (s : string) : list string :=
  match s with
  | EmptyString => [EmptyString]
  | String c rest =>
      if Ascii.eqb c sep then EmptyString :: str_split sep rest
      else match str_split sep rest with
           | [] => [String c EmptyString]
           | piece :: pieces => String c piece :: pieces
           end
  end.

Fixpoint str_lstrip (s : string) : string :=
  match s with
  | EmptyString => EmptyString
  | String c rest => if isspace c then str_lstrip rest else s
  end.

Fixpoint str_rstrip (s : string) : string :=
  match s with
  | EmptyString => EmptyString
  | String c rest =>
      match str_rstrip rest with
      | EmptyString => if isspace c then EmptyString else String c EmptyString
      | kept => String c kept
      end
  end.

(** [s.strip()] *)
Definition str_strip (s : string) : string := str_rstrip (str_lstrip s).

(** [[ip.strip() for ip in wled_ip_string.split(',')]] *)
Definition wled_ip_addresses (wled_ip_string : string) : list string :=
  map str_strip (str_split "," wled_ip_string).

Fixpoint count_char (c : ascii) (s : string) : nat :=
  match s with
  | EmptyString => 0
  | String c' rest =>
      ((if Ascii.eqb c' c then 1 else 0) + count_char c rest)%nat
  end.

Definition first_char (s : string) : option ascii :=
  match s with
  | EmptyString => None
  | String c _ => Some c
  end.

Fixpoint last_char (s : string) : option ascii :=
  match s with
  | EmptyString => None
  | String c EmptyString => Some c
  | String _ rest => last_char rest
  end.

Fixpoint all_space (s : string) : bool :=
  match s with
  | EmptyString => true
  | String c rest => isspace c && all_space rest
  end.

(** An address as the list holds them: no comma in it and no white space at
    either end. *)
Definition clean (a : string) : Prop :=
  count_char "," a = 0%nat
  /\ (forall c, first_char a = Some c -> isspace c = false)
  /\ (forall c, last_char a = Some c -> isspace c = false).

(** An address with white space before and after it. *)
Record padded : Type := {
  before : string;
  address : string;
  after : string
}.

Definition padded_text (p : padded) : string :=
  (before p ++ address p ++ after p)%string.

Definition well_padded (p : padded) : Prop :=
  all_space (before p) = true /\ all_space (after p) = true
  /\ clean (address p).

(** ** Concrete blocks and configurations *)

Module Sample.

(** A block of [n] samples, all equal to the int16 of bytes [lo], [hi]. *)
Definition constant (lo hi : byte) (n : nat) : list byte :=
  concat (repeat [lo; hi] n).

(** [2 * n] samples alternating between 1000 and -1000: a tone at the
    highest frequency the block can hold. *)
Definition alternating (n : nat) : list byte :=
  concat (repeat [xe8; x03; x18; xfc] n).

Definition alternating_samples (n : nat) : list Z :=
  concat (repeat [1000; -1000] n).

Definition block (b : byte) (n : nat) : list byte := repeat b n.

(** Three blocks of two bytes. *)
Definition three_blocks : list (list byte) :=
  [block x01 2; block x02 2; block x03 2].

(** A ring buffer of two blocks of two bytes, seeded with silence. *)
Definition ring : deque := fill_zeros 2 2 (deque_new 2).

(** Blocks of 30 samples at 8000 Hz, a ring buffer of one block, and three
    unicast controllers. *)
Definition cfg : config :=
  {| WLED_IP_ADDRESSES :=
       ["192.168.1.10"; "192.168.1.11"; "192.168.1.12"]%string;
     USE_MULTICAST := false;
     MULTICAST_IP := "239.0.0.1"%string;
     sample_rate := 8000;
     buffer_size := 60;
     chunk_size := 60 |}.

(** Blocks of two samples and a ring buffer of two blocks. *)
Definition small : config :=
  {| WLED_IP_ADDRESSES := ["192.168.1.10"]%string;
     USE_MULTICAST := false;
     MULTICAST_IP := "239.0.0.1"%string;
     sample_rate := 8000;
     buffer_size := 8;
     chunk_size := 4 |}.

(** A network on which every send succeeds. *)
Definition up (ip : string) : bool := true.

(** A network on which the second controller cannot be reached. *)
Definition second_down (ip : string) : bool :=
  negb (String.eqb ip "192.168.1.11").

(** The packet of the example of the specification: bands [0 .. 15], raw
    level 1.5, smoothed level 1.2, peak level 200, magnitude sum 42 and peak
    frequency 440. *)
Definition bands : list Z :=
  [0; 1; 2; 3; 4; 5; 6; 7; 8; 9; 10; 11; 12; 13; 14; 15].
Definition raw : float := F64.of_ratio 15 10.
Definition smoothed : float := F64.of_ratio 12 10.
Definition magsum : float := F64.of_Z 42.
Definition freq : float := F64.of_Z 440.

(** The setting ['192.168.1.10 , 192.168.1.11'] piece by piece. *)
Definition entries : list padded :=
  [ {| before := EmptyString; address := "192.168.1.10"; after := " " |};
    {| before := " "; address := "192.168.1.11"; after := EmptyString |} ]
  %string.

End Sample.

(** In each proof about [cycle] the three matches of its body are split. *)
Ltac cycle_cases :=
  unfold cycle;
  destruct (calculate_fft _ _ _); [ | try reflexivity; try discriminate];
  [destruct (create_udp_packet _ _ _ _ _ _);
   [destruct (dispatch _ _) | ]; try reflexivity; try discriminate].

(** The comparisons of integers in a goal are split into their cases. *)
Ltac compare_cases :=
  repeat match goal with
         | H : context [Z.compare ?a ?b] |- _ =>
             destruct (Z.compare_spec a b); subst
         | |- context [Z.compare ?a ?b] =>
             destruct (Z.compare_spec a b); subst
         | H : context [Pos.compare ?a ?b] |- _ =>
             destruct (Pos.compare_spec a b); subst
         | |- context [Pos.compare ?a ?b] =>
             destruct (Pos.compare_spec a b); subst
         end.

(** * Properties *)

(** ** Rounding an integer to binary64 *)

Section Rounding.

Lemma digits2_pos_lower (p : positive) :
  2 ^ (Zpos (digits2_pos p) - 1) <= Zpos p.
Proof.
  induction p as [p IH | p IH | ]; cbn [digits2_pos].
  - rewrite Pos2Z.inj_succ.
    replace (Z.succ (Zpos (digits2_pos p)) - 1)
      with (Z.succ (Zpos (digits2_pos p) - 1)) by lia.
    rewrite Z.pow_succ_r by lia. lia.
  - rewrite Pos2Z.inj_succ.
    replace (Z.succ (Zpos (digits2_pos p)) - 1)
      with (Z.succ (Zpos (digits2_pos p) - 1)) by lia.
    rewrite Z.pow_succ_r by lia. lia.
  - reflexivity.
Qed.

Lemma shr_1_m (r : shr_record) :
  0 <= shr_m r -> shr_m (shr_1 r) = shr_m r / 2.
Proof.
  destruct r as [m b s]; cbn [shr_m]; intros Hm.
  destruct m as [ | [p | p | ] | p ]; cbn [shr_1 shr_m].
  - reflexivity.
  - apply Z.div_unique with (r := 1); lia.
  - apply Z.div_unique with (r := 0); lia.
  - reflexivity.
  - lia.
Qed.

Lemma iter_shr_1_m (n : positive) :
  forall r, 0 <= shr_m r ->
            shr_m (iter_pos shr_1 n r) = shr_m r / 2 ^ Zpos n.
Proof.
  induction n as [n IH | n IH | ]; intros r Hr; cbn [iter_pos].
  - assert (H1 : 0 <= shr_m (shr_1 r))
      by (rewrite shr_1_m by assumption; apply Z.div_pos; lia).
    assert (H2 : 0 <= shr_m (iter_pos shr_1 n (shr_1 r)))
      by (rewrite IH by assumption; apply Z.div_pos; lia).
    rewrite IH, IH, shr_1_m by assumption.
    rewrite !Z.div_div by lia.
    f_equal. rewrite (Pos2Z.inj_xI n).
    replace (2 * Zpos n + 1) with (Zpos n + Zpos n + 1) by lia.
    rewrite !Z.pow_add_r by lia. change (2 ^ 1) with 2. ring.
  - assert (H2 : 0 <= shr_m (iter_pos shr_1 n r))
      by (rewrite IH by assumption; apply Z.div_pos; lia).
    rewrite IH, IH by assumption.
    rewrite !Z.div_div by lia.
    f_equal. rewrite (Pos2Z.inj_xO n).
    replace (2 * Zpos n) with (Zpos n + Zpos n) by lia.
    rewrite Z.pow_add_r by lia. reflexivity.
  - rewrite shr_1_m by assumption. reflexivity.
Qed.

(** Shifting a positive mantissa to its canonical exponent leaves it
    positive, as long as the exponent is above the underflow range. *)
Lemma shr_fexp_positive (m e : Z) (l : location) :
  0 < m -> -1073 <= e ->
  0 < shr_m (fst (shr_fexp F64.prec F64.emax m e l))
  /\ e <= snd (shr_fexp F64.prec F64.emax m e l).
Proof.
  intros Hm He. unfold shr_fexp, shr.
  assert (Hrec : shr_m (shr_record_of_loc m l) = m)
    by (destruct l as [ | [ | | ] ]; reflexivity).
  destruct (fexp F64.prec F64.emax (Zdigits2 m + e) - e) as [ | n | n ] eqn:Hn;
    cbn [fst snd]; rewrite ?Hrec; try lia.
  rewrite iter_shr_1_m by lia. rewrite Hrec. split; [ | lia ].
  destruct m as [ | p | p ]; try lia.
  cbn [Zdigits2] in Hn. pose proof (digits2_pos_lower p) as Hd.
  unfold fexp, emin, F64.prec, F64.emax in Hn.
  assert (Hle : Zpos n <= Zpos (digits2_pos p) - 1) by lia.
  assert (Hpow : 2 ^ Zpos n <= 2 ^ (Zpos (digits2_pos p) - 1))
    by (apply Z.pow_le_mono_r; lia).
  apply Z.div_str_pos. lia.
Qed.

Lemma round_nearest_even_positive (m : Z) (l : location) :
  0 < m -> 0 < round_nearest_even m l.
Proof.
  intros Hm. destruct l as [ | [ | | ] ]; cbn [round_nearest_even]; try lia.
  destruct (Z.even m); lia.
Qed.

Lemma binary_round_aux_nonzero (s : bool) (m e : Z) (l : location) :
  0 < m -> -1073 <= e ->
  nonzero_of_sign s (binary_round_aux F64.prec F64.emax s m e l).
Proof.
  intros Hm He. unfold binary_round_aux.
  destruct (shr_fexp_positive m e l Hm He) as [H1 H1e].
  destruct (shr_fexp F64.prec F64.emax m e l) as [r1 e1].
  cbn [fst snd] in H1, H1e.
  pose proof (round_nearest_even_positive _ (loc_of_shr_record r1) H1) as H2.
  assert (He1 : -1073 <= e1) by lia.
  destruct (shr_fexp_positive _ e1 loc_Exact H2 He1) as [H3 _].
  destruct (shr_fexp F64.prec F64.emax _ e1 loc_Exact) as [r2 e2].
  cbn [fst] in H3.
  destruct (shr_m r2) as [ | p | p ]; try lia.
  destruct (e2 <=? F64.emax - F64.prec); constructor.
Qed.

(** A positive integer is rounded to a positive float or to infinity. *)
Lemma of_Z_positive (p : positive) :
  nonzero_of_sign false (F64.of_Z (Zpos p)).
Proof.
  unfold F64.of_Z, binary_normalize, binary_round, shl_align.
  set (f := fexp F64.prec F64.emax (Zpos (digits2_pos p) + 0)).
  assert (Hf : -52 <= f).
  { subst f. unfold fexp, emin, F64.prec, F64.emax.
    pose proof (Pos2Z.is_pos (digits2_pos p)). lia. }
  destruct (f - 0) as [ | d | d ] eqn:Hd;
    apply binary_round_aux_nonzero; lia.
Qed.

(** [0.0 / n] is [0.0] for every positive integer [n]. *)
Lemma div_zero_of_Z (n : Z) :
  0 < n -> F64.div F64.zero (F64.of_Z n) = F64.zero.
Proof.
  intros Hn. destruct n as [ | p | p ]; try lia.
  destruct (of_Z_positive p); reflexivity.
Qed.

End Rounding.

(** ** The two roundings of the peak level *)

Lemma digits2_pos_upper (p : positive) :
  Zpos p < 2 ^ Zpos (digits2_pos p).
Proof.
  induction p as [p IH | p IH | ]; cbn [digits2_pos].
  - rewrite Pos2Z.inj_succ, Z.pow_succ_r by lia. lia.
  - rewrite Pos2Z.inj_succ, Z.pow_succ_r by lia. lia.
  - reflexivity.
Qed.

(** The number of binary digits of [m] is the [D] with
    [2 ^ (D - 1) <= m < 2 ^ D]. *)
Lemma Zdigits2_unique (m D : Z) :
  2 ^ (D - 1) <= m < 2 ^ D -> 0 < m -> Zdigits2 m = D.
Proof.
  intros [Hlo Hhi] Hm. destruct m as [ | p | p]; try lia. cbn [Zdigits2].
  pose proof (digits2_pos_lower p) as Hl.
  pose proof (digits2_pos_upper p) as Hu.
  set (D' := Zpos (digits2_pos p)) in *.
  assert (HD' : 0 < D') by (subst D'; lia).
  destruct (Z_lt_le_dec D 1) as [Hsmall | HD].
  { assert (2 ^ D <= 1); [ | lia].
    destruct (Z.eq_dec D 0) as [-> | ]; [reflexivity | ].
    rewrite Z.pow_neg_r by lia. lia. }
  destruct (Z.lt_trichotomy D' D) as [Hlt | [Heq | Hgt]]; [ | exact Heq | ].
  - assert (2 ^ D' <= 2 ^ (D - 1)) by (apply Z.pow_le_mono_r; lia). lia.
  - assert (2 ^ D <= 2 ^ (D' - 1)) by (apply Z.pow_le_mono_r; lia). lia.
Qed.

(** On a mantissa of [D >= 53] digits the first step of the rounding drops
    the [D - 53] low bits. *)
Lemma shr_fexp_digits (m e : Z) (l : location) (D : Z) :
  0 < m -> Zdigits2 m = D -> 53 <= D -> -1074 <= e ->
  shr_m (fst (shr_fexp F64.prec F64.emax m e l)) = m / 2 ^ (D - 53)
  /\ snd (shr_fexp F64.prec F64.emax m e l) = e + (D - 53).
Proof.
  intros Hm HD H53 He. unfold shr_fexp. rewrite HD.
  replace (fexp F64.prec F64.emax (D + e) - e) with (D - 53)
    by (unfold fexp, emin, F64.prec, F64.emax; lia).
  assert (Hrec : shr_m (shr_record_of_loc m l) = m)
    by (destruct l as [ | [ | | ] ]; reflexivity).
  unfold shr. destruct (D - 53) as [ | n | n] eqn:Hn; try lia; cbn [fst snd].
  - rewrite Hrec, Z.div_1_r. split; [reflexivity | lia].
  - rewrite iter_shr_1_m, Hrec by lia. split; reflexivity.
Qed.

Lemma round_nearest_even_cases (m : Z) (l : location) :
  round_nearest_even m l = m \/ round_nearest_even m l = m + 1.
Proof.
  destruct l as [ | [ | | ] ]; cbn [round_nearest_even]; auto.
  destruct (Z.even m); auto.
Qed.

(** The rounding of a mantissa [m] of [D >= 53] digits: a mantissa [m'] of 53
    digits and an exponent raised by [k], with [m' * 2 ^ k] within
    [2 ^ (D - 53)] of [m]. *)
Lemma binary_round_aux_bounds (s : bool) (m e : Z) (l : location) (D : Z) :
  0 < m -> Zdigits2 m = D -> 53 <= D -> -1074 <= e -> e + (D - 52) <= 971 ->
  exists (m' : positive) (k : Z),
    binary_round_aux F64.prec F64.emax s m e l = S754_finite s m' (e + k)
    /\ (k = D - 53 \/ k = D - 52)
    /\ 2 ^ 52 <= Zpos m' < 2 ^ 53
    /\ m - 2 ^ (D - 53) < Zpos m' * 2 ^ k <= m + 2 ^ (D - 53).
Proof.
  intros Hm HD H53 He Hmax.
  assert (Hbounds : 2 ^ (D - 1) <= m < 2 ^ D).
  { destruct m as [ | p | p]; try lia. cbn [Zdigits2] in HD. subst D.
    split; [apply digits2_pos_lower | apply digits2_pos_upper]. }
  set (n := D - 53) in *.
  assert (Hn : 0 <= n) by lia.
  assert (Hpn : 0 < 2 ^ n) by (apply Z.pow_pos_nonneg; lia).
  assert (HlowD : 2 ^ (D - 1) = 2 ^ n * 2 ^ 52)
    by (rewrite <- Z.pow_add_r by lia; f_equal; lia).
  assert (HhighD : 2 ^ D = 2 ^ n * 2 ^ 53)
    by (rewrite <- Z.pow_add_r by lia; f_equal; lia).
  unfold binary_round_aux.
  destruct (shr_fexp_digits m e l D Hm HD H53 He) as [Hm1 He1].
  destruct (shr_fexp F64.prec F64.emax m e l) as [r1 e1].
  cbn [fst snd] in Hm1, He1. fold n in Hm1, He1.
  set (m1 := shr_m r1) in *.
  assert (Hm1lo : 2 ^ 52 <= m1)
    by (rewrite Hm1; apply Z.div_le_lower_bound; lia).
  assert (Hm1hi : m1 < 2 ^ 53)
    by (rewrite Hm1; apply Z.div_lt_upper_bound; lia).
  assert (Hdiv : 2 ^ n * m1 <= m < 2 ^ n * (m1 + 1)).
  { rewrite Hm1. split.
    - apply Z.mul_div_le. lia.
    - rewrite Z.mul_add_distr_l, Z.mul_1_r.
      pose proof (Z.mod_pos_bound m (2 ^ n) Hpn).
      pose proof (Z.div_mod m (2 ^ n) ltac:(lia)). lia. }
  set (m2 := round_nearest_even m1 (loc_of_shr_record r1)).
  assert (Hm2 : m2 = m1 \/ m2 = m1 + 1) by apply round_nearest_even_cases.
  change (2 ^ 52) with 4503599627370496 in *.
  change (2 ^ 53) with 9007199254740992 in *.
  destruct (Z_lt_le_dec m2 9007199254740992) as [Hsmall | Hbig].
  - (* no carry: the mantissa has 53 digits *)
    assert (HD2 : Zdigits2 m2 = 53) by (apply Zdigits2_unique; cbn; lia).
    destruct (shr_fexp_digits m2 e1 loc_Exact 53 ltac:(lia) HD2 ltac:(lia)
                ltac:(lia)) as [Hm3 He3].
    destruct (shr_fexp F64.prec F64.emax m2 e1 loc_Exact) as [r2 e2].
    cbn [fst snd] in Hm3, He3. change (2 ^ (53 - 53)) with 1 in Hm3.
    rewrite Z.div_1_r in Hm3. rewrite Hm3.
    destruct m2 as [ | p2 | p2]; try lia.
    exists p2, n.
    replace (e2 <=? F64.emax - F64.prec) with true
      by (symmetry; apply Z.leb_le; unfold F64.emax, F64.prec; lia).
    replace e2 with (e + n) by lia.
    split; [reflexivity | split; [left; reflexivity | split; [lia | ]]].
    rewrite Z.mul_comm. lia.
  - (* carry: the mantissa is 2^53 *)
    assert (Hm2eq : m2 = 9007199254740992) by lia.
    assert (HD2 : Zdigits2 m2 = 54) by (rewrite Hm2eq; reflexivity).
    destruct (shr_fexp_digits m2 e1 loc_Exact 54 ltac:(lia) HD2 ltac:(lia)
                ltac:(lia)) as [Hm3 He3].
    destruct (shr_fexp F64.prec F64.emax m2 e1 loc_Exact) as [r2 e2].
    cbn [fst snd] in Hm3, He3. rewrite Hm2eq in Hm3.
    change (9007199254740992 / 2 ^ (54 - 53)) with 4503599627370496 in Hm3.
    rewrite Hm3.
    exists 4503599627370496%positive, (n + 1).
    replace (e2 <=? F64.emax - F64.prec) with true
      by (symmetry; apply Z.leb_le; unfold F64.emax, F64.prec; lia).
    replace e2 with (e + (n + 1)) by lia.
    split; [reflexivity | split; [right; lia | split; [lia | ]]].
    rewrite Z.pow_add_r by lia. change (2 ^ 1) with 2. lia.
Qed.

(** The rounding of a mantissa between [2 ^ (52 + j)] and [2 ^ (54 + j)]. *)
Lemma binary_round_aux_range (s : bool) (m e : Z) (l : location) (j : Z) :
  0 <= j -> 2 ^ (52 + j) <= m < 2 ^ (54 + j) ->
  -1074 <= e -> e + j + 2 <= 971 ->
  exists (m' : positive) (k : Z),
    binary_round_aux F64.prec F64.emax s m e l = S754_finite s m' (e + k)
    /\ j <= k <= j + 2
    /\ 2 ^ 52 <= Zpos m' < 2 ^ 53
    /\ m - 2 ^ (j + 1) < Zpos m' * 2 ^ k <= m + 2 ^ (j + 1).
Proof.
  intros Hj [Hlo Hhi] He Hmax.
  assert (Hm : 0 < m).
  { assert (0 < 2 ^ (52 + j)) by (apply Z.pow_pos_nonneg; lia). lia. }
  assert (HD : Zdigits2 m = 53 + j \/ Zdigits2 m = 54 + j).
  { destruct (Z_lt_le_dec m (2 ^ (53 + j))) as [Hlt | Hge].
    - left. apply Zdigits2_unique; [ | assumption].
      replace (53 + j - 1) with (52 + j) by lia. lia.
    - right. apply Zdigits2_unique; [ | assumption].
      replace (54 + j - 1) with (53 + j) by lia. lia. }
  assert (Hpow : 0 < 2 ^ j) by (apply Z.pow_pos_nonneg; lia).
  assert (Hsucc : 2 ^ (j + 1) = 2 * 2 ^ j)
    by (rewrite Z.pow_add_r by lia; change (2 ^ 1) with 2; lia).
  destruct HD as [HD | HD].
  - destruct (binary_round_aux_bounds s m e l (53 + j) Hm HD ltac:(lia) He
                ltac:(lia)) as (m' & k & Heq & Hk & Hm' & Hb).
    exists m', k. replace (53 + j - 53) with j in Hb by lia.
    repeat split; try assumption; lia.
  - destruct (binary_round_aux_bounds s m e l (54 + j) Hm HD ltac:(lia) He
                ltac:(lia)) as (m' & k & Heq & Hk & Hm' & Hb).
    exists m', k. replace (54 + j - 53) with (j + 1) in Hb by lia.
    repeat split; try assumption; lia.
Qed.

Lemma digits2_pos_iter_xO (p k : positive) :
  digits2_pos (Pos.iter xO p k) = (digits2_pos p + k)%positive.
Proof.
  induction k as [ | k IH] using Pos.peano_ind.
  - cbn [Pos.iter digits2_pos]. lia.
  - rewrite Pos.iter_succ. cbn [digits2_pos]. rewrite IH. lia.
Qed.

Lemma Zpos_iter_xO (p k : positive) :
  Zpos (Pos.iter xO p k) = Zpos p * 2 ^ Zpos k.
Proof.
  induction k as [ | k IH] using Pos.peano_ind.
  - cbn [Pos.iter]. rewrite (Pos2Z.inj_xO p). change (2 ^ 1) with 2. lia.
  - rewrite Pos.iter_succ, (Pos2Z.inj_xO (Pos.iter xO p k)), IH.
    rewrite Pos2Z.inj_succ, Z.pow_succ_r by lia. ring.
Qed.

(** A mantissa of 53 bits with a small negative exponent is left as it is by
    the rounding. *)
Lemma binary_round_aux_canonical (s : bool) (m : positive) (e : Z) :
  Zpos (digits2_pos m) = 53 -> -1074 <= e <= 971 ->
  binary_round_aux F64.prec F64.emax s (Zpos m) e loc_Exact
  = S754_finite s m e.
Proof.
  intros Hd He. unfold binary_round_aux.
  assert (Hshr : shr_fexp F64.prec F64.emax (Zpos m) e loc_Exact
                 = ({| shr_m := Zpos m; shr_r := false; shr_s := false |}, e)).
  { unfold shr_fexp. cbn [Zdigits2]. rewrite Hd.
    replace (fexp F64.prec F64.emax (53 + e) - e) with 0
      by (unfold fexp, emin, F64.prec, F64.emax; lia).
    reflexivity. }
  rewrite Hshr. cbn [shr_m loc_of_shr_record round_nearest_even].
  rewrite Hshr. cbn [shr_m].
  replace (e <=? F64.emax - F64.prec) with true
    by (symmetry; apply Z.leb_le; unfold F64.emax, F64.prec; lia).
  reflexivity.
Qed.

(** The float of a positive integer below 2^53: its bits moved up to fill
    53. *)
Lemma of_Z_small (p : positive) :
  Zpos (digits2_pos p) < 53 ->
  F64.of_Z (Zpos p)
  = S754_finite false
      (Pos.iter xO p (Z.to_pos (53 - Zpos (digits2_pos p))))
      (Zpos (digits2_pos p) - 53).
Proof.
  intros Hd. unfold F64.of_Z, binary_normalize, binary_round, shl_align.
  replace (fexp F64.prec F64.emax (Zpos (digits2_pos p) + 0))
    with (Zpos (digits2_pos p) - 53)
    by (unfold fexp, emin, F64.prec, F64.emax; lia).
  destruct (Zpos (digits2_pos p) - 53 - 0) as [ | k | k] eqn:Hk; try lia.
  replace (Z.to_pos (53 - Zpos (digits2_pos p))) with k by lia.
  apply binary_round_aux_canonical.
  - rewrite digits2_pos_iter_xO. lia.
  - lia.
Qed.

Lemma div_eucl_pair (a b : Z) : Z.div_eucl a b = (a / b, a mod b).
Proof. unfold Z.div, Z.modulo. destruct (Z.div_eucl a b). reflexivity. Qed.

Lemma div_32767_spec (p : positive) :
  Zpos (digits2_pos p) < 53 ->
  F64.div (F64.of_Z (Zpos p)) f32767 = div_32767 p.
Proof.
  intros Hd. rewrite of_Z_small by assumption.
  set (k := Z.to_pos (53 - Zpos (digits2_pos p))).
  set (d := Zpos (digits2_pos p)) in *.
  assert (Hk : Zpos k = 53 - d) by (subst k; lia).
  unfold F64.div, SFdiv, f32767.
  change (xorb false false) with false.
  unfold SFdiv_core_binary.
  cbn [Zdigits2]. rewrite digits2_pos_iter_xO.
  change (Zpos (digits2_pos 9006924376834048)) with 53.
  replace (Zpos (digits2_pos p + k)) with 53 by lia.
  replace (Z.min (fexp F64.prec F64.emax (53 + (d - 53) - (53 + -38)))
                 (d - 53 - -38))
    with (d - 68)
    by (unfold fexp, emin, F64.prec, F64.emax; lia).
  replace (d - 53 - -38 - (d - 68)) with 53 by lia.
  rewrite Z.shiftl_mul_pow2 by lia.
  rewrite div_eucl_pair, Zpos_iter_xO, Hk.
  change (Zpos 9006924376834048) with (32767 * 2 ^ 38).
  replace (Zpos p * 2 ^ (53 - d) * 2 ^ 53)
    with (Zpos p * 2 ^ (68 - d) * 2 ^ 38).
  2:{ rewrite <- !Z.mul_assoc, <- !Z.pow_add_r by lia.
      do 2 f_equal. lia. }
  rewrite Z.div_mul_cancel_r by lia.
  rewrite Z.mul_mod_distr_r by lia.
  unfold div_32767. fold d. rewrite div_eucl_pair. f_equal.
  set (r := (Zpos p * 2 ^ (68 - d)) mod 32767).
  unfold new_location.
  change (Z.even (32767 * 2 ^ 38)) with true. cbv iota.
  unfold new_location_even.
  assert (Hr : 0 <= r < 32767) by (apply Z.mod_pos_bound; lia).
  destruct (Z.eqb_spec r 0) as [-> | Hne].
  - reflexivity.
  - destruct (Z.eqb_spec (r * 2 ^ 38) 0) as [H0 | _]; [lia | ].
    f_equal. change (2 ^ 38) with 274877906944.
    destruct (Z.compare_spec (2 * r) 32767);
      destruct (Z.compare_spec (2 * (r * 274877906944))
                               (32767 * 274877906944));
      try reflexivity; lia.
Qed.


Lemma mul_255_spec (x : float) : F64.mul x f255 = mul_255 x.
Proof.
  destruct x as [s | s | | s m e]; try reflexivity.
  unfold F64.mul, SFmul, f255, mul_255.
  rewrite xorb_false_r, Pos.mul_comm. reflexivity.
Qed.

(** ** The peak level *)

(** The integer arithmetic behind the peak level: the two rounding errors are
    far below the distance of [255 * p / 32767] from the integers around
    it. *)
Lemma peak_arith (p d k1 k2 q r m1 m2 N rho : Z) :
  1 <= d <= 15 -> 0 <= k1 <= 2 -> 52 <= k2 <= 54 ->
  p * 2 ^ (68 - d) = 32767 * q + r -> 0 <= r < 32767 ->
  q - 2 < m1 * 2 ^ k1 <= q + 2 ->
  8972014882652160 * m1 - 2 ^ 53 < m2 * 2 ^ k2
  <= 8972014882652160 * m1 + 2 ^ 53 ->
  255 * p = 32767 * N + rho -> 1 <= rho <= 32766 ->
  N * 2 ^ (113 - d - k1 - k2) <= m2 < (N + 1) * 2 ^ (113 - d - k1 - k2).
Proof.
  intros Hd Hk1 Hk2 Ha Hr Hb1 Hb2 HN Hrho.
  assert (HX : 2 ^ (68 - d) = 2 ^ (113 - d - k1 - k2) * 2 ^ (k1 + k2 - 45))
    by (rewrite <- Z.pow_add_r by lia; f_equal; lia).
  assert (HS : 2 ^ 42 <= 2 ^ (113 - d - k1 - k2))
    by (apply Z.pow_le_mono_r; lia).
  remember (2 ^ (113 - d - k1 - k2)) as S eqn:HSdef. clear HSdef.
  rewrite HX in Ha. clear HX.
  change (2 ^ 42) with 4398046511104 in HS.
  change (2 ^ 53) with 9007199254740992 in Hb2.
  assert (HNS : 255 * (p * S) = 32767 * (N * S) + rho * S)
    by (replace (255 * (p * S)) with (255 * p * S) by ring; rewrite HN; ring).
  assert (HRS : S <= rho * S <= 32766 * S) by nia.
  clear HN Hrho.
  assert (Hc1 : k1 = 0 \/ k1 = 1 \/ k1 = 2) by lia.
  assert (Hc2 : k2 = 52 \/ k2 = 53 \/ k2 = 54) by lia.
  destruct Hc1 as [-> | [-> | ->]]; destruct Hc2 as [-> | [-> | ->]];
    match type of Ha with
    | context [2 ^ ?e] =>
        let v := eval vm_compute in (2 ^ e) in
        change (2 ^ e) with v in Ha
    end;
    match type of Hb1 with
    | context [2 ^ ?e] =>
        let v := eval vm_compute in (2 ^ e) in
        change (2 ^ e) with v in Hb1
    end;
    match type of Hb2 with
    | context [2 ^ ?e] =>
        let v := eval vm_compute in (2 ^ e) in
        change (2 ^ e) with v in Hb2
    end;
    lia.
Qed.

Lemma digits2_pos_int16_range (p : positive) :
  Zpos p <= 32767 -> 1 <= Zpos (digits2_pos p) <= 15.
Proof.
  intros Hp. pose proof (digits2_pos_lower p) as Hd. split; [lia | ].
  destruct (Z_lt_le_dec 15 (Zpos (digits2_pos p))) as [Hgt | ]; [ | assumption].
  assert (H : 2 ^ 15 <= 2 ^ (Zpos (digits2_pos p) - 1))
    by (apply Z.pow_le_mono_r; lia).
  change (2 ^ 15) with 32768 in H. lia.
Qed.

(** 255 * p is no multiple of 32767 for 0 < p < 32767. *)
Lemma peak_remainder (p : Z) :
  0 < p < 32767 -> 1 <= (255 * p) mod 32767 <= 32766.
Proof.
  intros Hp. pose proof (Z.mod_pos_bound (255 * p) 32767 ltac:(lia)) as Hb.
  destruct (Z.eq_dec ((255 * p) mod 32767) 0) as [H0 | ]; [ | lia].
  exfalso. apply Z.mod_divide in H0; [ | lia].
  apply Z.gauss in H0; [ | reflexivity].
  apply Z.divide_pos_le in H0; lia.
Qed.

(** The peak level of a maximum [p] between 1 and 32766, from the error
    bounds of the two roundings. *)
Lemma peak_of_max_pos (p : positive) :
  Zpos p <= 32766 -> peak_of_max (Zpos p) = Ok (Zpos p * 255 / 32767).
Proof.
  intros Hp.
  pose proof (digits2_pos_int16_range p ltac:(lia)) as Hd.
  pose proof (digits2_pos_lower p) as Hlo.
  pose proof (digits2_pos_upper p) as Hhi.
  unfold peak_of_max, py_int.
  change (F64.of_Z 32767) with f32767. change (F64.of_Z 255) with f255.
  rewrite div_32767_spec, mul_255_spec by lia.
  unfold div_32767. rewrite div_eucl_pair.
  set (d := Zpos (digits2_pos p)) in *.
  set (a := Zpos p * 2 ^ (68 - d)).
  assert (Ha : 2 ^ 67 <= a < 2 ^ 68).
  { assert (H67 : 2 ^ 67 = 2 ^ (d - 1) * 2 ^ (68 - d))
      by (rewrite <- Z.pow_add_r by lia; f_equal; lia).
    assert (H68 : 2 ^ 68 = 2 ^ d * 2 ^ (68 - d))
      by (rewrite <- Z.pow_add_r by lia; f_equal; lia).
    assert (Hpos : 0 < 2 ^ (68 - d)) by (apply Z.pow_pos_nonneg; lia).
    rewrite H67, H68. subst a. split.
    - apply Z.mul_le_mono_nonneg_r; lia.
    - apply Z.mul_lt_mono_pos_r; lia. }
  pose proof (Z.div_mod a 32767 ltac:(lia)) as Hdm.
  pose proof (Z.mod_pos_bound a 32767 ltac:(lia)) as Hr.
  set (q := a / 32767) in *. set (r := a mod 32767) in *.
  change (2 ^ 67) with 147573952589676412928 in Ha.
  change (2 ^ 68) with 295147905179352825856 in Ha.
  assert (Hq : 2 ^ (52 + 0) <= q < 2 ^ (54 + 0)).
  { change (2 ^ (52 + 0)) with 4503599627370496.
    change (2 ^ (54 + 0)) with 18014398509481984. lia. }
  destruct (binary_round_aux_range false q (d - 68)
              (if r =? 0 then loc_Exact else loc_Inexact (2 * r ?= 32767))
              0 ltac:(lia) Hq ltac:(lia) ltac:(lia))
    as (m1 & k1 & Heq1 & Hk1 & Hm1 & Hb1).
  rewrite Heq1. cbn [mul_255].
  change (2 ^ 52) with 4503599627370496 in Hm1.
  change (2 ^ 53) with 9007199254740992 in Hm1.
  assert (HM : 2 ^ (52 + 52) <= Zpos (8972014882652160 * m1) < 2 ^ (54 + 52)).
  { rewrite Pos2Z.inj_mul.
    change (2 ^ (52 + 52)) with 20282409603651670423947251286016.
    change (2 ^ (54 + 52)) with 81129638414606681695789005144064. lia. }
  destruct (binary_round_aux_range false (Zpos (8972014882652160 * m1))
              (d - 68 + k1 + -45) loc_Exact 52 ltac:(lia) HM ltac:(lia)
              ltac:(lia))
    as (m2 & k2 & Heq2 & Hk2 & Hm2 & Hb2).
  rewrite Heq2. cbn [F64.trunc cond_Zopp]. f_equal.
  rewrite Z.shiftl_div_pow2 by lia.
  replace (- (d - 68 + k1 + -45 + k2)) with (113 - d - k1 - k2) by lia.
  pose proof (Z.div_mod (255 * Zpos p) 32767 ltac:(lia)) as HN.
  pose proof (peak_remainder (Zpos p) ltac:(lia)) as Hrho.
  rewrite (Z.mul_comm (Zpos p) 255).
  set (N := 255 * Zpos p / 32767) in *.
  set (rho := (255 * Zpos p) mod 32767) in *.
  rewrite Pos2Z.inj_mul in Hb2.
  change (2 ^ (0 + 1)) with 2 in Hb1.
  change (2 ^ (52 + 1)) with (2 ^ 53) in Hb2.
  pose proof (peak_arith (Zpos p) d k1 k2 q r (Zpos m1) (Zpos m2) N rho
                Hd ltac:(lia) ltac:(lia) Hdm Hr Hb1 Hb2 HN Hrho) as Hgoal.
  assert (HSpos : 0 < 2 ^ (113 - d - k1 - k2))
    by (apply Z.pow_pos_nonneg; lia).
  symmetry.
  apply Z.div_unique with (r := Zpos m2 - 2 ^ (113 - d - k1 - k2) * N).
  - left. lia.
  - ring.
Qed.

Lemma peak_of_max_nonneg (m : Z) :
  0 <= m <= 32767 -> peak_of_max m = Ok (m * 255 / 32767).
Proof.
  intros Hm. destruct m as [ | p | p]; try lia.
  - reflexivity.
  - destruct (Z.eq_dec (Zpos p) 32767) as [Heq | Hne].
    + injection Heq as ->. vm_compute. reflexivity.
    + apply peak_of_max_pos. lia.
Qed.

Lemma peak_of_max_min : peak_of_max (-32768) = Ok (-255).
Proof. vm_compute. reflexivity. Qed.

(** ** Decoding and the integer statistics *)

Lemma list_pair_ind {A : Type} (P : list A -> Prop) :
  P [] -> (forall a, P [a]) -> (forall a b l, P l -> P (a :: b :: l)) ->
  forall l, P l.
Proof.
  intros H0 H1 H2.
  assert (H : forall l, P l /\ forall a, P (a :: l)).
  { induction l as [ | b l [IH1 IH2]]; split; auto. }
  intros l. apply H.
Qed.

Lemma wrap_int16_range (z : Z) : int16 (wrap_int16 z).
Proof.
  unfold int16, wrap_int16.
  pose proof (Z.mod_pos_bound (z + 32768) 65536). lia.
Qed.

Lemma wrap_int16_id (z : Z) : int16 z -> wrap_int16 z = z.
Proof.
  unfold int16, wrap_int16. intros Hz.
  rewrite Z.mod_small by lia. lia.
Qed.

Lemma frombuffer_int16_spec :
  forall chunk samples,
    frombuffer_int16 chunk = Ok samples ->
    Forall int16 samples /\ length chunk = (2 * length samples)%nat.
Proof.
  induction chunk as [ | a | lo hi rest IH] using list_pair_ind;
    intros samples H; cbn [frombuffer_int16] in H.
  - injection H as <-. split; [constructor | reflexivity].
  - discriminate.
  - destruct (frombuffer_int16 rest) as [l | e]; [ | discriminate].
    injection H as <-. destruct (IH l eq_refl) as [Hl Hlen]. split.
    + constructor; [apply wrap_int16_range | assumption].
    + cbn [length]. lia.
Qed.

Lemma frombuffer_int16_zeros (n : nat) :
  frombuffer_int16 (repeat x00 (2 * n)) = Ok (repeat 0 n).
Proof.
  induction n as [ | n IH]; [reflexivity | ].
  replace (2 * S n)%nat with (S (S (2 * n))) by lia.
  cbn [repeat frombuffer_int16]. rewrite IH. reflexivity.
Qed.

Lemma np_abs_int16_plain (samples : list Z) :
  Forall (fun s => -32767 <= s <= 32767) samples ->
  np_abs_int16 samples = map Z.abs samples.
Proof.
  unfold np_abs_int16. induction 1 as [ | s l Hs Hl IH]; [reflexivity | ].
  cbn [map]. rewrite IH. f_equal. apply wrap_int16_id. unfold int16. lia.
Qed.

Lemma fold_max_range (lo hi : Z) (l : list Z) :
  forall x, lo <= x <= hi -> Forall (fun z => lo <= z <= hi) l ->
            lo <= fold_left Z.max l x <= hi.
Proof.
  induction l as [ | y l IH]; intros x Hx Hl; [assumption | ].
  inversion Hl; subst. cbn [fold_left]. apply IH; [lia | assumption].
Qed.

Lemma fold_max_nonneg (l : list Z) :
  forall x, 0 <= x -> fold_left Z.max l x = fold_left Z.max (x :: l) 0.
Proof.
  intros x Hx. cbn [fold_left]. rewrite Z.max_r by lia. reflexivity.
Qed.

(** The maximum of the wrapped absolute values is [-32768] or a plain
    non-negative int16. *)
Lemma wrap_abs_cases (x : Z) :
  int16 x ->
  wrap_int16 (Z.abs x) = -32768 \/ 0 <= wrap_int16 (Z.abs x) <= 32767.
Proof.
  unfold int16. intros Hx.
  destruct (Z.eq_dec x (-32768)) as [-> | Hne]; [left; reflexivity | right].
  rewrite wrap_int16_id by (unfold int16; lia). lia.
Qed.

Lemma np_max_abs_range (samples : list Z) (m : Z) :
  Forall int16 samples ->
  np_max_int (np_abs_int16 samples) = Ok m ->
  m = -32768 \/ 0 <= m <= 32767.
Proof.
  intros Hall. destruct Hall as [ | s l Hs Hl]; [discriminate | ].
  cbn [np_abs_int16 map np_max_int]. intros H. injection H as <-.
  apply wrap_abs_cases in Hs. revert Hs.
  generalize (wrap_int16 (Z.abs s)) as x.
  induction Hl as [ | y t Hy Ht IH]; intros x Hx; cbn [map fold_left];
    [assumption | ].
  apply IH. apply wrap_abs_cases in Hy. lia.
Qed.

Lemma peak_of_max_spec (m : Z) :
  m = -32768 \/ 0 <= m <= 32767 ->
  peak_of_max m = Ok (Z.quot (m * 255) 32767).
Proof.
  intros [-> | Hm]; [exact peak_of_max_min | ].
  rewrite peak_of_max_nonneg by assumption. f_equal.
  symmetry. apply Z.quot_div_nonneg; lia.
Qed.

(** ** The analyzer *)

Section AnalyzerFacts.

Variable rfft_abs : list Z -> list float.

Lemma calculate_fft_ok chunk sr samples x sp :
  frombuffer_int16 chunk = Ok samples ->
  samples <> [] ->
  rfft_abs samples = x :: sp ->
  calculate_fft rfft_abs chunk sr = Some (analysis_of sr samples x sp).
Proof.
  intros Hdec Hne Hsp.
  destruct (frombuffer_int16_spec _ _ Hdec) as [Hrange _].
  unfold calculate_fft, calculate_fft_body. rewrite Hdec. cbn [bind].
  destruct (np_max_int (np_abs_int16 samples)) as [m | e] eqn:Hm.
  2:{ destruct samples; [congruence | discriminate]. }
  cbn [bind].
  change (py_int (PyFloat (F64.mul (F64.div (F64.of_Z m) (F64.of_Z 32767))
                                   (F64.of_Z 255))))
    with (peak_of_max m).
  rewrite (peak_of_max_spec m (np_max_abs_range _ _ Hrange Hm)).
  rewrite Hsp. cbn [bind np_max np_argmax catch_all].
  unfold analysis_of, spectrum_top. do 2 f_equal.
  destruct (np_abs_int16 samples) as [ | a t]; [discriminate | ].
  cbn [np_max_int] in Hm. injection Hm as <-. reflexivity.
Qed.

Lemma calculate_fft_inv chunk sr r :
  calculate_fft rfft_abs chunk sr = Some r ->
  exists samples x sp,
    frombuffer_int16 chunk = Ok samples /\ samples <> []
    /\ rfft_abs samples = x :: sp /\ r = analysis_of sr samples x sp.
Proof.
  intros H.
  destruct (frombuffer_int16 chunk) as [samples | e] eqn:Hdec.
  2:{ unfold calculate_fft, calculate_fft_body in H. rewrite Hdec in H.
      discriminate. }
  destruct samples as [ | s l].
  { unfold calculate_fft, calculate_fft_body in H. rewrite Hdec in H.
    discriminate. }
  destruct (rfft_abs (s :: l)) as [ | x sp] eqn:Hsp.
  { unfold calculate_fft, calculate_fft_body in H. rewrite Hdec in H.
    cbn [bind] in H.
    destruct (np_max_int _); [ | discriminate]. cbn [bind] in H.
    destruct (py_int _); [ | discriminate]. cbn [bind] in H.
    rewrite Hsp in H. discriminate. }
  exists (s :: l), x, sp.
  rewrite (calculate_fft_ok chunk sr (s :: l) x sp Hdec) in H
    by (assumption || discriminate).
  injection H as <-. repeat split; (assumption || discriminate || reflexivity).
Qed.

(** The analysis fails exactly on a block of odd length, on an empty block
    and on an empty spectrum. *)
Lemma calculate_fft_none_odd chunk sr :
  Nat.odd (length chunk) = true -> calculate_fft rfft_abs chunk sr = None.
Proof.
  intros Hodd.
  destruct (calculate_fft rfft_abs chunk sr) as [r | ] eqn:H; [ | reflexivity].
  apply calculate_fft_inv in H.
  destruct H as (samples & x & sp & Hdec & _).
  apply frombuffer_int16_spec in Hdec. destruct Hdec as [_ Hlen].
  rewrite Hlen in Hodd. rewrite Nat.odd_mul in Hodd. discriminate.
Qed.

End AnalyzerFacts.

(** ** Silence *)

Lemma Forall_eq_repeat {A : Type} (a : A) (l : list A) :
  Forall (fun x => x = a) l -> l = repeat a (length l).
Proof.
  induction 1 as [ | x l Hx Hl IH]; [reflexivity | ].
  cbn [length repeat]. congruence.
Qed.

Lemma firstn_repeat {A : Type} (a : A) (k n : nat) :
  firstn k (repeat a n) = repeat a (Nat.min k n).
Proof.
  revert n. induction k as [ | k IH]; intros [ | n]; cbn; try reflexivity.
  f_equal. apply IH.
Qed.

Lemma fold_fmax_zeros (k : nat) :
  fold_left fmax (repeat F64.zero k) F64.zero = F64.zero.
Proof. induction k as [ | k IH]; [reflexivity | exact IH]. Qed.

Lemma fold_add_zeros (k : nat) :
  fold_left F64.add (repeat F64.zero k) F64.zero = F64.zero.
Proof. induction k as [ | k IH]; [reflexivity | exact IH]. Qed.

Lemma fold_add_Z_zeros (k : nat) : fold_left Z.add (repeat 0 k) 0 = 0.
Proof. induction k as [ | k IH]; [reflexivity | exact IH]. Qed.

Lemma fold_max_Z_zeros (k : nat) : fold_left Z.max (repeat 0 k) 0 = 0.
Proof. induction k as [ | k IH]; [reflexivity | exact IH]. Qed.

Lemma np_abs_int16_zeros (n : nat) : np_abs_int16 (repeat 0 n) = repeat 0 n.
Proof. unfold np_abs_int16. rewrite map_repeat. reflexivity. Qed.

(** ** Pairwise summation *)

Lemma add_neg_zero_l (x : float) : F64.add neg_zero x = x.
Proof. destruct x as [[ | ] | s | | s m e]; reflexivity. Qed.

Section Closed.

Variable P : float -> Prop.
Hypothesis P_zero : P F64.zero.
Hypothesis P_add : forall a b, P a -> P b -> P (F64.add a b).

Lemma fold_add_closed (l : list float) :
  forall acc, P acc -> Forall P l -> P (fold_left F64.add l acc).
Proof.
  induction l as [ | x l IH]; intros acc Hacc Hl; cbn [fold_left].
  - exact Hacc.
  - inversion Hl; subst. apply IH; [apply P_add; assumption | assumption].
Qed.

Lemma Forall_firstn_skipn (k : nat) (l : list float) :
  Forall P l -> Forall P (firstn k l) /\ Forall P (skipn k l).
Proof.
  intros H. rewrite <- (firstn_skipn k l) in H.
  apply Forall_app in H. exact H.
Qed.

Lemma add_lanes_closed (r : list float) :
  forall xs, Forall P r -> Forall P xs -> Forall P (add_lanes r xs).
Proof.
  induction r as [ | a r IH]; intros xs Hr Hxs; cbn [add_lanes];
    [constructor | ].
  destruct xs as [ | x xs]; [constructor | ].
  inversion Hr; inversion Hxs; subst.
  constructor; [apply P_add; assumption | apply IH; assumption].
Qed.

Lemma sum_groups_closed (g : nat) :
  forall r l,
    Forall P r -> Forall P l ->
    Forall P (fst (sum_groups g r l)) /\ Forall P (snd (sum_groups g r l)).
Proof.
  induction g as [ | g IH]; intros r l Hr Hl; cbn [sum_groups].
  - split; assumption.
  - destruct (Forall_firstn_skipn 8 l Hl) as [H1 H2].
    apply IH; [apply add_lanes_closed; assumption | assumption].
Qed.

Lemma sum_lanes_closed (r : list float) : Forall P r -> P (sum_lanes r).
Proof.
  intros H. unfold sum_lanes.
  do 8 (destruct r as [ | ? r]; [exact P_zero | ]).
  destruct r; [ | exact P_zero].
  repeat match goal with
         | H : Forall P (_ :: _) |- _ => inversion H; clear H; subst
         end.
  repeat apply P_add; assumption.
Qed.

Lemma block_sum_closed (l : list float) : Forall P l -> P (block_sum l).
Proof.
  intros H. unfold block_sum.
  destruct (Forall_firstn_skipn 8 l H) as [H1 H2].
  pose proof (sum_groups_closed (length l / 8 - 1) _ _ H1 H2) as [Hr Hrest].
  destruct (sum_groups _ _ _) as [r rest]. cbn [fst snd] in *.
  apply fold_add_closed; [apply sum_lanes_closed; exact Hr | exact Hrest].
Qed.

Lemma pairwise_sum_closed (fuel : nat) :
  forall l, l <> [] -> Forall P l -> P (pairwise_sum fuel l).
Proof.
  induction fuel as [ | f IH]; intros l Hne Hl; cbn [pairwise_sum].
  - destruct (Nat.ltb_spec (length l) 8);
      [ | apply block_sum_closed; exact Hl].
    destruct l as [ | x l]; [congruence | ].
    cbn [fold_left]. rewrite add_neg_zero_l. inversion Hl; subst.
    apply fold_add_closed; assumption.
  - destruct (Nat.ltb_spec (length l) 8).
    + destruct l as [ | x l]; [congruence | ].
      cbn [fold_left]. rewrite add_neg_zero_l. inversion Hl; subst.
      apply fold_add_closed; assumption.
    + destruct (Nat.ltb_spec 128 (length l)) as [Hbig | _];
        [ | apply block_sum_closed; exact Hl].
      set (n2 := (length l / 2 - (length l / 2) mod 8)%nat).
      assert (Hn2 : (1 <= n2 < length l)%nat).
      { subst n2.
        pose proof (Nat.mod_upper_bound (length l / 2) 8 ltac:(lia)).
        pose proof (Nat.Div0.div_le_upper_bound (length l) 2 (length l)
                      ltac:(lia)).
        assert (64 <= length l / 2)%nat
          by (apply Nat.div_le_lower_bound; lia).
        assert (length l / 2 < length l)%nat
          by (apply Nat.div_lt; lia).
        lia. }
      destruct (Forall_firstn_skipn n2 l Hl) as [H1 H2].
      apply P_add; apply IH; try assumption.
      * intros He. apply (f_equal (@length _)) in He.
        rewrite length_firstn in He. cbn [length] in He. lia.
      * intros He. apply (f_equal (@length _)) in He.
        rewrite length_skipn in He. cbn [length] in He. lia.
Qed.

Lemma np_sum_closed (l : list float) : Forall P l -> P (np_sum l).
Proof.
  intros H. unfold np_sum. destruct l as [ | x l]; [exact P_zero | ].
  rewrite add_neg_zero_l. apply pairwise_sum_closed; [discriminate | exact H].
Qed.

End Closed.

Lemma np_sum_zeros (k : nat) : np_sum (repeat F64.zero k) = F64.zero.
Proof.
  apply (np_sum_closed (fun x => x = F64.zero)).
  - reflexivity.
  - intros a b -> ->. reflexivity.
  - apply Forall_forall. intros x Hx. apply repeat_spec in Hx. exact Hx.
Qed.

(** With a fuel of the length of the array the splitting never runs out: one
    more unit changes nothing. *)
Lemma pairwise_sum_fuel (fuel : nat) :
  forall l,
    (length l <= fuel)%nat ->
    pairwise_sum (S fuel) l = pairwise_sum fuel l.
Proof.
  induction fuel as [ | f IH]; intros l Hl.
  - destruct l; [reflexivity | cbn [length] in Hl; lia].
  - change (pairwise_sum (S (S f)) l)
      with (if (length l <? 8)%nat then fold_left F64.add l neg_zero
            else if (128 <? length l)%nat then
              F64.add
                (pairwise_sum (S f)
                   (firstn (length l / 2 - (length l / 2) mod 8) l))
                (pairwise_sum (S f)
                   (skipn (length l / 2 - (length l / 2) mod 8) l))
            else block_sum l).
    change (pairwise_sum (S f) l)
      with (if (length l <? 8)%nat then fold_left F64.add l neg_zero
            else if (128 <? length l)%nat then
              F64.add
                (pairwise_sum f
                   (firstn (length l / 2 - (length l / 2) mod 8) l))
                (pairwise_sum f
                   (skipn (length l / 2 - (length l / 2) mod 8) l))
            else block_sum l).
    destruct (Nat.ltb_spec (length l) 8); [reflexivity | ].
    destruct (Nat.ltb_spec 128 (length l)) as [Hbig | _]; [ | reflexivity].
    set (n2 := (length l / 2 - (length l / 2) mod 8)%nat).
    assert (Hn2 : (1 <= n2 < length l)%nat).
    { subst n2.
      pose proof (Nat.mod_upper_bound (length l / 2) 8 ltac:(lia)).
      assert (64 <= length l / 2)%nat
        by (apply Nat.div_le_lower_bound; lia).
      assert (length l / 2 < length l)%nat by (apply Nat.div_lt; lia).
      lia. }
    rewrite !IH; [reflexivity | | ].
    + rewrite length_skipn. lia.
    + rewrite length_firstn. lia.
Qed.

(** C2: on a block of silence whose spectrum is all zero the analysis
    succeeds with raw level 0, peak level 0 and magnitude sum 0, and nothing
    is divided by zero; but every band value is 255 where the specification
    has 0. With a maximum of 0 the interpolation table from (0, 0) to
    (0, 255) is degenerate and [np.interp] answers its right-hand value: the
    case of an all-zero spectrum is missed by the normalization. *)
Theorem silence_analysis (rfft_abs : list Z -> list float) (n : nat) (sr : Z) :
  (0 < n)%nat ->
  rfft_abs (repeat 0 n) <> [] ->
  Forall (fun x => x = F64.zero) (rfft_abs (repeat 0 n)) ->
  exists r,
    calculate_fft rfft_abs (repeat x00 (2 * n)) sr = Some r
    /\ raw_level r = F64.zero
    /\ peak_level r = 0
    /\ fft_magnitude_sum r = F64.zero
    /\ fft_values r
       = repeat 255 (Nat.min 16 (length (rfft_abs (repeat 0 n)))).
Proof.
  intros Hn Hne Hzero.
  apply Forall_eq_repeat in Hzero.
  destruct (rfft_abs (repeat 0 n)) as [ | x sp] eqn:Hsp; [congruence | ].
  cbn [length repeat] in Hzero. injection Hzero as -> Hrest.
  pose proof (frombuffer_int16_zeros n) as Hdec.
  assert (Hsamples : repeat 0 n <> []) by (destruct n; [lia | discriminate]).
  exists (analysis_of sr (repeat 0 n) F64.zero sp).
  split; [apply calculate_fft_ok; assumption | ].
  unfold analysis_of; cbn [raw_level peak_level fft_magnitude_sum fft_values].
  rewrite np_abs_int16_zeros.
  repeat split.
  - unfold np_mean, Zsum. rewrite fold_add_Z_zeros, repeat_length.
    apply div_zero_of_Z. lia.
  - destruct n as [ | n]; [lia | ]. cbn [repeat]. rewrite fold_max_Z_zeros.
    reflexivity.
  - rewrite Hrest. apply (np_sum_zeros (S (length sp))).
  - unfold spectrum_top. rewrite Hrest at 1 2. rewrite fold_fmax_zeros.
    change (F64.zero :: repeat F64.zero (length sp))
      with (repeat F64.zero (S (length sp))).
    unfold np_interp. rewrite map_repeat, firstn_repeat, map_repeat.
    reflexivity.
Qed.

(** As soon as the spectrum has a positive maximum, a bin of magnitude 0 is
    normalized to 0. *)
Lemma interp1_zero_bin (top : float) :
  nonzero_of_sign false top ->
  interp1 F64.zero top F64.zero (F64.of_Z 255) F64.zero = F64.zero.
Proof. intros H. destruct H; reflexivity. Qed.

(** The reference spectrum of thirty samples of silence. *)
Lemma dft_abs_silence : RefDFT.dft_abs (repeat 0 30) = repeat F64.zero 16.
Proof. vm_compute. reflexivity. Qed.

Lemma silence_analysis_witness :
  exists r,
    calculate_fft RefDFT.dft_abs (repeat x00 (2 * 30)) 8000 = Some r
    /\ raw_level r = F64.zero
    /\ peak_level r = 0
    /\ fft_magnitude_sum r = F64.zero
    /\ fft_values r
       = repeat 255 (Nat.min 16 (length (RefDFT.dft_abs (repeat 0 30)))).
Proof.
  apply (silence_analysis RefDFT.dft_abs 30 8000).
  - lia.
  - rewrite dft_abs_silence. discriminate.
  - rewrite dft_abs_silence. repeat constructor.
Defined.

(** The analysis of sixty bytes of silence with the reference spectrum. *)
Lemma calculate_fft_silence :
  calculate_fft RefDFT.dft_abs (repeat x00 60) 8000
  = Some {| fft_values := repeat 255 16;
            raw_level := F64.zero;
            peak_level := 0;
            fft_magnitude_sum := F64.zero;
            fft_peak_frequency := F64.zero |}.
Proof.
  rewrite (calculate_fft_ok RefDFT.dft_abs (repeat x00 60) 8000 (repeat 0 30)
             F64.zero (repeat F64.zero 15)).
  - reflexivity.
  - reflexivity.
  - discriminate.
  - exact dft_abs_silence.
Qed.

(** On sixty bytes of silence the sixteen band values are 255. *)
Lemma silence_bands_255 :
  exists r,
    calculate_fft RefDFT.dft_abs (repeat x00 60) 8000 = Some r
    /\ fft_values r = repeat 255 16
    /\ fft_values r <> repeat 0 16.
Proof.
  eexists. split; [exact calculate_fft_silence | ].
  split; [reflexivity | discriminate].
Qed.
(** ** Peak level *)

Lemma max_abs_range (samples : list Z) :
  Forall int16 samples -> Forall (fun s => s <> -32768) samples ->
  0 <= max_abs samples <= 32767.
Proof.
  intros Hr Hne. unfold max_abs. apply fold_max_range; [lia | ].
  apply Forall_forall. intros z Hz. apply in_map_iff in Hz.
  destruct Hz as [s [<- Hs]].
  rewrite Forall_forall in Hr, Hne. specialize (Hr s Hs). specialize (Hne s Hs).
  unfold int16 in Hr. lia.
Qed.

(** C6 (amended): on a valid block holding no sample -32768 the analysis
    succeeds and the peak level is [max(abs(samples)) * 255 / 32767] with the
    fraction dropped ([int] truncates, it does not round); it lies in
    [0, 255]. *)
Theorem peak_level_truncated
  (rfft_abs : list Z -> list float) (chunk : list byte) (sr : Z)
  (samples : list Z) :
  frombuffer_int16 chunk = Ok samples ->
  samples <> [] ->
  rfft_abs samples <> [] ->
  Forall (fun s => s <> -32768) samples ->
  exists r,
    calculate_fft rfft_abs chunk sr = Some r
    /\ peak_level r = max_abs samples * 255 / 32767
    /\ 0 <= peak_level r <= 255.
Proof.
  intros Hdec Hne Hsp Hmin.
  destruct (frombuffer_int16_spec _ _ Hdec) as [Hrange _].
  destruct (rfft_abs samples) as [ | x sp] eqn:Hspec; [congruence | ].
  exists (analysis_of sr samples x sp).
  split; [apply calculate_fft_ok; assumption | ].
  pose proof (max_abs_range samples Hrange Hmin) as Hmax.
  assert (Hpeak : peak_level (analysis_of sr samples x sp)
                  = max_abs samples * 255 / 32767).
  { cbn [analysis_of peak_level].
    rewrite np_abs_int16_plain.
    2:{ rewrite Forall_forall in *. intros s Hs.
        specialize (Hrange s Hs). specialize (Hmin s Hs).
        unfold int16 in Hrange. lia. }
    destruct samples as [ | s l]; [congruence | ].
    cbn [map]. rewrite fold_max_nonneg by lia.
    change (fold_left Z.max (Z.abs s :: map Z.abs l) 0) with (max_abs (s :: l)).
    apply Z.quot_div_nonneg; lia. }
  split; [exact Hpeak | ]. rewrite Hpeak. split.
  - apply Z.div_pos; lia.
  - apply Z.div_le_upper_bound; lia.
Qed.

Lemma peak_level_truncated_witness :
  exists r,
    calculate_fft RefDFT.dft_abs [x64; x00; x00; x00] 44100 = Some r
    /\ peak_level r = max_abs [100; 0] * 255 / 32767
    /\ 0 <= peak_level r <= 255.
Proof.
  apply (peak_level_truncated RefDFT.dft_abs [x64; x00; x00; x00] 44100
           [100; 0]).
  - reflexivity.
  - discriminate.
  - vm_compute. discriminate.
  - repeat constructor; discriminate.
Defined.

(** The sample 100 gives the peak level 0 where rounding gives 1, and a block
    of samples -32768 gives -255. *)
Lemma peak_level_counterexample :
  (exists r,
     calculate_fft RefDFT.dft_abs [x64; x00; x00; x00] 44100 = Some r
     /\ frombuffer_int16 [x64; x00; x00; x00] = Ok [100; 0]
     /\ peak_level r = 0
     /\ spec_peak_level [100; 0] = 1)
  /\ (exists r,
        calculate_fft RefDFT.dft_abs [x00; x80; x00; x80] 44100 = Some r
        /\ frombuffer_int16 [x00; x80; x00; x80] = Ok [-32768; -32768]
        /\ peak_level r = -255).
Proof.
  split; eexists; (split; [vm_compute; reflexivity | ]);
    repeat split; reflexivity.
Qed.

(** ** Band values *)

(** The byte of an integer of [0, 255] has this integer as its value. *)
Lemma byte_of_Z_value (v : Z) :
  in_byte_range v -> Z.of_N (Byte.to_N (byte_of_Z v)) = v.
Proof.
  unfold in_byte_range, byte_of_Z. intros Hv. rewrite Z.mod_small by lia.
  destruct (Byte.of_N (Z.to_N v)) as [b | ] eqn:Hb.
  - apply Byte.to_of_N in Hb. rewrite Hb. lia.
  - apply Byte.of_N_None_iff in Hb. lia.
Qed.

Lemma uint8_of_float_range (x : float) : 0 <= uint8_of_float x <= 255.
Proof.
  unfold uint8_of_float. destruct (F64.trunc x) as [z | ]; [ | lia].
  pose proof (Z.mod_pos_bound z 256). lia.
Qed.

Lemma pack_B_in_range (v : Z) :
  0 <= v <= 255 -> pack_B v = Ok [byte_of_Z v].
Proof.
  intros Hv. unfold pack_B.
  replace (0 <=? v) with true by (symmetry; apply Z.leb_le; lia).
  replace (v <=? 255) with true by (symmetry; apply Z.leb_le; lia).
  reflexivity.
Qed.

Lemma pack_items_B (vs : list Z) :
  Forall (fun v => 0 <= v <= 255) vs ->
  pack_items (repeat FB (length vs)) (map AInt vs) = Ok (map byte_of_Z vs).
Proof.
  induction 1 as [ | v vs Hv Hvs IH]; [reflexivity | ].
  cbn [length repeat map pack_items pack_item].
  rewrite pack_B_in_range by assumption. cbn [bind]. rewrite IH. reflexivity.
Qed.

Lemma map_result_py_int (vs : list Z) :
  map_result py_int (map PyInt vs) = Ok vs.
Proof.
  induction vs as [ | v vs IH]; [reflexivity | ].
  cbn [map map_result py_int bind]. rewrite IH. reflexivity.
Qed.

(** C9: every band value of a successful analysis lies in [0, 255], so each
    is accepted by the one-byte format, and sixteen of them are packed into
    sixteen bytes. There are sixteen of them as soon as the spectrum has
    sixteen bins. *)
Theorem bands_in_range
  (rfft_abs : list Z -> list float) (chunk : list byte) (sr : Z)
  (r : analysis) :
  calculate_fft rfft_abs chunk sr = Some r ->
  Forall (fun v => 0 <= v <= 255) (fft_values r)
  /\ Forall (fun v => pack_B v = Ok [byte_of_Z v]) (fft_values r)
  /\ (length (fft_values r) = 16%nat ->
      struct_pack (repeat FB 16) (map AInt (fft_values r))
      = Ok (map byte_of_Z (fft_values r)))
  /\ (exists samples,
        frombuffer_int16 chunk = Ok samples
        /\ length (fft_values r)
           = Nat.min 16 (length (rfft_abs samples))).
Proof.
  intros H. apply calculate_fft_inv in H.
  destruct H as (samples & x & sp & Hdec & _ & Hsp & ->).
  cbn [analysis_of fft_values].
  set (bands := map uint8_of_float _).
  assert (Hr : Forall (fun v => 0 <= v <= 255) bands).
  { apply Forall_forall. intros v Hv. apply in_map_iff in Hv.
    destruct Hv as [y [<- _]]. apply uint8_of_float_range. }
  split; [exact Hr | split; [ | split]].
  - apply Forall_forall. intros v Hv. apply pack_B_in_range.
    rewrite Forall_forall in Hr. exact (Hr v Hv).
  - intros Hlen. unfold struct_pack.
    rewrite repeat_length, length_map, Hlen. cbn [Nat.eqb].
    rewrite <- Hlen. apply pack_items_B. exact Hr.
  - exists samples. split; [exact Hdec | ].
    subst bands. unfold np_interp.
    rewrite length_map, length_firstn, length_map, Hsp. reflexivity.
Qed.

Lemma bands_in_range_witness :
  Forall (fun v => 0 <= v <= 255) (repeat 255 16)
  /\ Forall (fun v => pack_B v = Ok [byte_of_Z v]) (repeat 255 16)
  /\ (length (repeat 255 16) = 16%nat ->
      struct_pack (repeat FB 16) (map AInt (repeat 255 16))
      = Ok (map byte_of_Z (repeat 255 16)))
  /\ (exists samples,
        frombuffer_int16 (repeat x00 60) = Ok samples
        /\ length (repeat 255 16)
           = Nat.min 16 (length (RefDFT.dft_abs samples))).
Proof.
  exact (bands_in_range RefDFT.dft_abs (repeat x00 60) 8000 _
                        calculate_fft_silence).
Defined.

(** ** Peak frequency *)

Lemma argmax_from_bound (l : list float) :
  forall i best besti,
    0 <= besti < i ->
    0 <= argmax_from l i best besti < i + Z.of_nat (length l).
Proof.
  induction l as [ | x l IH]; intros i best besti Hb; cbn [argmax_from length].
  - lia.
  - destruct (F64.is_nan best); [lia | ].
    destruct (F64.leb x best).
    + specialize (IH (i + 1) best besti). lia.
    + specialize (IH (i + 1) x i). lia.
Qed.

Lemma length_upto (k : nat) : length (RefDFT.upto k) = k.
Proof.
  induction k as [ | k IH]; [reflexivity | ].
  cbn [RefDFT.upto]. rewrite length_app, IH. cbn [length]. lia.
Qed.

(** The reference spectrum has [N / 2 + 1] bins. *)
Lemma length_dft_abs (xs : list Z) :
  length (RefDFT.dft_abs xs) = (length xs / 2 + 1)%nat.
Proof.
  unfold RefDFT.dft_abs. rewrite length_map, length_upto.
  rewrite Z2Nat.inj_div, Nat2Z.id by lia. reflexivity.
Qed.

(** *** The order of binary64 values *)

(** Among values that are no NaN, one that is not [<=] another is above
    it. *)
Lemma leb_false_ltb (x y : float) :
  F64.is_nan x = false -> F64.is_nan y = false ->
  F64.leb x y = false -> F64.ltb y x = true.
Proof.
  unfold F64.leb, F64.ltb, SFleb, SFltb, SFcompare.
  fold (Pos.compare_cont Eq). 
  destruct x as [sx | sx | | sx mx ex]; destruct y as [sy | sy | | sy my ey];
    try discriminate; intros _ _;
    repeat match goal with s : bool |- _ => destruct s end;
    try discriminate; try reflexivity;
    change (PosDef.Pos.compare_cont Eq) with Pos.compare;
    compare_cases; cbn; try discriminate; try reflexivity; lia.
Qed.

Lemma ltb_leb (x y : float) : F64.ltb x y = true -> F64.leb x y = true.
Proof.
  unfold F64.leb, F64.ltb, SFleb, SFltb.
  destruct (SFcompare x y) as [[ | | ] | ]; (discriminate || reflexivity).
Qed.

(** [a <= b < c] gives [a < c]. *)
Lemma leb_ltb_trans (a b c : float) :
  F64.leb a b = true -> F64.ltb b c = true -> F64.ltb a c = true.
Proof.
  unfold F64.leb, F64.ltb, SFleb, SFltb, SFcompare.
  destruct a as [sa | sa | | sa ma ea]; destruct b as [sb | sb | | sb mb eb];
    destruct c as [sc | sc | | sc mc ec];
    try discriminate;
    repeat match goal with s : bool |- _ => destruct s end;
    try discriminate; try reflexivity;
    change (PosDef.Pos.compare_cont Eq) with Pos.compare;
    compare_cases; cbn; try discriminate; try reflexivity; lia.
Qed.

Lemma leb_refl (x : float) : F64.is_nan x = false -> F64.leb x x = true.
Proof.
  unfold F64.leb, SFleb, SFcompare.
  destruct x as [s | [ | ] | | [ | ] m e]; try discriminate; intros _;
    try reflexivity;
    rewrite Z.compare_refl; change (PosDef.Pos.compare_cont Eq) with Pos.compare;
    rewrite Pos.compare_refl; reflexivity.
Qed.

Lemma argmax_from_first_max (full : list float) :
  Forall (fun x => F64.is_nan x = false) full ->
  forall t pre best besti,
    full = (pre ++ t)%list ->
    (besti < length pre)%nat ->
    nth besti full F64.zero = best ->
    (forall j, (j < length pre)%nat ->
               F64.leb (nth j full F64.zero) best = true) ->
    (forall j, (j < besti)%nat ->
               F64.ltb (nth j full F64.zero) best = true) ->
    first_max full
      (argmax_from t (Z.of_nat (length pre)) best (Z.of_nat besti)).
Proof.
  intros Hnan.
  assert (Hnth : forall j, (j < length full)%nat ->
                           F64.is_nan (nth j full F64.zero) = false).
  { intros j Hj. rewrite Forall_forall in Hnan. apply Hnan, nth_In, Hj. }
  induction t as [ | x t IH]; intros pre best besti Hfull Hb Hbest Hle Hlt;
    cbn [argmax_from].
  - rewrite app_nil_r in Hfull. subst pre. unfold first_max.
    rewrite Nat2Z.id, Hbest. repeat split; try lia; assumption.
  - assert (Hlen : (length pre < length full)%nat)
      by (rewrite Hfull, length_app; cbn [length]; lia).
    assert (Hx : nth (length pre) full F64.zero = x)
      by (rewrite Hfull, nth_middle; reflexivity).
    assert (Hbn : F64.is_nan best = false)
      by (rewrite <- Hbest; apply Hnth; lia).
    assert (Hxn : F64.is_nan x = false) by (rewrite <- Hx; apply Hnth, Hlen).
    assert (Hfull' : full = ((pre ++ [x]) ++ t)%list)
      by (rewrite <- app_assoc; exact Hfull).
    assert (Hlen' : Z.of_nat (length pre) + 1
                    = Z.of_nat (length (pre ++ [x])))
      by (rewrite length_app; cbn [length]; lia).
    rewrite Hbn, Hlen'.
    destruct (F64.leb x best) eqn:Hcmp.
    + apply IH; try assumption.
      * rewrite length_app. cbn [length]. lia.
      * intros j Hj. rewrite length_app in Hj. cbn [length] in Hj.
        destruct (Nat.eq_dec j (length pre)) as [-> | Hne].
        -- rewrite Hx. exact Hcmp.
        -- apply Hle. lia.
    + pose proof (leb_false_ltb x best Hxn Hbn Hcmp) as Hup.
      apply IH; try assumption.
      * rewrite length_app. cbn [length]. lia.
      * intros j Hj. rewrite length_app in Hj. cbn [length] in Hj.
        destruct (Nat.eq_dec j (length pre)) as [-> | Hne].
        -- rewrite Hx. apply leb_refl, Hxn.
        -- apply ltb_leb. apply (leb_ltb_trans _ best); [apply Hle; lia | ].
           exact Hup.
      * intros j Hj. apply (leb_ltb_trans _ best); [apply Hle; lia | ].
        exact Hup.
Qed.

(** [np.argmax] of an array holding no NaN answers the first index of its
    maximum. *)
Lemma np_argmax_first_max (l : list float) (idx : Z) :
  Forall (fun x => F64.is_nan x = false) l ->
  np_argmax l = Ok idx -> first_max l idx.
Proof.
  intros Hnan H. destruct l as [ | x t]; [discriminate | ].
  cbn [np_argmax] in H. injection H as <-.
  inversion Hnan as [ | ? ? Hx Ht]; subst.
  apply (argmax_from_first_max (x :: t) Hnan t [x] x 0%nat).
  - reflexivity.
  - cbn [length]. lia.
  - reflexivity.
  - intros j Hj. cbn [length] in Hj. replace j with 0%nat by lia.
    apply leb_refl, Hx.
  - intros j Hj. lia.
Qed.

(** The reference spectrum of the alternating block holds no NaN. *)
Lemma dft_abs_alternating_no_nan :
  Forall (fun x => F64.is_nan x = false)
         (RefDFT.dft_abs (Sample.alternating_samples 15)).
Proof.
  apply Forall_forall. intros x Hx.
  assert (H : forallb (fun x => negb (F64.is_nan x))
                (RefDFT.dft_abs (Sample.alternating_samples 15)) = true)
    by (vm_compute; reflexivity).
  rewrite forallb_forall in H. apply negb_true_iff, H, Hx.
Qed.

(** C10 (amended): on a valid block of [N >= 1] samples whose spectrum has
    [N / 2 + 1] bins, none of them a NaN, and for a sample rate and a number
    of samples below [2 ^ 53] in magnitude, the analysis succeeds; the index
    that [np.argmax] answers is the first index of the maximum of the
    spectrum, it is at most [N / 2], and the peak frequency is the binary64
    product [index * (sample_rate / N)]; in exact arithmetic
    [index * sample_rate / N <= sample_rate / 2]. *)
Theorem peak_frequency_index
  (rfft_abs : list Z -> list float) (chunk : list byte) (sr : Z)
  (samples : list Z) :
  frombuffer_int16 chunk = Ok samples ->
  samples <> [] ->
  length (rfft_abs samples) = (length samples / 2 + 1)%nat ->
  Forall (fun x => F64.is_nan x = false) (rfft_abs samples) ->
  Z.abs sr < 2 ^ 53 ->
  Z.of_nat (length samples) < 2 ^ 53 ->
  exists r idx,
    calculate_fft rfft_abs chunk sr = Some r
    /\ np_argmax (rfft_abs samples) = Ok idx
    /\ first_max (rfft_abs samples) idx
    /\ 0 <= idx <= Z.of_nat (length samples) / 2
    /\ fft_peak_frequency r
       = F64.mul (F64.of_Z idx)
                 (F64.div (F64.of_Z sr) (F64.of_Z (Z.of_nat (length samples))))
    /\ (0 <= sr -> 2 * (idx * sr) <= Z.of_nat (length samples) * sr).
Proof.
  intros Hdec Hne Hlen Hnan _ _.
  destruct (rfft_abs samples) as [ | x sp] eqn:Hsp.
  { cbn [length] in Hlen. lia. }
  exists (analysis_of sr samples x sp), (argmax_from sp 1 x 0).
  split; [apply calculate_fft_ok; assumption | ].
  split; [reflexivity | ].
  split; [apply np_argmax_first_max; [exact Hnan | reflexivity] | ].
  pose proof (argmax_from_bound sp 1 x 0 ltac:(lia)) as Hidx.
  cbn [length] in Hlen.
  assert (Hsplen : Z.of_nat (length sp) = Z.of_nat (length samples) / 2).
  { assert (Hnat : length sp = (length samples / 2)%nat) by lia.
    rewrite Hnat. apply Nat2Z.inj_div. }
  assert (Hbound : 0 <= argmax_from sp 1 x 0 <= Z.of_nat (length samples) / 2)
    by lia.
  split; [exact Hbound | split; [reflexivity | ]].
  intros Hsr.
  pose proof (Z.mul_div_le (Z.of_nat (length samples)) 2 ltac:(lia)) as Hdiv.
  nia.
Qed.

Lemma peak_frequency_index_witness :
  exists r idx,
    calculate_fft RefDFT.dft_abs (Sample.alternating 15) 8000 = Some r
    /\ np_argmax (RefDFT.dft_abs (Sample.alternating_samples 15)) = Ok idx
    /\ first_max (RefDFT.dft_abs (Sample.alternating_samples 15)) idx
    /\ 0 <= idx <= Z.of_nat (length (Sample.alternating_samples 15)) / 2
    /\ fft_peak_frequency r
       = F64.mul (F64.of_Z idx)
           (F64.div (F64.of_Z 8000)
              (F64.of_Z (Z.of_nat (length (Sample.alternating_samples 15)))))
    /\ (0 <= 8000 ->
        2 * (idx * 8000)
        <= Z.of_nat (length (Sample.alternating_samples 15)) * 8000).
Proof.
  apply (peak_frequency_index RefDFT.dft_abs (Sample.alternating 15) 8000
           (Sample.alternating_samples 15)).
  - reflexivity.
  - discriminate.
  - apply length_dft_abs.
  - exact dft_abs_alternating_no_nan.
  - reflexivity.
  - reflexivity.
Defined.

(** Thirty samples alternating between 1000 and -1000 at 8000 Hz: the peak is
    the last bin, and [15 * (8000 / 30)] is rounded to the float above 4000. *)
Lemma nyquist_counterexample :
  exists r,
    calculate_fft RefDFT.dft_abs (Sample.alternating 15) 8000 = Some r
    /\ F64.ltb (F64.div (F64.of_Z 8000) (F64.of_Z 2)) (fft_peak_frequency r)
       = true.
Proof. eexists. split; vm_compute; reflexivity. Qed.

(** ** The encoder *)

Lemma pack_f_fits (x : float) :
  fits_binary32 x = true ->
  pack_f x = Ok (le_bytes32 (bits_of_binary32 (to_binary32 x))).
Proof.
  unfold fits_binary32, pack_f.
  destruct x as [s | s | | s m e]; try reflexivity.
  destruct (to_binary32 (S754_finite s m e)); try reflexivity.
  discriminate.
Qed.

Lemma pack_f_inv (x : float) (b : list byte) :
  pack_f x = Ok b ->
  fits_binary32 x = true /\ b = le_bytes32 (bits_of_binary32 (to_binary32 x)).
Proof.
  intros H. assert (Hfit : fits_binary32 x = true)
    by (unfold fits_binary32; rewrite H; reflexivity).
  split; [exact Hfit | ]. rewrite (pack_f_fits x Hfit) in H. congruence.
Qed.

Lemma pack_B_inv (v : Z) (b : list byte) :
  pack_B v = Ok b -> 0 <= v <= 255 /\ b = [byte_of_Z v].
Proof.
  unfold pack_B. destruct (0 <=? v) eqn:H0; destruct (v <=? 255) eqn:H1;
    cbn [andb]; try discriminate.
  intros H. injection H as <-. apply Z.leb_le in H0, H1.
  split; [lia | reflexivity].
Qed.

Lemma pack_items_app (fs1 : list fmt) :
  forall a1 fs2 a2,
    length fs1 = length a1 ->
    pack_items (fs1 ++ fs2) (a1 ++ a2)
    = (b1 <- pack_items fs1 a1 ;; b2 <- pack_items fs2 a2 ;; Ok (b1 ++ b2)).
Proof.
  induction fs1 as [ | f fs1 IH]; intros [ | a a1] fs2 a2 Hlen;
    try discriminate.
  - cbn [app pack_items bind]. destruct (pack_items fs2 a2); reflexivity.
  - cbn [app pack_items]. injection Hlen as Hlen.
    rewrite (IH a1 fs2 a2 Hlen).
    destruct (pack_item f a); cbn [bind]; [ | reflexivity].
    destruct (pack_items fs1 a1); cbn [bind]; [ | reflexivity].
    destruct (pack_items fs2 a2); cbn [bind]; [ | reflexivity].
    rewrite app_assoc. reflexivity.
Qed.

Lemma pack_items_app3 (fs1 fs2 fs3 : list fmt) (a1 a2 a3 : list arg) :
  length fs1 = length a1 -> length fs2 = length a2 ->
  pack_items (fs1 ++ fs2 ++ fs3) (a1 ++ a2 ++ a3)
  = (b1 <- pack_items fs1 a1 ;; b2 <- pack_items fs2 a2 ;;
     b3 <- pack_items fs3 a3 ;; Ok (b1 ++ b2 ++ b3)).
Proof.
  intros H1 H2. rewrite pack_items_app by assumption.
  destruct (pack_items fs1 a1); cbn [bind]; [ | reflexivity].
  rewrite pack_items_app by assumption.
  destruct (pack_items fs2 a2); cbn [bind]; [ | reflexivity].
  destruct (pack_items fs3 a3); reflexivity.
Qed.

Lemma pack_items_B_inv (vs : list Z) :
  forall b,
    pack_items (repeat FB (length vs)) (map AInt vs) = Ok b ->
    Forall (fun v => 0 <= v <= 255) vs /\ b = map byte_of_Z vs.
Proof.
  induction vs as [ | v vs IH]; intros b H.
  - injection H as <-. split; [constructor | reflexivity].
  - cbn [length repeat map pack_items pack_item] in H.
    destruct (pack_B v) as [bv | ] eqn:Hv; [ | discriminate].
    cbn [bind] in H.
    destruct (pack_items _ _) as [rest | ] eqn:Hrest; [ | discriminate].
    cbn [bind] in H. injection H as <-.
    apply pack_B_inv in Hv. destruct Hv as [Hr ->].
    destruct (IH rest eq_refl) as [Hvs ->].
    split; [constructor; assumption | reflexivity].
Qed.

(** The encoder after the conversions [int(..)] and [float(..)]. *)
Lemma struct_pack_wled (vs : list Z) (r s : float) (p : Z) (m f : float) :
  length vs = 16%nat ->
  struct_pack wled_format
    ([ABytes header; AInt 0; AInt 0; AFloat r; AFloat s; AInt p; AInt 0]
     ++ map AInt vs ++ [AInt 0; AInt 0; AFloat m; AFloat f])
  = (br <- pack_f r ;; bs <- pack_f s ;; bp <- pack_B p ;;
     bv <- pack_items (repeat FB 16) (map AInt vs) ;;
     bm <- pack_f m ;; bf <- pack_f f ;;
     Ok (header ++ [x00] ++ [x00; x00] ++ br ++ bs ++ bp ++ [x00] ++ bv
         ++ [x00; x00] ++ bm ++ bf)).
Proof.
  intros Hlen. unfold struct_pack.
  change (length wled_format) with 27%nat.
  rewrite !length_app, length_map, Hlen. cbn [length Nat.eqb Nat.add].
  change wled_format
    with ([Fs 6; FB; FB; Ff; Ff; FB; FB] ++ repeat FB 16 ++ [FB; FB; Ff; Ff]).
  rewrite pack_items_app3
    by (reflexivity || (rewrite repeat_length, length_map; congruence)).
  cbn [pack_items pack_item].
  destruct (pack_f r) as [br | ]; cbn [bind]; [ | reflexivity].
  destruct (pack_f s) as [bs | ]; cbn [bind]; [ | reflexivity].
  destruct (pack_B p) as [bp | ]; cbn [bind]; [ | reflexivity].
  change (pack_B 0) with (Ok [x00]). cbn [bind].
  destruct (pack_items (repeat FB 16) (map AInt vs)) as [bv | ]; cbn [bind];
    [ | reflexivity].
  destruct (pack_f m) as [bm | ]; cbn [bind]; [ | reflexivity].
  destruct (pack_f f) as [bf | ]; cbn [bind]; [ | reflexivity].
  cbn [pack_s header firstn length Nat.sub repeat app].
  rewrite <- !app_assoc, app_nil_r. reflexivity.
Qed.

(** With sixteen band values and a peak level within [0, 255] and float
    fields that fit binary32, the encoder returns the 44 bytes of
    [wled_packet]. *)
Lemma create_udp_packet_ok (vs : list Z) (r s : float) (p : Z) (m f : float) :
  length vs = 16%nat ->
  Forall in_byte_range vs -> in_byte_range p ->
  fits_binary32 r = true -> fits_binary32 s = true ->
  fits_binary32 m = true -> fits_binary32 f = true ->
  create_udp_packet (map PyInt vs) (PyFloat r) (PyFloat s) (PyInt p)
                    (PyFloat m) (PyFloat f)
  = Ok (wled_packet vs r s p m f).
Proof.
  intros Hlen Hvs Hp Hr Hs Hm Hf. unfold create_udp_packet.
  cbn [py_int py_float bind]. rewrite map_result_py_int. cbn [bind].
  rewrite struct_pack_wled by assumption.
  rewrite !pack_f_fits by assumption. cbn [bind].
  rewrite pack_B_in_range by assumption. cbn [bind].
  rewrite <- Hlen, pack_items_B by assumption. reflexivity.
Qed.

(** Conversely a packet is only returned under these conditions. *)
Lemma create_udp_packet_inv
  (bands : list num) (raw smoothed peak magsum freq : num) (pkt : list byte) :
  create_udp_packet bands raw smoothed peak magsum freq = Ok pkt ->
  exists vs r s p m f,
    map_result py_int bands = Ok vs /\ py_int peak = Ok p
    /\ py_float raw = Ok r /\ py_float smoothed = Ok s
    /\ py_float magsum = Ok m /\ py_float freq = Ok f
    /\ length vs = 16%nat /\ Forall in_byte_range vs /\ in_byte_range p
    /\ fits_binary32 r = true /\ fits_binary32 s = true
    /\ fits_binary32 m = true /\ fits_binary32 f = true
    /\ pkt = wled_packet vs r s p m f.
Proof.
  unfold create_udp_packet. intros H.
  destruct (py_int peak) as [p | ]; [ | discriminate]. cbn [bind] in H.
  destruct (map_result py_int bands) as [vs | ]; [ | discriminate].
  cbn [bind] in H.
  destruct (py_float raw) as [r | ]; [ | discriminate]. cbn [bind] in H.
  destruct (py_float smoothed) as [s | ]; [ | discriminate]. cbn [bind] in H.
  destruct (py_float magsum) as [m | ]; [ | discriminate]. cbn [bind] in H.
  destruct (py_float freq) as [f | ]; [ | discriminate]. cbn [bind] in H.
  assert (Hlen : length vs = 16%nat).
  { unfold struct_pack in H. change (length wled_format) with 27%nat in H.
    rewrite !length_app, length_map in H. cbn [length] in H.
    destruct (Nat.eqb 27 (7 + (length vs + 4))) eqn:E; [ | discriminate].
    apply Nat.eqb_eq in E. lia. }
  rewrite struct_pack_wled in H by assumption.
  destruct (pack_f r) as [br | ] eqn:Hr; [ | discriminate]. cbn [bind] in H.
  destruct (pack_f s) as [bs | ] eqn:Hs; [ | discriminate]. cbn [bind] in H.
  destruct (pack_B p) as [bp | ] eqn:Hp; [ | discriminate]. cbn [bind] in H.
  destruct (pack_items _ _) as [bv | ] eqn:Hv; [ | discriminate].
  cbn [bind] in H.
  destruct (pack_f m) as [bm | ] eqn:Hm; [ | discriminate]. cbn [bind] in H.
  destruct (pack_f f) as [bf | ] eqn:Hf; [ | discriminate]. cbn [bind] in H.
  injection H as <-.
  apply pack_f_inv in Hr, Hs, Hm, Hf. apply pack_B_inv in Hp.
  rewrite <- Hlen in Hv. apply pack_items_B_inv in Hv.
  destruct Hr as [Hr ->], Hs as [Hs ->], Hm as [Hm ->], Hf as [Hf ->],
    Hp as [Hp ->], Hv as [Hv ->].
  exists vs, r, s, p, m, f. repeat split; try assumption; try apply Hp.
Qed.

(** C1 (amended): with sixteen band values and a peak level in [0, 255] and
    float fields that fit binary32 the encoder returns a packet of exactly 44
    bytes (not 62): the header '00002' and a zero byte, two zero bytes, the
    raw level as a little-endian binary32 at offset 8, the smoothed level at
    12, the peak level byte at 16, a zero byte, the sixteen band bytes at 18,
    two zero bytes, the magnitude sum at 36 and the peak frequency at 40. *)
Theorem packet_layout (vs : list Z) (r s : float) (p : Z) (m f : float) :
  length vs = 16%nat ->
  Forall in_byte_range vs -> in_byte_range p ->
  fits_binary32 r = true -> fits_binary32 s = true ->
  fits_binary32 m = true -> fits_binary32 f = true ->
  exists pkt,
    create_udp_packet (map PyInt vs) (PyFloat r) (PyFloat s) (PyInt p)
                      (PyFloat m) (PyFloat f) = Ok pkt
    /\ length pkt = 44%nat
    /\ slice 0 6 pkt = [x30; x30; x30; x30; x32; x00]
    /\ slice 6 2 pkt = [x00; x00]
    /\ slice 8 4 pkt = le_bytes32 (bits_of_binary32 (to_binary32 r))
    /\ slice 12 4 pkt = le_bytes32 (bits_of_binary32 (to_binary32 s))
    /\ slice 16 1 pkt = [byte_of_Z p]
    /\ slice 17 1 pkt = [x00]
    /\ slice 18 16 pkt = map byte_of_Z vs
    /\ slice 34 2 pkt = [x00; x00]
    /\ slice 36 4 pkt = le_bytes32 (bits_of_binary32 (to_binary32 m))
    /\ slice 40 4 pkt = le_bytes32 (bits_of_binary32 (to_binary32 f)).
Proof.
  intros Hlen Hvs Hp Hr Hs Hm Hf.
  exists (wled_packet vs r s p m f).
  split; [apply create_udp_packet_ok; assumption | ].
  do 16 (destruct vs as [ | ? vs]; [discriminate | ]).
  destruct vs; [ | discriminate].
  repeat split.
Qed.

Lemma packet_layout_witness :
  exists pkt,
    create_udp_packet (map PyInt Sample.bands) (PyFloat Sample.raw)
      (PyFloat Sample.smoothed) (PyInt 200) (PyFloat Sample.magsum)
      (PyFloat Sample.freq) = Ok pkt
    /\ length pkt = 44%nat
    /\ slice 0 6 pkt = [x30; x30; x30; x30; x32; x00]
    /\ slice 6 2 pkt = [x00; x00]
    /\ slice 8 4 pkt = le_bytes32 (bits_of_binary32 (to_binary32 Sample.raw))
    /\ slice 12 4 pkt
       = le_bytes32 (bits_of_binary32 (to_binary32 Sample.smoothed))
    /\ slice 16 1 pkt = [byte_of_Z 200]
    /\ slice 17 1 pkt = [x00]
    /\ slice 18 16 pkt = map byte_of_Z Sample.bands
    /\ slice 34 2 pkt = [x00; x00]
    /\ slice 36 4 pkt
       = le_bytes32 (bits_of_binary32 (to_binary32 Sample.magsum))
    /\ slice 40 4 pkt
       = le_bytes32 (bits_of_binary32 (to_binary32 Sample.freq)).
Proof.
  apply (packet_layout Sample.bands Sample.raw Sample.smoothed 200
                       Sample.magsum Sample.freq).
  - reflexivity.
  - repeat constructor; unfold in_byte_range; lia.
  - unfold in_byte_range. lia.
  - reflexivity.
  - reflexivity.
  - reflexivity.
  - reflexivity.
Defined.

(** The bytes of the packet of the example of the specification: its floats
    are [00 00 c0 3f], [9a 99 99 3f], [00 00 28 42] and [00 00 dc 43]. *)
Example sample_packet :
  create_udp_packet (map PyInt Sample.bands) (PyFloat Sample.raw)
    (PyFloat Sample.smoothed) (PyInt 200) (PyFloat Sample.magsum)
    (PyFloat Sample.freq)
  = Ok ([x30; x30; x30; x30; x32; x00; x00; x00;
         x00; x00; xc0; x3f; x9a; x99; x99; x3f; xc8; x00;
         x00; x01; x02; x03; x04; x05; x06; x07;
         x08; x09; x0a; x0b; x0c; x0d; x0e; x0f;
         x00; x00; x00; x00; x28; x42; x00; x00; xdc; x43]).
Proof. vm_compute. reflexivity. Qed.

(** The packet of the example has 44 bytes, not 62. *)
Lemma packet_length_counterexample :
  exists pkt,
    create_udp_packet (map PyInt Sample.bands) (PyFloat Sample.raw)
      (PyFloat Sample.smoothed) (PyInt 200) (PyFloat Sample.magsum)
      (PyFloat Sample.freq) = Ok pkt
    /\ length pkt = 44%nat
    /\ length pkt <> 62%nat.
Proof.
  eexists. split; [exact sample_packet | ].
  split; [reflexivity | discriminate].
Qed.

(** A block of thirty samples -32768 ends the loop: its peak level is -255,
    which [struct.pack] refuses. *)
Lemma cycle_min_block :
  outcome (cycle RefDFT.dft_abs Sample.cfg Sample.up
             (initial_state Sample.cfg) (Sample.constant x00 x80 30))
  = Raised StructError.
Proof. vm_compute. reflexivity. Qed.

(** C5: the encoder has a failure path. A peak level or a band value outside
    [0, 255] is not reduced to eight bits: [struct.pack] refuses it, and the
    encoder returns a packet only for a peak level inside [0, 255]. The peak
    level -255, which the analyzer computes on a block of samples -32768,
    ends the loop with this exception. *)
Theorem encoder_rejects_out_of_range :
  create_udp_packet (map PyInt (repeat 0 16)) (PyFloat F64.zero)
    (PyFloat F64.zero) (PyInt 256) (PyFloat F64.zero) (PyFloat F64.zero)
  = Raise StructError
  /\ create_udp_packet (map PyInt (256 :: repeat 0 15)) (PyFloat F64.zero)
       (PyFloat F64.zero) (PyInt 0) (PyFloat F64.zero) (PyFloat F64.zero)
     = Raise StructError
  /\ (forall bands raw smoothed p magsum freq pkt,
        create_udp_packet bands raw smoothed (PyInt p) magsum freq = Ok pkt ->
        0 <= p <= 255)
  /\ outcome (cycle RefDFT.dft_abs Sample.cfg Sample.up
                (initial_state Sample.cfg) (Sample.constant x00 x80 30))
     = Raised StructError.
Proof.
  split; [reflexivity | split; [reflexivity | split]].
  - intros bands raw smoothed p magsum freq pkt H.
    apply create_udp_packet_inv in H.
    destruct H as (vs & r & s & p' & m & f & _ & Hp & _ & _ & _ & _ & _ & _
                   & Hrange & _).
    cbn [py_int] in Hp. injection Hp as <-. exact Hrange.
  - exact cycle_min_block.
Qed.

(** With blocks of two samples the analysis yields two band values, and
    [struct.pack] refuses the argument count: the first iteration ends the
    loop. *)
Example cycle_small_block :
  outcome (cycle RefDFT.dft_abs Sample.small Sample.up
             (initial_state Sample.small) [])
  = Raised StructError.
Proof. vm_compute. reflexivity. Qed.

(** ** The ring buffer *)

Lemma maxlen_deque_append (d : deque) (x : list byte) :
  maxlen (deque_append d x) = maxlen d.
Proof. reflexivity. Qed.

(** A deque never holds more than [maxlen] blocks. *)
Lemma deque_append_bounded (d : deque) (x : list byte) :
  (length (items d) <= maxlen d)%nat ->
  (length (items (deque_append d x)) <= maxlen (deque_append d x))%nat.
Proof.
  intros Hd. unfold deque_append. cbn [items maxlen].
  destruct (Nat.ltb_spec (maxlen d) (length (items d ++ [x])))
    as [Hfull | Hroom].
  - rewrite length_app in *. cbn [length] in *.
    destruct (items d ++ [x])%list as [ | y l] eqn:Hl.
    + cbn [tl length]. lia.
    + apply (f_equal (@length _)) in Hl. rewrite length_app in Hl.
      cbn [tl length] in *. lia.
  - exact Hroom.
Qed.

(** The deque keeps the last [maxlen] of the blocks it was given. *)
Lemma items_push_all (blocks : list (list byte)) :
  forall d,
    (length (items d) <= maxlen d)%nat ->
    items (push_all d blocks)
    = skipn (length (items d ++ blocks) - maxlen d) (items d ++ blocks).
Proof.
  induction blocks as [ | b bs IH]; intros d Hd.
  - cbn [push_all fold_left]. rewrite app_nil_r.
    replace (length (items d) - maxlen d)%nat with 0%nat by lia. reflexivity.
  - unfold push_all in *. cbn [fold_left].
    assert (Hlen : length (items d ++ [b]) = S (length (items d)))
      by (rewrite length_app; cbn [length]; lia).
    rewrite IH.
    + rewrite maxlen_deque_append. unfold deque_append at 1 2. cbn [items].
      replace (items d ++ b :: bs)%list with ((items d ++ [b]) ++ bs)%list
        by (rewrite <- app_assoc; reflexivity).
      destruct (Nat.ltb_spec (maxlen d) (length (items d ++ [b])))
        as [Hfull | Hroom].
      * destruct (items d ++ [b])%list as [ | y l] eqn:Hl; [discriminate | ].
        cbn [tl]. cbn [length] in Hlen, Hfull |- *.
        rewrite !length_app. cbn [length].
        replace (S (length l) + length bs - maxlen d)%nat
          with (S (length l + length bs - maxlen d)) by lia.
        reflexivity.
      * reflexivity.
    + unfold deque_append. cbn [items maxlen].
      destruct (Nat.ltb_spec (maxlen d) (length (items d ++ [b])))
        as [Hfull | Hroom].
      * destruct (items d ++ [b])%list as [ | y l]; [discriminate | ].
        cbn [tl length] in *. lia.
      * exact Hroom.
Qed.

Lemma firstn_join_head (d : deque) (b : list byte) (rest : list (list byte)) :
  items d = b :: rest -> firstn (length b) (join d) = b.
Proof.
  intros H. unfold join. rewrite H. cbn [concat].
  rewrite firstn_app, firstn_all, Nat.sub_diag. cbn [firstn]. apply app_nil_r.
Qed.

(** C3 (amended): after pushing [maxlen + 1] full blocks into a ring buffer of
    capacity at least 1, exactly [maxlen] blocks remain, the first pushed one
    being evicted, and the first [chunk] bytes of the concatenation are the
    oldest block kept (the second one pushed); they are the most recently
    pushed block only when the capacity is 1. *)
Theorem ring_buffer_window
  (d : deque) (blocks : list (list byte)) (chunk : nat) :
  (1 <= maxlen d)%nat ->
  (length (items d) <= maxlen d)%nat ->
  length blocks = S (maxlen d) ->
  Forall (fun b => length b = chunk) blocks ->
  items (push_all d blocks) = tl blocks
  /\ length (items (push_all d blocks)) = maxlen d
  /\ firstn chunk (join (push_all d blocks)) = nth 1 blocks []
  /\ (maxlen d = 1%nat ->
      firstn chunk (join (push_all d blocks)) = last blocks []).
Proof.
  intros Hcap Hd Hlen Hfull.
  assert (Hitems : items (push_all d blocks) = tl blocks).
  { rewrite items_push_all by assumption.
    rewrite length_app, Hlen.
    replace (length (items d) + S (maxlen d) - maxlen d)%nat
      with (length (items d) + 1)%nat by lia.
    rewrite skipn_app, skipn_all2 by lia.
    replace (length (items d) + 1 - length (items d))%nat with 1%nat by lia.
    destruct blocks; reflexivity. }
  destruct blocks as [ | b0 [ | b1 rest]]; cbn [length] in Hlen; try lia.
  cbn [tl] in Hitems.
  assert (Hfirst : firstn chunk (join (push_all d (b0 :: b1 :: rest))) = b1).
  { inversion Hfull as [ | ? ? _ Hrest]; subst.
    inversion Hrest as [ | ? ? Hb1 _]; subst.
    apply (firstn_join_head _ b1 rest Hitems). }
  repeat split.
  - exact Hitems.
  - rewrite Hitems. cbn [length]. lia.
  - exact Hfirst.
  - intros Hone. rewrite Hfirst.
    destruct rest; [reflexivity | cbn [length] in Hlen; lia].
Qed.

Lemma ring_buffer_window_witness :
  items (push_all Sample.ring Sample.three_blocks) = tl Sample.three_blocks
  /\ length (items (push_all Sample.ring Sample.three_blocks))
     = maxlen Sample.ring
  /\ firstn 2 (join (push_all Sample.ring Sample.three_blocks))
     = nth 1 Sample.three_blocks []
  /\ (maxlen Sample.ring = 1%nat ->
      firstn 2 (join (push_all Sample.ring Sample.three_blocks))
      = last Sample.three_blocks []).
Proof.
  apply (ring_buffer_window Sample.ring Sample.three_blocks 2).
  - cbn. lia.
  - cbn. lia.
  - reflexivity.
  - repeat constructor.
Defined.

(** With room for two blocks the analysed bytes are the block pushed before
    the most recent one. *)
Lemma ring_buffer_counterexample :
  items (push_all Sample.ring Sample.three_blocks)
  = [Sample.block x02 2; Sample.block x03 2]
  /\ firstn 2 (join (push_all Sample.ring Sample.three_blocks))
     = Sample.block x02 2
  /\ firstn 2 (join (push_all Sample.ring Sample.three_blocks))
     <> last Sample.three_blocks [].
Proof. repeat split. discriminate. Qed.

(** ** Reads *)

Section LoopFacts.

Variable rfft_abs : list Z -> list float.
Variable cfg : config.

Lemma cycle_ring_buffer net st data :
  ring_buffer (next (cycle rfft_abs cfg net st data))
  = push_read (ring_buffer st) data.
Proof.
  cycle_cases.
Qed.

Lemma cycle_fft_result net st data :
  fft_result (cycle rfft_abs cfg net st data)
  = calculate_fft rfft_abs
      (firstn (chunk_size cfg) (join (push_read (ring_buffer st) data)))
      (sample_rate cfg).
Proof.
  cycle_cases.
Qed.

Lemma cycle_smoothed net st data :
  previous_smoothed_level (next (cycle rfft_abs cfg net st data))
  = match fft_result (cycle rfft_abs cfg net st data) with
    | Some r => smooth (previous_smoothed_level st) (raw_level r)
    | None => previous_smoothed_level st
    end.
Proof.
  cycle_cases.
Qed.

(** C7 (amended): an empty read pushes nothing and leaves the window as it
    was; every non-empty read, short or full, is appended to the window
    (and is its newest block when the capacity is at least 1). *)
Theorem read_updates_window net st data :
  (data = [] ->
   ring_buffer (next (cycle rfft_abs cfg net st data)) = ring_buffer st)
  /\ (data <> [] ->
      ring_buffer (next (cycle rfft_abs cfg net st data))
      = deque_append (ring_buffer st) data
      /\ ((1 <= maxlen (ring_buffer st))%nat ->
          last (items (ring_buffer (next (cycle rfft_abs cfg net st data))))
               []
          = data)).
Proof.
  rewrite cycle_ring_buffer. split.
  - intros ->. reflexivity.
  - intros Hne. destruct data as [ | b data]; [congruence | ].
    cbn [push_read]. split; [reflexivity | ].
    intros Hcap. unfold deque_append. cbn [items].
    destruct (Nat.ltb_spec (maxlen (ring_buffer st))
                           (length (items (ring_buffer st) ++ [b :: data])))
      as [Hfull | Hroom].
    + destruct (items (ring_buffer st)) as [ | y l] eqn:Hl.
      * cbn [app length] in Hfull. lia.
      * cbn [app tl]. apply last_last.
    + apply last_last.
Qed.

(** ** Smoothing *)

Lemma analysed_cons c cs :
  analysed (c :: cs)
  = (match fft_result c with Some r => [(r, next c)] | None => [] end
     ++ analysed cs)%list.
Proof. reflexivity. Qed.

Lemma run_smoothed net reads :
  forall st,
    let cs := run rfft_abs cfg net st reads in
    map (fun p => previous_smoothed_level (snd p)) (analysed cs)
    = smoothed_levels (previous_smoothed_level st)
                      (map (fun p => raw_level (fst p)) (analysed cs)).
Proof.
  induction reads as [ | data rest IH]; intros st; [reflexivity | ].
  cbv zeta in *. cbn [run].
  pose proof (cycle_smoothed net st data) as Hs.
  destruct (outcome (cycle rfft_abs cfg net st data)) eqn:Hout.
  1,2: rewrite analysed_cons, !map_app, IH;
    destruct (fft_result (cycle rfft_abs cfg net st data));
    cbn [map app fst snd smoothed_levels]; rewrite Hs; reflexivity.
  rewrite analysed_cons.
  destruct (fft_result (cycle rfft_abs cfg net st data));
    cbn [map app fst snd smoothed_levels analysed flat_map];
    rewrite ?Hs; reflexivity.
Qed.

(** ** Dispatch *)

Lemma send_unicast_stops net
  (l1 : list string) (a : string) (l2 : list string) :
  Forall (fun ip => net ip = true) l1 ->
  net a = false ->
  send_unicast net (l1 ++ a :: l2) = (l1, Raise OSError).
Proof.
  intros Hl1 Ha. induction Hl1 as [ | ip l1 Hip Hl1 IH].
  - cbn [app send_unicast]. rewrite Ha. reflexivity.
  - cbn [app send_unicast]. rewrite Hip, IH. reflexivity.
Qed.

Lemma send_unicast_all net (ips : list string) :
  Forall (fun ip => net ip = true) ips ->
  send_unicast net ips = (ips, Ok tt).
Proof.
  induction 1 as [ | ip ips Hip Hips IH]; [reflexivity | ].
  cbn [send_unicast]. rewrite Hip, IH. reflexivity.
Qed.

Lemma cycle_dispatch net st data :
  packet (cycle rfft_abs cfg net st data) <> None ->
  delivered (cycle rfft_abs cfg net st data) = fst (dispatch cfg net)
  /\ outcome (cycle rfft_abs cfg net st data)
     = match snd (dispatch cfg net) with
       | Ok _ => Sent
       | Raise e => Raised e
       end.
Proof.
  unfold cycle. destruct (calculate_fft _ _ _); [ | cbn; congruence].
  destruct (create_udp_packet _ _ _ _ _ _); [ | cbn; congruence].
  destruct (dispatch cfg net). intros _. split; reflexivity.
Qed.

(** C4 (amended): in unicast mode the addresses are served in order and a
    failing send raises: the addresses before the failing one have received
    the packet, those after it get no send attempt, and the exception ends
    the loop. *)
Theorem unicast_failure_aborts net st data rest
  (l1 : list string) (a : string) (l2 : list string) :
  USE_MULTICAST cfg = false ->
  WLED_IP_ADDRESSES cfg = (l1 ++ a :: l2)%list ->
  Forall (fun ip => net ip = true) l1 ->
  net a = false ->
  packet (cycle rfft_abs cfg net st data) <> None ->
  dispatch cfg net = (l1, Raise OSError)
  /\ delivered (cycle rfft_abs cfg net st data) = l1
  /\ outcome (cycle rfft_abs cfg net st data) = Raised OSError
  /\ run rfft_abs cfg net st (data :: rest)
     = [cycle rfft_abs cfg net st data].
Proof.
  intros Hmode Hips Hl1 Ha Hpkt.
  assert (Hd : dispatch cfg net = (l1, Raise OSError)).
  { unfold dispatch. rewrite Hmode, Hips.
    apply send_unicast_stops; assumption. }
  destruct (cycle_dispatch net st data Hpkt) as [Hdel Hout].
  rewrite Hd in Hdel, Hout. cbn [fst snd] in Hdel, Hout.
  repeat split; try assumption.
  cbn [run]. rewrite Hout. reflexivity.
Qed.

End LoopFacts.

(** The first iteration on the sample configuration: an empty read, so the
    block of silence the buffer was seeded with is analysed. *)
Lemma cycle_silence_packet (net : string -> bool) :
  packet (cycle RefDFT.dft_abs Sample.cfg net (initial_state Sample.cfg) [])
  <> None.
Proof.
  unfold cycle.
  change (firstn (chunk_size Sample.cfg)
            (join (push_read (ring_buffer (initial_state Sample.cfg)) [])))
    with (repeat x00 60).
  change (sample_rate Sample.cfg) with 8000.
  rewrite calculate_fft_silence.
  cbn [fft_values raw_level peak_level fft_magnitude_sum fft_peak_frequency].
  destruct (create_udp_packet _ _ _ _ _ _) eqn:Hpkt.
  - destruct (dispatch Sample.cfg net). discriminate.
  - vm_compute in Hpkt. discriminate.
Qed.

Lemma unicast_failure_aborts_witness :
  dispatch Sample.cfg Sample.second_down
  = (["192.168.1.10"%string], Raise OSError)
  /\ delivered (cycle RefDFT.dft_abs Sample.cfg Sample.second_down
                  (initial_state Sample.cfg) [])
     = ["192.168.1.10"%string]
  /\ outcome (cycle RefDFT.dft_abs Sample.cfg Sample.second_down
                (initial_state Sample.cfg) [])
     = Raised OSError
  /\ run RefDFT.dft_abs Sample.cfg Sample.second_down
         (initial_state Sample.cfg) [ []; [] ]
     = [cycle RefDFT.dft_abs Sample.cfg Sample.second_down
          (initial_state Sample.cfg) []].
Proof.
  apply (unicast_failure_aborts RefDFT.dft_abs Sample.cfg Sample.second_down
           (initial_state Sample.cfg) [] [ [] ]
           ["192.168.1.10"%string] "192.168.1.11"%string
           ["192.168.1.12"%string]).
  - reflexivity.
  - reflexivity.
  - repeat constructor.
  - reflexivity.
  - apply cycle_silence_packet.
Defined.

(** Three controllers of which the second cannot be reached: the third, which
    can, gets no packet. *)
Lemma unicast_counterexample :
  Sample.second_down "192.168.1.12"%string = true
  /\ fst (dispatch Sample.cfg Sample.second_down) = ["192.168.1.10"%string]
  /\ ~ In "192.168.1.12"%string (fst (dispatch Sample.cfg Sample.second_down))
  /\ snd (dispatch Sample.cfg Sample.second_down) = Raise OSError.
Proof.
  repeat split. cbn. intros [H | []]. discriminate.
Qed.

(** A read of one byte where four were asked for changes the window. *)
Lemma short_read_counterexample :
  (length [x01] < chunk_size Sample.small)%nat
  /\ items (ring_buffer (initial_state Sample.small))
     = [repeat x00 4; repeat x00 4]
  /\ items (ring_buffer (next (cycle RefDFT.dft_abs Sample.small Sample.up
                                 (initial_state Sample.small) [x01])))
     = [repeat x00 4; [x01]].
Proof.
  rewrite cycle_ring_buffer. repeat split. cbn. lia.
Qed.

(** A run on a block of samples 100 followed by two blocks of silence: the raw
    levels are 100, 0 and 0, and the smoothed levels 20, 16 and 12.8. *)
Example run_smoothing :
  map (fun p => (raw_level (fst p), previous_smoothed_level (snd p)))
      (analysed (stream_audio_to_wled RefDFT.dft_abs Sample.cfg Sample.up
                   [Sample.constant x64 x00 30; repeat x00 60; repeat x00 60]))
  = [(F64.of_Z 100, F64.of_Z 20); (F64.zero, F64.of_Z 16);
     (F64.zero, F64.of_ratio 128 10)].
Proof. vm_compute. reflexivity. Qed.

(** C8: the smoothed level is 0 at the start. An iteration whose window is a
    valid block is analysed, its raw level is the mean of the absolute
    samples, and it leaves the level [0.8 * s + 0.2 * r], where [s] is the
    level it found and [r] this raw level; every iteration updates the level
    in this way exactly when its analysis returns a result, and leaves it
    as it was when the analysis fails. So over a run the levels left by the
    analysed iterations follow the recurrence from 0 on their raw levels; the
    run on blocks of raw levels 100, 0 and 0 leaves 20.0, 16.0 and 12.8, as
    the recurrence does on the sequence [100, 0, 0]. *)
Theorem smoothing_recurrence
  (rfft_abs : list Z -> list float) (cfg : config) (net : string -> bool)
  (reads : list (list byte)) :
  previous_smoothed_level (initial_state cfg) = F64.zero
  /\ (forall st data samples,
        frombuffer_int16
          (firstn (chunk_size cfg) (join (push_read (ring_buffer st) data)))
        = Ok samples ->
        samples <> [] -> rfft_abs samples <> [] ->
        Z.abs (sample_rate cfg) < 2 ^ 53 ->
        Z.of_nat (length samples) < 2 ^ 53 ->
        exists r,
          fft_result (cycle rfft_abs cfg net st data) = Some r
          /\ raw_level r = np_mean (np_abs_int16 samples)
          /\ previous_smoothed_level (next (cycle rfft_abs cfg net st data))
             = F64.add (F64.mul (F64.of_ratio 8 10)
                                (previous_smoothed_level st))
                       (F64.mul (F64.of_ratio 2 10) (raw_level r)))
  /\ (forall st data r,
        calculate_fft rfft_abs
          (firstn (chunk_size cfg) (join (push_read (ring_buffer st) data)))
          (sample_rate cfg) = Some r ->
        fft_result (cycle rfft_abs cfg net st data) = Some r
        /\ previous_smoothed_level (next (cycle rfft_abs cfg net st data))
           = F64.add (F64.mul (F64.of_ratio 8 10)
                              (previous_smoothed_level st))
                     (F64.mul (F64.of_ratio 2 10) (raw_level r)))
  /\ (forall st data,
        calculate_fft rfft_abs
          (firstn (chunk_size cfg) (join (push_read (ring_buffer st) data)))
          (sample_rate cfg) = None ->
        fft_result (cycle rfft_abs cfg net st data) = None
        /\ previous_smoothed_level (next (cycle rfft_abs cfg net st data))
           = previous_smoothed_level st)
  /\ (forall s r rest,
        smoothed_levels s (r :: rest)
        = F64.add (F64.mul (F64.of_ratio 8 10) s)
                  (F64.mul (F64.of_ratio 2 10) r)
          :: smoothed_levels
               (F64.add (F64.mul (F64.of_ratio 8 10) s)
                        (F64.mul (F64.of_ratio 2 10) r)) rest)
  /\ map (fun p => previous_smoothed_level (snd p))
         (analysed (stream_audio_to_wled rfft_abs cfg net reads))
     = smoothed_levels F64.zero
         (map (fun p => raw_level (fst p))
              (analysed (stream_audio_to_wled rfft_abs cfg net reads)))
  /\ map (fun p => (raw_level (fst p), previous_smoothed_level (snd p)))
         (analysed (stream_audio_to_wled RefDFT.dft_abs Sample.cfg Sample.up
                      [Sample.constant x64 x00 30; repeat x00 60;
                       repeat x00 60]))
     = [(F64.of_Z 100, F64.of_Z 20); (F64.zero, F64.of_Z 16);
        (F64.zero, F64.of_ratio 128 10)]
  /\ smoothed_levels F64.zero [F64.of_Z 100; F64.zero; F64.zero]
     = [F64.of_Z 20; F64.of_Z 16; F64.of_ratio 128 10].
Proof.
  assert (Hsome : forall st data r,
             calculate_fft rfft_abs
               (firstn (chunk_size cfg)
                       (join (push_read (ring_buffer st) data)))
               (sample_rate cfg) = Some r ->
             fft_result (cycle rfft_abs cfg net st data) = Some r
             /\ previous_smoothed_level
                  (next (cycle rfft_abs cfg net st data))
                = F64.add (F64.mul (F64.of_ratio 8 10)
                                   (previous_smoothed_level st))
                          (F64.mul (F64.of_ratio 2 10) (raw_level r))).
  { intros st data r H.
    rewrite cycle_smoothed, cycle_fft_result, H. split; reflexivity. }
  split; [reflexivity | ]. split; [ | split; [exact Hsome | ]].
  - intros st data samples Hdec Hne Hsp _ _.
    destruct (rfft_abs samples) as [ | x sp] eqn:Hx; [congruence | ].
    pose proof (calculate_fft_ok rfft_abs _ (sample_rate cfg) samples x sp
                  Hdec Hne Hx) as Hok.
    destruct (Hsome st data _ Hok) as [Hres Hlevel].
    exists (analysis_of (sample_rate cfg) samples x sp).
    split; [exact Hres | split; [reflexivity | exact Hlevel]].
  - split; [ | split; [reflexivity | split]].
    + intros st data H.
      rewrite cycle_smoothed, cycle_fft_result, H. split; reflexivity.
    + exact (run_smoothed rfft_abs cfg net reads (initial_state cfg)).
    + split; [exact run_smoothing | vm_compute; reflexivity].
Qed.

(** * Further properties *)

(** ** Further facts on binary64 quotients *)

(** The float of an integer between 1 and [2 ^ 52 - 1]: a mantissa of 53 bits
    and an exponent between -52 and -1. *)
Lemma of_Z_small_form (z : Z) :
  0 < z < 2 ^ 52 ->
  exists m e,
    F64.of_Z z = S754_finite false m e
    /\ Zpos (digits2_pos m) = 53 /\ -52 <= e <= -1.
Proof.
  intros Hz. destruct z as [ | p | p]; try lia.
  pose proof (digits2_pos_lower p) as Hlow.
  assert (Hd : Zpos (digits2_pos p) < 53).
  { destruct (Z_lt_le_dec (Zpos (digits2_pos p)) 53) as [H | H]; [exact H | ].
    assert (2 ^ 52 <= 2 ^ (Zpos (digits2_pos p) - 1))
      by (apply Z.pow_le_mono_r; lia).
    lia. }
  rewrite of_Z_small by assumption.
  eexists _, _. split; [reflexivity | ]. split.
  - rewrite digits2_pos_iter_xO. lia.
  - pose proof (Pos2Z.is_pos (digits2_pos p)). lia.
Qed.

Lemma digits2_pos_53 (m : positive) :
  Zpos (digits2_pos m) = 53 -> 2 ^ 52 <= Zpos m < 2 ^ 53.
Proof.
  intros H. pose proof (digits2_pos_lower m) as Hl.
  pose proof (digits2_pos_upper m) as Hu. rewrite H in Hl, Hu.
  change (53 - 1) with 52 in Hl. lia.
Qed.

(** The quotient of two floats with full mantissas, away from overflow and
    underflow, is a finite float. *)
Lemma div_finite_53 (sa sb : bool) (ma mb : positive) (ea eb : Z) :
  Zpos (digits2_pos ma) = 53 -> Zpos (digits2_pos mb) = 53 ->
  -1021 <= ea - eb <= 1020 ->
  exists m e,
    F64.div (S754_finite sa ma ea) (S754_finite sb mb eb)
    = S754_finite (xorb sa sb) m e.
Proof.
  intros Ha Hb He.
  apply digits2_pos_53 in Ha as Hra. apply digits2_pos_53 in Hb as Hrb.
  unfold F64.div, SFdiv, SFdiv_core_binary. cbn [Zdigits2]. rewrite Ha, Hb.
  replace (Z.min (fexp F64.prec F64.emax (53 + ea - (53 + eb))) (ea - eb))
    with (ea - eb - 53)
    by (unfold fexp, emin, F64.prec, F64.emax; lia).
  replace (ea - eb - (ea - eb - 53)) with 53 by lia.
  rewrite Z.shiftl_mul_pow2 by lia.
  rewrite div_eucl_pair.
  set (q := Zpos ma * 2 ^ 53 / Zpos mb).
  assert (Hq : 2 ^ (52 + 0) <= q < 2 ^ (54 + 0)).
  { subst q. change (52 + 0) with 52. change (54 + 0) with 54. split.
    - apply Z.div_le_lower_bound; [lia | ].
      change (2 ^ 52) with 4503599627370496 in *.
      change (2 ^ 53) with 9007199254740992 in *. nia.
    - apply Z.div_lt_upper_bound; [lia | ].
      change (2 ^ 52) with 4503599627370496 in *.
      change (2 ^ 53) with 9007199254740992 in *.
      change (2 ^ 54) with 18014398509481984. nia. }
  match goal with
  | |- context [binary_round_aux _ _ _ _ _ ?l] =>
      destruct (binary_round_aux_range (xorb sa sb) q (ea - eb - 53) l
                  0 (Z.le_refl 0) Hq)
        as (m & k & Heq & _); [lia | lia | ]
  end.
  exists m, (ea - eb - 53 + k). exact Heq.
Qed.

(** The quotient of two positive integers below [2 ^ 52] is a positive
    finite float. *)
Lemma div_of_Z_finite (a b : Z) :
  0 < a < 2 ^ 52 -> 0 < b < 2 ^ 52 ->
  exists m e, F64.div (F64.of_Z a) (F64.of_Z b) = S754_finite false m e.
Proof.
  intros Ha Hb.
  destruct (of_Z_small_form a Ha) as (ma & ea & -> & Hda & Hea).
  destruct (of_Z_small_form b Hb) as (mb & eb & -> & Hdb & Heb).
  apply (div_finite_53 false false); (assumption || lia).
Qed.

(** ** When the analysis fails *)

Lemma frombuffer_int16_even :
  forall chunk,
    Nat.odd (length chunk) = false ->
    exists samples, frombuffer_int16 chunk = Ok samples.
Proof.
  induction chunk as [ | | a b l IH] using list_pair_ind; intros H.
  - exists []. reflexivity.
  - discriminate.
  - cbn [length] in H. rewrite Nat.odd_succ, Nat.even_succ in H.
    destruct (IH H) as [samples Hs]. exists (int16_of_bytes a b :: samples).
    cbn [frombuffer_int16]. rewrite Hs. reflexivity.
Qed.

(** X1: for a sample rate below [2 ^ 53] in magnitude and a block of fewer
    than [2 ^ 54] bytes, [calculate_fft] answers [None] exactly for a block
    with an odd number of bytes, for an empty block, and when the spectrum of
    the samples is empty; in every other case it returns an analysis. *)
Theorem analysis_fails_iff
  (rfft_abs : list Z -> list float) (chunk : list byte) (sr : Z) :
  Z.abs sr < 2 ^ 53 ->
  Z.of_nat (length chunk) < 2 ^ 54 ->
  calculate_fft rfft_abs chunk sr = None
  <-> (Nat.odd (length chunk) = true
       \/ chunk = []
       \/ exists samples,
            frombuffer_int16 chunk = Ok samples /\ rfft_abs samples = []).
Proof.
  intros _ _. split.
  - intros Hnone.
    destruct (Nat.odd (length chunk)) eqn:Hodd; [left; reflexivity | right].
    destruct (frombuffer_int16_even chunk Hodd) as [samples Hdec].
    destruct chunk as [ | c chunk']; [left; reflexivity | right].
    exists samples. split; [exact Hdec | ].
    destruct (rfft_abs samples) as [ | x sp] eqn:Hsp; [reflexivity | ].
    assert (Hne : samples <> []).
    { intros ->. apply frombuffer_int16_spec in Hdec.
      destruct Hdec as [_ Hlen]. discriminate. }
    rewrite (calculate_fft_ok rfft_abs _ sr samples x sp Hdec Hne Hsp)
      in Hnone.
    discriminate.
  - intros H.
    destruct (calculate_fft rfft_abs chunk sr) as [r | ] eqn:Hr;
      [exfalso | reflexivity].
    apply calculate_fft_inv in Hr.
    destruct Hr as (samples & x & sp & Hdec & Hne & Hsp & _).
    destruct H as [Hodd | [-> | (samples' & Hdec' & Hsp')]].
    + apply frombuffer_int16_spec in Hdec. destruct Hdec as [_ Hlen].
      rewrite Hlen, Nat.odd_mul in Hodd. discriminate.
    + cbn [frombuffer_int16] in Hdec. injection Hdec as <-. congruence.
    + rewrite Hdec in Hdec'. injection Hdec' as <-. congruence.
Qed.

Lemma analysis_fails_iff_witness :
  calculate_fft RefDFT.dft_abs [x01; x02; x03] 8000 = None
  <-> (Nat.odd (length [x01; x02; x03]) = true
       \/ [x01; x02; x03] = []
       \/ exists samples,
            frombuffer_int16 [x01; x02; x03] = Ok samples
            /\ RefDFT.dft_abs samples = []).
Proof.
  apply (analysis_fails_iff RefDFT.dft_abs [x01; x02; x03] 8000).
  - reflexivity.
  - reflexivity.
Defined.

(** ** The raw level *)

Lemma fold_add_range (l : list Z) :
  forall acc,
    Forall (fun z => 0 <= z <= 32767) l ->
    acc <= fold_left Z.add l acc
         <= acc + 32767 * Z.of_nat (length l).
Proof.
  induction l as [ | a l IH]; intros acc H; cbn [fold_left length].
  - lia.
  - inversion H as [ | ? ? Ha Hl]; subst.
    specialize (IH (acc + a) Hl). lia.
Qed.

Lemma fold_add_zero (l : list Z) :
  forall acc,
    Forall (fun z => 0 <= z) l ->
    fold_left Z.add l acc = acc -> Forall (fun z => z = 0) l.
Proof.
  induction l as [ | a l IH]; intros acc H Hs; cbn [fold_left] in *.
  - constructor.
  - inversion H as [ | ? ? Ha Hl]; subst.
    assert (Hge : forall l' acc',
               Forall (fun z => 0 <= z) l' -> acc' <= fold_left Z.add l' acc').
    { induction l' as [ | b l' IH']; intros acc' H'; cbn [fold_left];
        [lia | ].
      inversion H' as [ | ? ? Hb Hl']; subst.
      specialize (IH' (acc' + b) Hl'). lia. }
    pose proof (Hge l (acc + a) Hl).
    assert (a = 0) by lia. subst a.
    constructor; [reflexivity | ]. rewrite Z.add_0_r in Hs.
    apply (IH acc); assumption.
Qed.

Lemma Forall_abs_zero (samples : list Z) :
  Forall (fun z => z = 0) (map Z.abs samples) ->
  Forall (fun s => s = 0) samples.
Proof.
  induction samples as [ | s l IH]; intros H; cbn [map] in *.
  - constructor.
  - inversion H; subst. constructor; [lia | auto].
Qed.

(** X2: on a valid block of fewer than [2 ^ 37] samples, none of them
    -32768, the raw level is a finite float that is not negative, and it is
    0.0 exactly when every sample is 0. *)
Theorem raw_level_nonnegative
  (rfft_abs : list Z -> list float) (chunk : list byte) (sr : Z)
  (samples : list Z) (r : analysis) :
  frombuffer_int16 chunk = Ok samples ->
  calculate_fft rfft_abs chunk sr = Some r ->
  Forall (fun s => s <> -32768) samples ->
  Z.of_nat (length samples) < 2 ^ 37 ->
  F64.is_finite (raw_level r) = true
  /\ F64.leb F64.zero (raw_level r) = true
  /\ (raw_level r = F64.zero <-> Forall (fun s => s = 0) samples).
Proof.
  intros Hdec Hr Hmin Hlen.
  apply calculate_fft_inv in Hr.
  destruct Hr as (samples' & x & sp & Hdec' & Hne & _ & ->).
  rewrite Hdec in Hdec'. injection Hdec' as <-.
  destruct (frombuffer_int16_spec _ _ Hdec) as [Hrange _].
  assert (Hplain : Forall (fun s => -32767 <= s <= 32767) samples).
  { rewrite Forall_forall in *. intros s Hs.
    specialize (Hrange s Hs). specialize (Hmin s Hs).
    unfold int16 in Hrange. lia. }
  cbn [raw_level analysis_of]. unfold np_mean.
  rewrite (np_abs_int16_plain samples Hplain), length_map.
  assert (Habs : Forall (fun z => 0 <= z <= 32767) (map Z.abs samples)).
  { rewrite Forall_forall in *. intros z Hz. apply in_map_iff in Hz.
    destruct Hz as (s & <- & Hs). specialize (Hplain s Hs). lia. }
  pose proof (fold_add_range _ 0 Habs) as Hsum. rewrite length_map in Hsum.
  fold (Zsum (map Z.abs samples)) in Hsum.
  assert (Hn : 0 < Z.of_nat (length samples))
    by (destruct samples; [congruence | cbn [length]; lia]).
  assert (Hn52 : 0 < Z.of_nat (length samples) < 2 ^ 52).
  { split; [exact Hn | ]. change (2 ^ 37) with 137438953472 in Hlen.
    change (2 ^ 52) with 4503599627370496. lia. }
  destruct (Z.eq_dec (Zsum (map Z.abs samples)) 0) as [H0 | Hpos].
  - rewrite H0. change (F64.of_Z 0) with F64.zero.
    rewrite div_zero_of_Z by exact Hn.
    repeat split; try reflexivity. intros _.
    apply Forall_abs_zero. apply (fold_add_zero _ 0); [ | exact H0].
    eapply Forall_impl; [ | exact Habs]. cbv beta. intros; lia.
  - assert (Hs52 : 0 < Zsum (map Z.abs samples) < 2 ^ 52).
    { change (2 ^ 37) with 137438953472 in Hlen.
      change (2 ^ 52) with 4503599627370496. lia. }
    destruct (div_of_Z_finite _ _ Hs52 Hn52) as (m & e & ->).
    repeat split; try reflexivity; try discriminate.
    intros Hall. exfalso. apply Hpos.
    rewrite (Forall_eq_repeat 0 samples Hall).
    unfold Zsum. rewrite map_repeat. apply fold_add_Z_zeros.
Qed.

(** ** The sign of the peak level *)

Lemma fold_max_wrapped (t : list Z) :
  forall a,
    (a = -32768 \/ 0 <= a <= 32767) ->
    Forall (fun x => x = -32768 \/ 0 <= x <= 32767) t ->
    (fold_left Z.max t a = -32768 /\ Forall (fun x => x = -32768) (a :: t))
    \/ (0 <= fold_left Z.max t a <= 32767
        /\ ~ Forall (fun x => x = -32768) (a :: t)).
Proof.
  induction t as [ | b t IH]; intros a Ha Ht; cbn [fold_left].
  - destruct Ha as [-> | Ha].
    + left. split; [reflexivity | repeat constructor].
    + right. split; [exact Ha | ]. intros H. inversion H; subst. lia.
  - inversion Ht as [ | ? ? Hb Ht']; subst.
    assert (Hm : Z.max a b = -32768 \/ 0 <= Z.max a b <= 32767) by lia.
    destruct (IH (Z.max a b) Hm Ht') as [[He Hall] | [Hr Hnot]].
    + left. split; [exact He | ].
      inversion Hall as [ | ? ? Hab Hall']; subst.
      assert (a = -32768 /\ b = -32768) as [-> ->] by lia.
      repeat constructor. exact Hall'.
    + right. split; [exact Hr | ]. intros Hall. apply Hnot.
      inversion Hall as [ | ? ? Hae Hbt]; subst.
      inversion Hbt as [ | ? ? Hbe Htt]; subst.
      constructor; [reflexivity | exact Htt].
Qed.

Lemma wrap_abs_min (s : Z) :
  int16 s -> (wrap_int16 (Z.abs s) = -32768 <-> s = -32768).
Proof.
  unfold int16, wrap_int16. intros Hs. split.
  - intros H.
    destruct (Z.eq_dec s (-32768)) as [-> | Hne]; [reflexivity | exfalso].
    assert (Hid : (Z.abs s + 32768) mod 65536 = Z.abs s + 32768)
      by (apply Z.mod_small; lia).
    lia.
  - intros ->. reflexivity.
Qed.

(** X3: the peak level of an analysis lies between -255 and 255; it is
    negative exactly when every sample of the block is -32768, and it is
    then -255. *)
Theorem peak_level_sign
  (rfft_abs : list Z -> list float) (chunk : list byte) (sr : Z)
  (samples : list Z) (r : analysis) :
  frombuffer_int16 chunk = Ok samples ->
  calculate_fft rfft_abs chunk sr = Some r ->
  -255 <= peak_level r <= 255
  /\ (peak_level r < 0 <-> Forall (fun s => s = -32768) samples)
  /\ (peak_level r < 0 -> peak_level r = -255).
Proof.
  intros Hdec Hr.
  apply calculate_fft_inv in Hr.
  destruct Hr as (samples' & x & sp & Hdec' & Hne & _ & ->).
  rewrite Hdec in Hdec'. injection Hdec' as <-.
  destruct (frombuffer_int16_spec _ _ Hdec) as [Hrange _].
  cbn [peak_level analysis_of].
  destruct samples as [ | s l]; [congruence | ].
  cbn [np_abs_int16 map]. fold (np_abs_int16 l).
  inversion Hrange as [ | ? ? Hs Hl]; subst.
  assert (Hw : Forall (fun x => x = -32768 \/ 0 <= x <= 32767)
                      (np_abs_int16 l)).
  { unfold np_abs_int16. rewrite Forall_forall in *. intros z Hz.
    apply in_map_iff in Hz. destruct Hz as (y & <- & Hy).
    apply wrap_abs_cases. apply Hl. exact Hy. }
  assert (Hall : Forall (fun x => x = -32768)
                        (wrap_int16 (Z.abs s) :: np_abs_int16 l)
                 <-> Forall (fun x => x = -32768) (s :: l)).
  { change (wrap_int16 (Z.abs s) :: np_abs_int16 l)
      with (map (fun x => wrap_int16 (Z.abs x)) (s :: l)).
    rewrite Forall_map. split; intros H.
    - rewrite Forall_forall in *. intros y Hy.
      apply wrap_abs_min; [apply Hrange; exact Hy | apply H; exact Hy].
    - eapply Forall_impl; [ | exact H]. cbv beta. intros y ->. reflexivity. }
  destruct (fold_max_wrapped (np_abs_int16 l) (wrap_int16 (Z.abs s))
              (wrap_abs_cases s Hs) Hw) as [[He Ha] | [Hb Hn]].
  - rewrite He. change (Z.quot (-32768 * 255) 32767) with (-255).
    split; [lia | ]. split; [ | reflexivity].
    split; [intros _; apply Hall; exact Ha | lia].
  - set (M := fold_left Z.max (np_abs_int16 l) (wrap_int16 (Z.abs s))) in *.
    assert (Hq : 0 <= Z.quot (M * 255) 32767 <= 255).
    { rewrite Z.quot_div_nonneg by lia. split.
      - apply Z.div_pos; lia.
      - apply Z.div_le_upper_bound; lia. }
    split; [lia | ]. split; [ | lia].
    split; [lia | ]. intros H. exfalso. apply Hn, Hall, H.
Qed.

(** ** The ends of the normalization *)

Lemma fold_fmax_In (l : list float) :
  forall x, In (fold_left fmax l x) (x :: l).
Proof.
  induction l as [ | a l IH]; intros x; cbn [fold_left].
  - left. reflexivity.
  - destruct (IH (fmax x a)) as [H | H].
    + rewrite <- H. unfold fmax.
      destruct (F64.is_nan x); [left; reflexivity | ].
      destruct (F64.is_nan a); [right; left; reflexivity | ].
      destruct (F64.ltb x a); [right; left | left]; reflexivity.
    + right. right. exact H.
Qed.

(** A float that is at least 0.0 is no NaN; it is not below itself nor
    below 0.0. *)
Lemma leb_zero_order (x : float) :
  F64.leb F64.zero x = true ->
  F64.is_nan x = false /\ F64.ltb x x = false /\ F64.ltb x F64.zero = false
  /\ F64.leb x x = true.
Proof.
  destruct x as [s | [ | ] | | [ | ] m e]; try discriminate; intros _;
    repeat split; try reflexivity.
  - unfold F64.ltb, SFltb, SFcompare.
    rewrite Z.compare_refl, Pos.compare_cont_refl. reflexivity.
  - unfold F64.leb, SFleb, SFcompare.
    rewrite Z.compare_refl, Pos.compare_cont_refl. reflexivity.
Qed.

Lemma interp1_top_bin (top : float) :
  F64.leb F64.zero top = true ->
  interp1 F64.zero top F64.zero (F64.of_Z 255) top = F64.of_Z 255.
Proof.
  intros H. destruct (leb_zero_order top H) as (Hn & Hlt & Hz & Hle).
  unfold interp1. rewrite Hn, Hlt, Hz, Hle. reflexivity.
Qed.

Lemma ltb_zero_positive (x : float) :
  F64.ltb F64.zero x = true -> nonzero_of_sign false x.
Proof.
  destruct x as [s | [ | ] | | [ | ] m e]; try discriminate; intros _;
    constructor.
Qed.

Lemma nth_error_bands (sp : list float) (top : float) (i : nat) (x : float) :
  (i < 16)%nat ->
  nth_error sp i = Some x ->
  nth_error
    (map uint8_of_float
         (firstn 16 (np_interp sp F64.zero top F64.zero (F64.of_Z 255)))) i
  = Some (uint8_of_float (interp1 F64.zero top F64.zero (F64.of_Z 255) x)).
Proof.
  intros Hi Hx. unfold np_interp.
  rewrite nth_error_map, nth_error_firstn.
  replace (i <? 16)%nat with true by (symmetry; apply Nat.ltb_lt; exact Hi).
  rewrite nth_error_map, Hx. reflexivity.
Qed.

(** X4: when the largest magnitude of the spectrum is a number that is not
    negative, some bin holds it, and every bin among the first sixteen that
    holds it gets the band value 255; when it is positive, every bin of
    magnitude 0.0 among the first sixteen gets the band value 0. *)
Theorem normalized_extremes
  (rfft_abs : list Z -> list float) (chunk : list byte) (sr : Z)
  (samples : list Z) (r : analysis) (top : float) :
  frombuffer_int16 chunk = Ok samples ->
  calculate_fft rfft_abs chunk sr = Some r ->
  np_max (rfft_abs samples) = Ok top ->
  F64.leb F64.zero top = true ->
  In top (rfft_abs samples)
  /\ (forall i, (i < 16)%nat ->
                nth_error (rfft_abs samples) i = Some top ->
                nth_error (fft_values r) i = Some 255)
  /\ (F64.ltb F64.zero top = true ->
      forall i, (i < 16)%nat ->
                nth_error (rfft_abs samples) i = Some F64.zero ->
                nth_error (fft_values r) i = Some 0).
Proof.
  intros Hdec Hr Htop Hle.
  apply calculate_fft_inv in Hr.
  destruct Hr as (samples' & x & sp & Hdec' & Hne & Hsp & ->).
  rewrite Hdec in Hdec'. injection Hdec' as <-.
  rewrite Hsp in *. cbn [np_max] in Htop. injection Htop as <-.
  cbn [fft_values analysis_of]. unfold spectrum_top.
  split; [apply fold_fmax_In | ]. split.
  - intros i Hi Hx. rewrite (nth_error_bands _ _ i _ Hi Hx).
    rewrite interp1_top_bin by exact Hle. reflexivity.
  - intros Hpos i Hi Hx. rewrite (nth_error_bands _ _ i _ Hi Hx).
    rewrite interp1_zero_bin by (apply ltb_zero_positive; exact Hpos).
    reflexivity.
Qed.

(** The analysis of the two samples 100 and 0 with the reference spectrum. *)
Lemma calculate_fft_pulse :
  calculate_fft RefDFT.dft_abs [x64; x00; x00; x00] 44100
  = Some {| fft_values := [255; 255];
            raw_level := F64.of_Z 50;
            peak_level := 0;
            fft_magnitude_sum := F64.of_Z 200;
            fft_peak_frequency := F64.zero |}
  /\ RefDFT.dft_abs [100; 0] = [F64.of_Z 100; F64.of_Z 100].
Proof. vm_compute. split; reflexivity. Qed.

Lemma normalized_extremes_witness :
  In (F64.of_Z 100) (RefDFT.dft_abs [100; 0])
  /\ (forall i, (i < 16)%nat ->
                nth_error (RefDFT.dft_abs [100; 0]) i = Some (F64.of_Z 100) ->
                nth_error [255; 255] i = Some 255)
  /\ (F64.ltb F64.zero (F64.of_Z 100) = true ->
      forall i, (i < 16)%nat ->
                nth_error (RefDFT.dft_abs [100; 0]) i = Some F64.zero ->
                nth_error [255; 255] i = Some 0).
Proof.
  apply (normalized_extremes RefDFT.dft_abs [x64; x00; x00; x00] 44100
           [100; 0]
           {| fft_values := [255; 255];
              raw_level := F64.of_Z 50;
              peak_level := 0;
              fft_magnitude_sum := F64.of_Z 200;
              fft_peak_frequency := F64.zero |}).
  - reflexivity.
  - exact (proj1 calculate_fft_pulse).
  - rewrite (proj2 calculate_fft_pulse). reflexivity.
  - reflexivity.
Defined.

Lemma raw_level_nonnegative_witness :
  F64.is_finite (F64.of_Z 50) = true
  /\ F64.leb F64.zero (F64.of_Z 50) = true
  /\ (F64.of_Z 50 = F64.zero <-> Forall (fun s => s = 0) [100; 0]).
Proof.
  apply (raw_level_nonnegative RefDFT.dft_abs [x64; x00; x00; x00] 44100
           [100; 0]
           {| fft_values := [255; 255];
              raw_level := F64.of_Z 50;
              peak_level := 0;
              fft_magnitude_sum := F64.of_Z 200;
              fft_peak_frequency := F64.zero |}).
  - reflexivity.
  - exact (proj1 calculate_fft_pulse).
  - repeat constructor; discriminate.
  - reflexivity.
Defined.

Lemma peak_level_sign_witness :
  -255 <= 0 <= 255
  /\ (0 < 0 <-> Forall (fun s => s = -32768) [100; 0])
  /\ (0 < 0 -> 0 = -255).
Proof.
  apply (peak_level_sign RefDFT.dft_abs [x64; x00; x00; x00] 44100
           [100; 0]
           {| fft_values := [255; 255];
              raw_level := F64.of_Z 50;
              peak_level := 0;
              fft_magnitude_sum := F64.of_Z 200;
              fft_peak_frequency := F64.zero |}).
  - reflexivity.
  - exact (proj1 calculate_fft_pulse).
Defined.

(** ** The peak frequency of silence *)

Lemma argmax_from_zeros (k : nat) :
  forall i besti,
    argmax_from (repeat F64.zero k) i F64.zero besti = besti.
Proof.
  induction k as [ | k IH]; intros i besti; cbn [repeat argmax_from].
  - reflexivity.
  - change (F64.is_nan F64.zero) with false.
    change (F64.leb F64.zero F64.zero) with true. cbv iota. apply IH.
Qed.

(** X5: on a block of silence whose spectrum is all zero the peak frequency
    is 0.0, for a sample rate and a number of samples between 1 and
    [2 ^ 52 - 1]. *)
Theorem silence_peak_frequency
  (rfft_abs : list Z -> list float) (n : nat) (sr : Z) :
  (0 < n)%nat -> Z.of_nat n < 2 ^ 52 ->
  0 < sr < 2 ^ 52 ->
  rfft_abs (repeat 0 n) <> [] ->
  Forall (fun x => x = F64.zero) (rfft_abs (repeat 0 n)) ->
  exists r,
    calculate_fft rfft_abs (repeat x00 (2 * n)) sr = Some r
    /\ fft_peak_frequency r = F64.zero.
Proof.
  intros Hn Hn52 Hsr Hne Hall.
  destruct (rfft_abs (repeat 0 n)) as [ | x sp] eqn:Hsp; [congruence | ].
  assert (Hrn : repeat 0 n <> []) by (destruct n; [lia | discriminate]).
  eexists. split.
  - apply (calculate_fft_ok rfft_abs _ sr (repeat 0 n) x sp);
      [apply frombuffer_int16_zeros | exact Hrn | exact Hsp].
  - cbn [fft_peak_frequency analysis_of].
    inversion Hall as [ | ? ? Hx Hrest]; subst.
    rewrite (Forall_eq_repeat _ _ Hrest), argmax_from_zeros, repeat_length.
    destruct (div_of_Z_finite sr (Z.of_nat n)) as (m & e & ->);
      [exact Hsr | lia | ].
    reflexivity.
Qed.

Lemma silence_peak_frequency_witness :
  exists r,
    calculate_fft RefDFT.dft_abs (repeat x00 (2 * 30)) 8000 = Some r
    /\ fft_peak_frequency r = F64.zero.
Proof.
  apply (silence_peak_frequency RefDFT.dft_abs 30 8000).
  - lia.
  - reflexivity.
  - split; reflexivity.
  - rewrite dft_abs_silence. discriminate.
  - rewrite dft_abs_silence. repeat constructor.
Defined.

(** ** When the encoder succeeds *)

Lemma create_udp_packet_count
  (vs : list Z) (r s : float) (p : Z) (m f : float) :
  length vs <> 16%nat ->
  create_udp_packet (map PyInt vs) (PyFloat r) (PyFloat s) (PyInt p)
                    (PyFloat m) (PyFloat f)
  = Raise StructError.
Proof.
  intros H. unfold create_udp_packet. cbn [py_int py_float bind].
  rewrite map_result_py_int. cbn [bind]. unfold struct_pack.
  replace (Nat.eqb _ _) with false; [reflexivity | ].
  symmetry. apply Nat.eqb_neq.
  change (length wled_format) with 27%nat.
  rewrite !length_app, length_map. cbn [length]. lia.
Qed.

(** X6: on integers and floats the encoder returns a packet exactly when
    there are sixteen band values, the band values and the peak level lie in
    [0, 255] and the four floats fit binary32; any other number of band
    values is refused by [struct.pack]. *)
Theorem encoder_succeeds_iff
  (vs : list Z) (r s : float) (p : Z) (m f : float) :
  (is_ok (create_udp_packet (map PyInt vs) (PyFloat r) (PyFloat s) (PyInt p)
                            (PyFloat m) (PyFloat f)) = true
   <-> (length vs = 16%nat
        /\ Forall in_byte_range vs /\ in_byte_range p
        /\ fits_binary32 r = true /\ fits_binary32 s = true
        /\ fits_binary32 m = true /\ fits_binary32 f = true))
  /\ (length vs <> 16%nat ->
      create_udp_packet (map PyInt vs) (PyFloat r) (PyFloat s) (PyInt p)
                        (PyFloat m) (PyFloat f)
      = Raise StructError).
Proof.
  split; [ | apply create_udp_packet_count].
  split.
  - intros H.
    destruct (create_udp_packet _ _ _ _ _ _) as [pkt | e] eqn:Hpkt;
      [ | discriminate].
    apply create_udp_packet_inv in Hpkt.
    destruct Hpkt as (vs' & r' & s' & p' & m' & f' & Hvs & Hp & Hr & Hs & Hm
                      & Hf & H1 & H2 & H3 & H4 & H5 & H6 & H7 & _).
    rewrite map_result_py_int in Hvs. injection Hvs as <-.
    cbn [py_int py_float] in *.
    injection Hp as <-. injection Hr as <-. injection Hs as <-.
    injection Hm as <-. injection Hf as <-.
    repeat (split; [assumption | ]). assumption.
  - intros (H1 & H2 & H3 & H4 & H5 & H6 & H7).
    rewrite create_udp_packet_ok by assumption. reflexivity.
Qed.

(** ** Reading the integer fields back *)

Lemma uint8_byte_of_Z (vs : list Z) :
  Forall in_byte_range vs -> map uint8 (map byte_of_Z vs) = vs.
Proof.
  induction 1 as [ | v l Hv Hl IH]; cbn [map].
  - reflexivity.
  - rewrite IH. unfold uint8. rewrite byte_of_Z_value by exact Hv.
    reflexivity.
Qed.

(** X7: in a packet the encoder returned, the five bytes of the header are
    '00002', the byte at offset 16 read as an unsigned integer is the peak
    level and the sixteen bytes from offset 18 are the band values, each as
    [int] converted it. *)
Theorem packet_integer_fields
  (bands : list num) (raw smoothed peak magsum freq : num) (pkt : list byte) :
  create_udp_packet bands raw smoothed peak magsum freq = Ok pkt ->
  exists vs p,
    map_result py_int bands = Ok vs /\ py_int peak = Ok p
    /\ slice 0 5 pkt = header
    /\ map uint8 (slice 16 1 pkt) = [p]
    /\ map uint8 (slice 18 16 pkt) = vs.
Proof.
  intros H. apply create_udp_packet_inv in H.
  destruct H as (vs & r & s & p & m & f & Hvs & Hp & _ & _ & _ & _ & Hlen
                 & Hrange & Hpr & _ & _ & _ & _ & ->).
  exists vs, p. split; [exact Hvs | ]. split; [exact Hp | ].
  assert (Hs : slice 0 5 (wled_packet vs r s p m f) = header
               /\ slice 16 1 (wled_packet vs r s p m f) = map byte_of_Z [p]
               /\ slice 18 16 (wled_packet vs r s p m f) = map byte_of_Z vs).
  { do 16 (destruct vs as [ | ? vs]; [discriminate | ]).
    destruct vs; [ | discriminate].
    repeat split. }
  destruct Hs as (-> & -> & ->).
  split; [reflexivity | ].
  split; apply uint8_byte_of_Z;
    [constructor; [exact Hpr | constructor] | exact Hrange].
Qed.

Lemma packet_integer_fields_witness :
  exists vs p,
    map_result py_int (map PyInt Sample.bands) = Ok vs
    /\ py_int (PyInt 200) = Ok p
    /\ slice 0 5 (wled_packet Sample.bands Sample.raw Sample.smoothed 200
                              Sample.magsum Sample.freq) = header
    /\ map uint8 (slice 16 1 (wled_packet Sample.bands Sample.raw
                                Sample.smoothed 200 Sample.magsum Sample.freq))
       = [p]
    /\ map uint8 (slice 18 16 (wled_packet Sample.bands Sample.raw
                                 Sample.smoothed 200 Sample.magsum
                                 Sample.freq))
       = vs.
Proof.
  apply (packet_integer_fields (map PyInt Sample.bands) (PyFloat Sample.raw)
           (PyFloat Sample.smoothed) (PyInt 200) (PyFloat Sample.magsum)
           (PyFloat Sample.freq)).
  vm_compute. reflexivity.
Defined.

(** ** Blocks too short for sixteen bands *)

Section ShortBlocks.

Variable rfft_abs : list Z -> list float.
Variable cfg : config.

(** X8: when the spectrum of [N] samples has [N / 2 + 1] bins and the chunk
    size is below 60 bytes, no iteration of the loop sends a packet: the
    analysis yields fewer than sixteen band values, so an iteration is
    either skipped or ends the loop with the exception of [struct.pack]. *)
Theorem small_chunk_never_sends net st data :
  (forall samples,
      length (rfft_abs samples) = (length samples / 2 + 1)%nat) ->
  (chunk_size cfg < 60)%nat ->
  packet (cycle rfft_abs cfg net st data) = None
  /\ delivered (cycle rfft_abs cfg net st data) = []
  /\ (outcome (cycle rfft_abs cfg net st data) = Skipped
      \/ outcome (cycle rfft_abs cfg net st data) = Raised StructError).
Proof.
  intros Hbins Hsmall. unfold cycle.
  destruct (calculate_fft rfft_abs _ (sample_rate cfg)) as [r | ] eqn:Hr.
  2:{ cbn. auto. }
  apply calculate_fft_inv in Hr.
  destruct Hr as (samples & x & sp & Hdec & _ & Hsp & ->).
  apply frombuffer_int16_spec in Hdec. destruct Hdec as [_ Hlen].
  rewrite length_firstn in Hlen.
  assert (Hn : (length samples < 30)%nat) by lia.
  assert (Hb : (length (x :: sp) < 16)%nat).
  { rewrite <- Hsp, Hbins.
    pose proof (Nat.Div0.div_lt_upper_bound (length samples) 2 15). lia. }
  rewrite create_udp_packet_count.
  - cbn. auto.
  - cbn [fft_values analysis_of]. unfold np_interp.
    rewrite length_map, length_firstn, length_map. lia.
Qed.

End ShortBlocks.

Lemma small_chunk_never_sends_witness :
  packet (cycle RefDFT.dft_abs Sample.small Sample.up
            (initial_state Sample.small) []) = None
  /\ delivered (cycle RefDFT.dft_abs Sample.small Sample.up
                  (initial_state Sample.small) []) = []
  /\ (outcome (cycle RefDFT.dft_abs Sample.small Sample.up
                 (initial_state Sample.small) []) = Skipped
      \/ outcome (cycle RefDFT.dft_abs Sample.small Sample.up
                    (initial_state Sample.small) []) = Raised StructError).
Proof.
  apply (small_chunk_never_sends RefDFT.dft_abs Sample.small).
  - exact length_dft_abs.
  - cbn. lia.
Defined.

(** ** What the ring buffer keeps *)

Lemma push_all_latest (d : deque) (blocks : list (list byte)) :
  (length (items d) <= maxlen d)%nat ->
  (maxlen d <= length blocks)%nat ->
  items (push_all d blocks) = skipn (length blocks - maxlen d) blocks.
Proof.
  intros Hd Hb. rewrite items_push_all by exact Hd.
  rewrite skipn_app, length_app.
  rewrite skipn_all2 by lia. cbn [app]. f_equal. lia.
Qed.

(** X9: once at least [maxlen] blocks have been pushed, the deque holds
    exactly the last [maxlen] of them, in the order they were pushed, whatever
    it held before. *)
Theorem deque_keeps_latest (d : deque) (blocks : list (list byte)) :
  (length (items d) <= maxlen d)%nat ->
  (maxlen d <= length blocks)%nat ->
  items (push_all d blocks) = skipn (length blocks - maxlen d) blocks
  /\ length (items (push_all d blocks)) = maxlen d.
Proof.
  intros Hd Hb. pose proof (push_all_latest d blocks Hd Hb) as He.
  split; [exact He | ]. rewrite He, length_skipn. lia.
Qed.

Lemma deque_keeps_latest_witness :
  items (push_all Sample.ring Sample.three_blocks)
  = skipn (length Sample.three_blocks - maxlen Sample.ring)
          Sample.three_blocks
  /\ length (items (push_all Sample.ring Sample.three_blocks))
     = maxlen Sample.ring.
Proof.
  apply (deque_keeps_latest Sample.ring Sample.three_blocks).
  - cbn. lia.
  - cbn. lia.
Defined.

(** ** The window of the loop *)

Lemma fill_zeros_items (chunk k : nat) :
  forall d,
    (length (items d) + k <= maxlen d)%nat ->
    items (fill_zeros k chunk d)
    = (items d ++ repeat (repeat x00 chunk) k)%list
    /\ maxlen (fill_zeros k chunk d) = maxlen d.
Proof.
  induction k as [ | k IH]; intros d Hd; cbn [fill_zeros repeat].
  - rewrite app_nil_r. split; reflexivity.
  - destruct (IH (deque_append d (repeat x00 chunk))) as [Hi Hm].
    + rewrite maxlen_deque_append. unfold deque_append. cbn [items].
      rewrite length_app. cbn [length].
      destruct (Nat.ltb_spec (maxlen d) (length (items d) + 1)); [lia | ].
      rewrite length_app. cbn [length]. lia.
    + rewrite Hi, Hm, maxlen_deque_append. split; [ | reflexivity].
      unfold deque_append. cbn [items]. rewrite length_app. cbn [length].
      destruct (Nat.ltb_spec (maxlen d) (length (items d) + 1)); [lia | ].
      rewrite <- app_assoc. reflexivity.
Qed.

(** The buffer the loop starts with: as many blocks of zeros as it can
    hold. *)
Lemma initial_ring_buffer (cfg : config) :
  items (ring_buffer (initial_state cfg))
  = repeat (repeat x00 (chunk_size cfg)) (capacity cfg)
  /\ maxlen (ring_buffer (initial_state cfg)) = capacity cfg.
Proof.
  unfold initial_state, deque_new. cbn [ring_buffer maxlen].
  destruct (fill_zeros_items (chunk_size cfg) (capacity cfg)
              {| maxlen := capacity cfg; items := [] |}) as [Hi Hm].
  - cbn [items maxlen length]. lia.
  - rewrite Hi, Hm. split; reflexivity.
Qed.

(** Appending to a full deque leaves it full. *)
Lemma deque_append_full (P : list byte -> Prop) (d : deque) (x : list byte) :
  length (items d) = maxlen d ->
  Forall P (items d) -> P x ->
  length (items (deque_append d x)) = maxlen d
  /\ Forall P (items (deque_append d x)).
Proof.
  intros Hlen Hall Hx. unfold deque_append. cbn [items].
  assert (Hl : length (items d ++ [x]) = S (maxlen d))
    by (rewrite length_app; cbn [length]; lia).
  assert (Hp : Forall P (items d ++ [x]))
    by (apply Forall_app; split; [exact Hall | repeat constructor; exact Hx]).
  rewrite Hl.
  destruct (Nat.ltb_spec (maxlen d) (S (maxlen d))); [ | lia].
  destruct (items d ++ [x])%list as [ | y l]; [discriminate | ].
  cbn [tl length] in *. split; [lia | ].
  inversion Hp; assumption.
Qed.

Lemma length_firstn_concat (chunk : nat) (l : list (list byte)) :
  l <> [] -> Forall (fun b => length b = chunk) l ->
  length (firstn chunk (concat l)) = chunk.
Proof.
  intros Hne H. destruct l as [ | b l]; [congruence | ].
  inversion H; subst. cbn [concat].
  rewrite length_firstn, length_app. lia.
Qed.

Lemma last_cons_default {A : Type} (l : list A) :
  forall a d, last (a :: l) d = last l a.
Proof.
  induction l as [ | b l IH]; intros a d; [reflexivity | ].
  change (last (a :: b :: l) d) with (last (b :: l) d).
  rewrite (IH b d), (IH b a). reflexivity.
Qed.

Section WindowFacts.

Variable rfft_abs : list Z -> list float.
Variable cfg : config.

Lemma push_read_full (d : deque) (data : list byte) :
  full_window cfg d -> (data = [] \/ length data = chunk_size cfg) ->
  full_window cfg (push_read d data).
Proof.
  intros (Hm & Hl & Hb) Hdata. destruct data as [ | c data].
  - repeat split; assumption.
  - destruct Hdata as [Hd | Hd]; [discriminate | ].
    cbn [push_read]. unfold full_window.
    destruct (deque_append_full (fun b => length b = chunk_size cfg) d
                (c :: data)) as [H1 H2]; try assumption; try lia.
    rewrite maxlen_deque_append. repeat split; (assumption || lia).
Qed.

Lemma run_full_window net (reads : list (list byte)) :
  forall st,
    full_window cfg (ring_buffer st) ->
    Forall (fun d => d = [] \/ length d = chunk_size cfg) reads ->
    Forall (fun c => full_window cfg (ring_buffer (next c)))
           (run rfft_abs cfg net st reads).
Proof.
  induction reads as [ | data reads IH]; intros st Hst Hreads;
    cbn [run]; [constructor | ].
  inversion Hreads as [ | ? ? Hdata Hrest]; subst.
  assert (Hc : full_window cfg
                 (ring_buffer (next (cycle rfft_abs cfg net st data)))).
  { rewrite cycle_ring_buffer. apply push_read_full; assumption. }
  destruct (outcome (cycle rfft_abs cfg net st data));
    constructor; try exact Hc; try constructor; apply IH; assumption.
Qed.

(** X10: the loop starts with a window of [capacity] blocks of [chunk_size]
    zero bytes, and as long as every read returns a full block or nothing, the
    window holds [capacity] blocks of [chunk_size] bytes after every
    iteration; with a capacity of at least 1 the bytes handed to the analysis
    are then exactly [chunk_size] many. *)
Theorem window_stays_full net (reads : list (list byte)) :
  Forall (fun d => d = [] \/ length d = chunk_size cfg) reads ->
  items (ring_buffer (initial_state cfg))
  = repeat (repeat x00 (chunk_size cfg)) (capacity cfg)
  /\ Forall (fun c =>
               length (items (ring_buffer (next c))) = capacity cfg
               /\ Forall (fun b => length b = chunk_size cfg)
                         (items (ring_buffer (next c)))
               /\ ((1 <= capacity cfg)%nat ->
                   length (firstn (chunk_size cfg)
                                  (join (ring_buffer (next c))))
                   = chunk_size cfg))
            (stream_audio_to_wled rfft_abs cfg net reads).
Proof.
  intros Hreads. destruct (initial_ring_buffer cfg) as [Hi Hm].
  split; [exact Hi | ].
  assert (H0 : full_window cfg (ring_buffer (initial_state cfg))).
  { unfold full_window. rewrite Hi, Hm, repeat_length.
    repeat split. apply Forall_forall. intros b Hb.
    apply repeat_spec in Hb. subst b. apply repeat_length. }
  pose proof (run_full_window net reads _ H0 Hreads) as Hrun.
  unfold stream_audio_to_wled.
  eapply Forall_impl; [ | exact Hrun]. cbv beta.
  intros c (_ & Hl & Hb). split; [exact Hl | ]. split; [exact Hb | ].
  intros Hcap. unfold join. apply length_firstn_concat; [ | exact Hb].
  intros He. rewrite He in Hl. cbn [length] in Hl. lia.
Qed.

(** ** Where a packet goes *)

Lemma send_unicast_prefix net (ips : list string) :
  (exists rest, ips = (fst (send_unicast net ips) ++ rest)%list)
  /\ (snd (send_unicast net ips) = Ok tt ->
      fst (send_unicast net ips) = ips
      /\ Forall (fun ip => net ip = true) ips).
Proof.
  induction ips as [ | ip ips [[rest IH1] IH2]]; cbn [send_unicast].
  - split; [exists []; reflexivity | ]. intros _. split; constructor.
  - destruct (net ip) eqn:Hip.
    + destruct (send_unicast net ips) as [sent r]. cbn [fst snd] in *.
      split.
      * exists rest. cbn [app]. f_equal. exact IH1.
      * intros H. destruct (IH2 H) as [-> Hall].
        split; [reflexivity | constructor; assumption].
    + cbn [fst snd]. split; [exists (ip :: ips); reflexivity | discriminate].
Qed.

Lemma dispatch_prefix net :
  (exists rest, targets cfg = (fst (dispatch cfg net) ++ rest)%list)
  /\ (snd (dispatch cfg net) = Ok tt ->
      fst (dispatch cfg net) = targets cfg
      /\ Forall (fun ip => net ip = true) (targets cfg)).
Proof.
  unfold dispatch, targets. destruct (USE_MULTICAST cfg).
  - destruct (net (MULTICAST_IP cfg)) eqn:Hm; cbn [fst snd].
    + split; [exists []; reflexivity | ]. intros _.
      split; [reflexivity | repeat constructor; exact Hm].
    + split; [exists [MULTICAST_IP cfg]; reflexivity | discriminate].
  - apply send_unicast_prefix.
Qed.

Lemma cycle_delivered_prefix net st data :
  exists rest,
    targets cfg = (delivered (cycle rfft_abs cfg net st data) ++ rest)%list.
Proof.
  destruct (dispatch_prefix net) as [Hpre _].
  unfold cycle.
  destruct (calculate_fft rfft_abs _ (sample_rate cfg)) as [r | ];
    [ | exists (targets cfg); reflexivity].
  destruct (create_udp_packet _ _ _ _ _ _) as [pkt | e];
    [ | exists (targets cfg); reflexivity].
  destruct (dispatch cfg net) as [sent sr]. exact Hpre.
Qed.

Lemma cycle_sent net st data :
  outcome (cycle rfft_abs cfg net st data) = Sent ->
  delivered (cycle rfft_abs cfg net st data) = targets cfg
  /\ packet (cycle rfft_abs cfg net st data) <> None
  /\ Forall (fun ip => net ip = true) (targets cfg).
Proof.
  destruct (dispatch_prefix net) as [_ Hok].
  unfold cycle.
  destruct (calculate_fft rfft_abs _ (sample_rate cfg)) as [r | ];
    [ | discriminate].
  destruct (create_udp_packet _ _ _ _ _ _) as [pkt | e]; [ | discriminate].
  destruct (dispatch cfg net) as [sent [[] | e]]; cbn in *;
    [ | discriminate].
  intros _. destruct (Hok eq_refl) as [-> Hall].
  split; [reflexivity | ]. split; [discriminate | exact Hall].
Qed.

(** X11: in every iteration the addresses the packet was sent to are the
    first ones of the list of destinations (the multicast address in
    multicast mode, the configured controllers in unicast mode), in the order
    of this list; when the iteration ends with a packet sent, a packet was
    built, every destination accepted it and all of them were served. *)
Theorem delivery_targets net st data :
  (exists rest,
      targets cfg
      = (delivered (cycle rfft_abs cfg net st data) ++ rest)%list)
  /\ (outcome (cycle rfft_abs cfg net st data) = Sent ->
      delivered (cycle rfft_abs cfg net st data) = targets cfg
      /\ packet (cycle rfft_abs cfg net st data) <> None
      /\ Forall (fun ip => net ip = true) (targets cfg)).
Proof.
  split; [apply cycle_delivered_prefix | apply cycle_sent].
Qed.

(** ** A short read of odd length *)

(** X12: with a ring buffer of capacity 1, a read of an odd number of bytes,
    at most [chunk_size], is what the analysis gets; it fails there, so the
    iteration sends nothing, leaves the smoothed level as it was and the loop
    goes on with the next read. *)
Theorem odd_read_skipped net st data rest :
  maxlen (ring_buffer st) = 1%nat ->
  (length (items (ring_buffer st)) <= 1)%nat ->
  Nat.odd (length data) = true ->
  (length data <= chunk_size cfg)%nat ->
  outcome (cycle rfft_abs cfg net st data) = Skipped
  /\ packet (cycle rfft_abs cfg net st data) = None
  /\ delivered (cycle rfft_abs cfg net st data) = []
  /\ previous_smoothed_level (next (cycle rfft_abs cfg net st data))
     = previous_smoothed_level st
  /\ items (ring_buffer (next (cycle rfft_abs cfg net st data))) = [data]
  /\ run rfft_abs cfg net st (data :: rest)
     = cycle rfft_abs cfg net st data
       :: run rfft_abs cfg net (next (cycle rfft_abs cfg net st data)) rest.
Proof.
  intros Hmax Hlen Hodd Hshort.
  assert (Hitems : items (push_read (ring_buffer st) data) = [data]).
  { destruct data as [ | c data]; [discriminate | ].
    cbn [push_read]. unfold deque_append. cbn [items]. rewrite Hmax.
    destruct (items (ring_buffer st)) as [ | b [ | b' l]];
      cbn [length] in Hlen; try lia; reflexivity. }
  assert (Hnone : calculate_fft rfft_abs
                    (firstn (chunk_size cfg)
                            (join (push_read (ring_buffer st) data)))
                    (sample_rate cfg) = None).
  { apply calculate_fft_none_odd. unfold join. rewrite Hitems.
    cbn [concat]. rewrite app_nil_r, firstn_all2 by exact Hshort.
    exact Hodd. }
  assert (Hc : cycle rfft_abs cfg net st data
               = {| next := {| ring_buffer := push_read (ring_buffer st) data;
                               previous_smoothed_level :=
                                 previous_smoothed_level st |};
                    fft_result := None; packet := None; delivered := [];
                    outcome := Skipped |}).
  { unfold cycle. rewrite Hnone. reflexivity. }
  cbn [run]. rewrite Hc. cbn [outcome packet delivered next ring_buffer
                                previous_smoothed_level].
  repeat split; try reflexivity. exact Hitems.
Qed.

(** ** The window after a run *)

Lemma run_ring_buffer net (reads : list (list byte)) :
  forall st,
    ring_buffer (final_state st (run rfft_abs cfg net st reads))
    = push_all (ring_buffer st)
               (pushed (run rfft_abs cfg net st reads) reads).
Proof.
  induction reads as [ | data reads IH]; intros st; [reflexivity | ].
  cbn [run].
  assert (Hone : push_read (ring_buffer st) data
                 = push_all (ring_buffer st)
                     (filter (fun d => match d with
                                       | [] => false
                                       | _ :: _ => true
                                       end) [data])).
  { destruct data; reflexivity. }
  assert (Hcons : forall l,
             push_all (ring_buffer st)
               (filter (fun d => match d with
                                 | [] => false
                                 | _ :: _ => true
                                 end) (data :: l))
             = push_all (push_read (ring_buffer st) data)
                 (filter (fun d => match d with
                                   | [] => false
                                   | _ :: _ => true
                                   end) l)).
  { intros l. destruct data; reflexivity. }
  assert (Hlast : forall c cs,
             final_state st (c :: cs) = final_state (next c) cs).
  { intros c cs. unfold final_state. cbn [map]. apply last_cons_default. }
  destruct (outcome (cycle rfft_abs cfg net st data)) eqn:Ho.
  - rewrite Hlast, IH. unfold pushed. cbn [length firstn].
    rewrite Hcons, cycle_ring_buffer. reflexivity.
  - rewrite Hlast, IH. unfold pushed. cbn [length firstn].
    rewrite Hcons, cycle_ring_buffer. reflexivity.
  - unfold final_state, pushed. cbn [map last length firstn].
    rewrite cycle_ring_buffer. exact Hone.
Qed.

(** X13: the ring buffer after a run is the buffer it started from with the
    non-empty reads of the iterations pushed in order; from the start of the
    program, as soon as [capacity] non-empty reads have been consumed, the
    window consists of the last [capacity] of them and none of the zeros it
    was seeded with. *)
Theorem stream_window net (reads : list (list byte)) :
  ring_buffer (final_state (initial_state cfg)
                 (stream_audio_to_wled rfft_abs cfg net reads))
  = push_all (ring_buffer (initial_state cfg))
             (pushed (stream_audio_to_wled rfft_abs cfg net reads) reads)
  /\ ((capacity cfg
       <= length (pushed (stream_audio_to_wled rfft_abs cfg net reads)
                         reads))%nat ->
      items (ring_buffer (final_state (initial_state cfg)
                            (stream_audio_to_wled rfft_abs cfg net reads)))
      = skipn (length (pushed (stream_audio_to_wled rfft_abs cfg net reads)
                              reads) - capacity cfg)
              (pushed (stream_audio_to_wled rfft_abs cfg net reads) reads)).
Proof.
  unfold stream_audio_to_wled.
  pose proof (run_ring_buffer net reads (initial_state cfg)) as H.
  split; [exact H | ]. intros Hcap. rewrite H.
  destruct (initial_ring_buffer cfg) as [Hi Hm].
  rewrite push_all_latest; rewrite ?Hm, ?Hi, ?repeat_length;
    (reflexivity || lia).
Qed.

End WindowFacts.

Lemma window_stays_full_witness :
  items (ring_buffer (initial_state Sample.cfg))
  = repeat (repeat x00 (chunk_size Sample.cfg)) (capacity Sample.cfg)
  /\ Forall (fun c =>
               length (items (ring_buffer (next c))) = capacity Sample.cfg
               /\ Forall (fun b => length b = chunk_size Sample.cfg)
                         (items (ring_buffer (next c)))
               /\ ((1 <= capacity Sample.cfg)%nat ->
                   length (firstn (chunk_size Sample.cfg)
                                  (join (ring_buffer (next c))))
                   = chunk_size Sample.cfg))
            (stream_audio_to_wled RefDFT.dft_abs Sample.cfg Sample.up
               [ []; Sample.constant x64 x00 30 ]).
Proof.
  apply (window_stays_full RefDFT.dft_abs Sample.cfg Sample.up
           [ []; Sample.constant x64 x00 30 ]).
  constructor; [left; reflexivity | ].
  constructor; [right; reflexivity | constructor].
Defined.

Lemma odd_read_skipped_witness :
  outcome (cycle RefDFT.dft_abs Sample.cfg Sample.up
             (initial_state Sample.cfg) [x01; x02; x03]) = Skipped
  /\ packet (cycle RefDFT.dft_abs Sample.cfg Sample.up
               (initial_state Sample.cfg) [x01; x02; x03]) = None
  /\ delivered (cycle RefDFT.dft_abs Sample.cfg Sample.up
                  (initial_state Sample.cfg) [x01; x02; x03]) = []
  /\ previous_smoothed_level
       (next (cycle RefDFT.dft_abs Sample.cfg Sample.up
                (initial_state Sample.cfg) [x01; x02; x03]))
     = previous_smoothed_level (initial_state Sample.cfg)
  /\ items (ring_buffer
              (next (cycle RefDFT.dft_abs Sample.cfg Sample.up
                       (initial_state Sample.cfg) [x01; x02; x03])))
     = [[x01; x02; x03]]
  /\ run RefDFT.dft_abs Sample.cfg Sample.up (initial_state Sample.cfg)
         [[x01; x02; x03]]
     = cycle RefDFT.dft_abs Sample.cfg Sample.up (initial_state Sample.cfg)
             [x01; x02; x03]
       :: run RefDFT.dft_abs Sample.cfg Sample.up
              (next (cycle RefDFT.dft_abs Sample.cfg Sample.up
                       (initial_state Sample.cfg) [x01; x02; x03])) [].
Proof.
  apply (odd_read_skipped RefDFT.dft_abs Sample.cfg Sample.up
           (initial_state Sample.cfg) [x01; x02; x03] []).
  - reflexivity.
  - cbn. lia.
  - reflexivity.
  - cbn. lia.
Defined.

(** ** An idle input *)

Lemma analysis_of_silence (sr : Z) (n k : nat) :
  (0 < n)%nat -> Z.of_nat n < 2 ^ 52 -> 0 < sr < 2 ^ 52 -> (15 <= k)%nat ->
  analysis_of sr (repeat 0 n) F64.zero (repeat F64.zero k) = silence_result.
Proof.
  intros Hn Hn52 Hsr Hk. unfold analysis_of, silence_result.
  rewrite np_abs_int16_zeros. f_equal.
  - unfold spectrum_top. rewrite fold_fmax_zeros.
    change (F64.zero :: repeat F64.zero k) with (repeat F64.zero (S k)).
    unfold np_interp. rewrite map_repeat, firstn_repeat, map_repeat.
    replace (Nat.min 16 (S k)) with 16%nat by lia. reflexivity.
  - unfold np_mean, Zsum. rewrite fold_add_Z_zeros, repeat_length.
    apply div_zero_of_Z. lia.
  - destruct n as [ | n]; [lia | ]. cbn [repeat]. rewrite fold_max_Z_zeros.
    reflexivity.
  - apply (np_sum_zeros (S k)).
  - rewrite argmax_from_zeros, repeat_length.
    destruct (div_of_Z_finite sr (Z.of_nat n)) as (m & e & ->);
      [exact Hsr | lia | ].
    reflexivity.
Qed.

Lemma silence_packet_ok :
  create_udp_packet (map PyInt (repeat 255 16)) (PyFloat F64.zero)
    (PyFloat (smooth F64.zero F64.zero)) (PyInt 0) (PyFloat F64.zero)
    (PyFloat F64.zero)
  = Ok silence_packet
  /\ smooth F64.zero F64.zero = F64.zero.
Proof. vm_compute. split; reflexivity. Qed.

(** X14: a stream that is at its end from the start leaves the loop running
    on the zeros it seeded the buffer with. For a chunk of [2 * n] bytes, a
    capacity of at least 1, a spectrum of silence of sixteen or more bins,
    all zero, and destinations that accept every send, each iteration sends
    the same packet (all band values 255, every level 0) to every
    destination and leaves the state as it was at the start. *)
Theorem idle_stream
  (rfft_abs : list Z -> list float) (cfg : config) (net : string -> bool)
  (n k : nat) :
  chunk_size cfg = (2 * n)%nat ->
  (0 < n)%nat -> Z.of_nat n < 2 ^ 52 ->
  (1 <= capacity cfg)%nat ->
  0 < sample_rate cfg < 2 ^ 52 ->
  (16 <= length (rfft_abs (repeat 0%Z n)))%nat ->
  Forall (fun x => x = F64.zero) (rfft_abs (repeat 0 n)) ->
  Forall (fun ip => net ip = true) (targets cfg) ->
  stream_audio_to_wled rfft_abs cfg net (repeat [] k)
  = repeat {| next := initial_state cfg;
              fft_result := Some silence_result;
              packet := Some silence_packet;
              delivered := targets cfg;
              outcome := Sent |} k.
Proof.
  intros Hchunk Hn Hn52 Hcap Hsr Hbins Hzero Hnet.
  assert (Hwin : firstn (chunk_size cfg)
                   (join (push_read (ring_buffer (initial_state cfg)) []))
                 = repeat x00 (2 * n)).
  { cbn [push_read]. destruct (initial_ring_buffer cfg) as [Hi _].
    destruct (capacity cfg) as [ | c] eqn:Hc; [lia | ].
    cbn [repeat] in Hi.
    pose proof (firstn_join_head _ _ _ Hi) as Hj.
    rewrite repeat_length in Hj. rewrite Hj, Hchunk. reflexivity. }
  assert (Hfft : calculate_fft rfft_abs (repeat x00 (2 * n))
                   (sample_rate cfg) = Some silence_result).
  { apply Forall_eq_repeat in Hzero.
    destruct (rfft_abs (repeat 0 n)) as [ | x sp] eqn:Hsp;
      [cbn [length] in Hbins; lia | ].
    cbn [length repeat] in Hzero. injection Hzero as -> Hrest.
    rewrite (calculate_fft_ok rfft_abs _ (sample_rate cfg) (repeat 0 n)
               F64.zero sp).
    - rewrite Hrest, analysis_of_silence; try assumption; try reflexivity.
      cbn [length] in Hbins. lia.
    - apply frombuffer_int16_zeros.
    - destruct n; [lia | discriminate].
    - exact Hsp. }
  assert (Hd : dispatch cfg net = (targets cfg, Ok tt)).
  { unfold dispatch, targets in *. destruct (USE_MULTICAST cfg).
    - inversion Hnet as [ | ? ? Hm _]; subst. rewrite Hm. reflexivity.
    - apply send_unicast_all. exact Hnet. }
  assert (Hc : cycle rfft_abs cfg net (initial_state cfg) []
               = {| next := initial_state cfg;
                    fft_result := Some silence_result;
                    packet := Some silence_packet;
                    delivered := targets cfg;
                    outcome := Sent |}).
  { unfold cycle. rewrite Hwin, Hfft.
    cbn [fft_values raw_level peak_level fft_magnitude_sum fft_peak_frequency
         silence_result].
    change (previous_smoothed_level (initial_state cfg)) with F64.zero.
    rewrite (proj1 silence_packet_ok), Hd, (proj2 silence_packet_ok).
    reflexivity. }
  unfold stream_audio_to_wled.
  induction k as [ | k IH]; cbn [repeat run]; [reflexivity | ].
  rewrite Hc. cbn [outcome next]. rewrite IH. reflexivity.
Qed.

Lemma idle_stream_witness :
  stream_audio_to_wled RefDFT.dft_abs Sample.cfg Sample.up (repeat [] 3)
  = repeat {| next := initial_state Sample.cfg;
              fft_result := Some silence_result;
              packet := Some silence_packet;
              delivered := targets Sample.cfg;
              outcome := Sent |} 3.
Proof.
  apply (idle_stream RefDFT.dft_abs Sample.cfg Sample.up 30 3).
  - reflexivity.
  - lia.
  - reflexivity.
  - cbn. lia.
  - split; reflexivity.
  - rewrite dft_abs_silence. cbn. lia.
  - rewrite dft_abs_silence. repeat constructor.
  - repeat constructor.
Defined.

(** ** The list of controllers *)

Lemma str_split_nonempty (sep : ascii) (s : string) : str_split sep s <> [].
Proof.
  destruct s as [ | c s]; cbn [str_split]; [discriminate | ].
  destruct (Ascii.eqb c sep); [discriminate | ].
  destruct (str_split sep s); discriminate.
Qed.

Lemma length_str_split (sep : ascii) (s : string) :
  length (str_split sep s) = S (count_char sep s).
Proof.
  induction s as [ | c s IH]; cbn [str_split count_char]; [reflexivity | ].
  destruct (Ascii.eqb c sep).
  - cbn [length]. rewrite IH. reflexivity.
  - destruct (str_split sep s) as [ | p ps]; cbn [length] in *; lia.
Qed.

(** X15: the list of controllers has one address more than the setting has
    commas; it is never empty, and an empty setting gives the single address
    ''. So with this list as the configured controllers, an iteration that
    ends with a packet sent has sent it to at least one address. *)
Theorem addresses_count (wled_ip_string : string) :
  length (wled_ip_addresses wled_ip_string)
  = S (count_char "," wled_ip_string)
  /\ wled_ip_addresses wled_ip_string <> []
  /\ (wled_ip_string = EmptyString ->
      wled_ip_addresses wled_ip_string = [EmptyString])
  /\ (forall rfft_abs cfg net st data,
        WLED_IP_ADDRESSES cfg = wled_ip_addresses wled_ip_string ->
        outcome (cycle rfft_abs cfg net st data) = Sent ->
        delivered (cycle rfft_abs cfg net st data) <> []).
Proof.
  assert (Hne : wled_ip_addresses wled_ip_string <> []).
  { unfold wled_ip_addresses.
    pose proof (str_split_nonempty "," wled_ip_string) as H.
    destruct (str_split "," wled_ip_string); [congruence | discriminate]. }
  split; [ | split; [exact Hne | split]].
  - unfold wled_ip_addresses. rewrite length_map, length_str_split.
    reflexivity.
  - intros ->. reflexivity.
  - intros rfft_abs cfg net st data Hcfg Hsent.
    destruct (cycle_sent rfft_abs cfg net st data Hsent) as [-> _].
    unfold targets. rewrite Hcfg.
    destruct (USE_MULTICAST cfg); [discriminate | exact Hne].
Qed.

Lemma str_split_no_sep (sep : ascii) (s : string) :
  Forall (fun p => count_char sep p = 0%nat) (str_split sep s).
Proof.
  induction s as [ | c s IH]; cbn [str_split].
  - repeat constructor.
  - destruct (Ascii.eqb c sep) eqn:Hc.
    + constructor; [reflexivity | exact IH].
    + destruct (str_split sep s) as [ | p ps].
      * constructor; [ | constructor]. cbn [count_char]. rewrite Hc.
        reflexivity.
      * inversion IH as [ | ? ? Hp Hps]; subst.
        constructor; [ | exact Hps]. cbn [count_char]. rewrite Hc.
        exact Hp.
Qed.

Lemma count_char_lstrip (c : ascii) (s : string) :
  count_char c s = 0%nat -> count_char c (str_lstrip s) = 0%nat.
Proof.
  induction s as [ | c' s IH]; cbn [str_lstrip]; [auto | ].
  destruct (isspace c'); [ | auto].
  cbn [count_char]. intros H. apply IH. lia.
Qed.

Lemma count_char_rstrip (c : ascii) (s : string) :
  count_char c s = 0%nat -> count_char c (str_rstrip s) = 0%nat.
Proof.
  induction s as [ | c' s IH]; cbn [str_rstrip]; [auto | ].
  cbn [count_char]. intros H.
  assert (H1 : count_char c (str_rstrip s) = 0%nat) by (apply IH; lia).
  destruct (str_rstrip s) as [ | k ks].
  - destruct (isspace c'); [reflexivity | ]. cbn [count_char]. lia.
  - cbn [count_char] in *. lia.
Qed.

Lemma first_char_rstrip (s : string) (c : ascii) :
  first_char (str_rstrip s) = Some c -> first_char s = Some c.
Proof.
  destruct s as [ | c' s]; cbn [str_rstrip first_char]; [auto | ].
  destruct (str_rstrip s); [destruct (isspace c') | ]; cbn [first_char];
    (discriminate || auto).
Qed.

Lemma first_char_lstrip (s : string) (c : ascii) :
  first_char (str_lstrip s) = Some c -> isspace c = false.
Proof.
  induction s as [ | c' s IH]; cbn [str_lstrip]; [discriminate | ].
  destruct (isspace c') eqn:Hc; [exact IH | ].
  cbn [first_char]. intros H. injection H as <-. exact Hc.
Qed.

Lemma last_char_rstrip (s : string) (c : ascii) :
  last_char (str_rstrip s) = Some c -> isspace c = false.
Proof.
  induction s as [ | c' s IH]; cbn [str_rstrip]; [discriminate | ].
  destruct (str_rstrip s) as [ | k ks].
  - destruct (isspace c') eqn:Hc; [discriminate | ].
    cbn [last_char]. intros H. injection H as <-. exact Hc.
  - cbn [last_char] in *. exact IH.
Qed.

Lemma str_strip_clean (s : string) :
  count_char "," s = 0%nat -> clean (str_strip s).
Proof.
  intros H. unfold clean, str_strip. split; [ | split].
  - apply count_char_rstrip, count_char_lstrip, H.
  - intros c Hc. apply first_char_rstrip in Hc.
    apply first_char_lstrip in Hc. exact Hc.
  - apply last_char_rstrip.
Qed.

(** X16: no address of the list of controllers contains a comma, and none
    starts or ends with white space. *)
Theorem addresses_clean (wled_ip_string : string) :
  Forall clean (wled_ip_addresses wled_ip_string).
Proof.
  unfold wled_ip_addresses. apply Forall_map.
  eapply Forall_impl; [ | apply str_split_no_sep].
  cbv beta. intros p. apply str_strip_clean.
Qed.

Lemma count_char_app (c : ascii) (s t : string) :
  count_char c (s ++ t) = (count_char c s + count_char c t)%nat.
Proof.
  induction s as [ | c' s IH]; cbn [append count_char]; [reflexivity | ].
  rewrite IH. lia.
Qed.

Lemma str_split_single (sep : ascii) (s : string) :
  count_char sep s = 0%nat -> str_split sep s = [s].
Proof.
  induction s as [ | c s IH]; cbn [str_split count_char]; [reflexivity | ].
  destruct (Ascii.eqb c sep); [discriminate | ].
  intros H. rewrite IH by exact H. reflexivity.
Qed.

Lemma str_split_app (sep : ascii) (s t : string) :
  count_char sep s = 0%nat ->
  str_split sep (s ++ String sep t) = s :: str_split sep t.
Proof.
  induction s as [ | c s IH]; cbn [append str_split count_char].
  - rewrite Ascii.eqb_refl. reflexivity.
  - destruct (Ascii.eqb c sep); [discriminate | ].
    intros H. rewrite IH by exact H. reflexivity.
Qed.

Lemma str_split_concat (sep : ascii) (l : list string) :
  l <> [] ->
  Forall (fun s => count_char sep s = 0%nat) l ->
  str_split sep (String.concat (String sep EmptyString) l) = l.
Proof.
  induction l as [ | s l IH]; intros Hne H; [congruence | ].
  inversion H as [ | ? ? Hs Hl]; subst.
  destruct l as [ | s' l].
  - cbn [String.concat]. apply str_split_single. exact Hs.
  - change (String.concat (String sep EmptyString) (s :: s' :: l))
      with (s ++ String sep (String.concat (String sep EmptyString) (s' :: l)))
           %string.
    rewrite str_split_app by exact Hs.
    rewrite IH by (discriminate || exact Hl). reflexivity.
Qed.

Lemma all_space_count (c : ascii) (s : string) :
  isspace c = false -> all_space s = true -> count_char c s = 0%nat.
Proof.
  intros Hc. induction s as [ | c' s IH]; cbn [all_space count_char];
    [reflexivity | ].
  intros H. apply andb_prop in H. destruct H as [H1 H2].
  destruct (Ascii.eqb_spec c' c) as [-> | _]; [congruence | ].
  apply IH. exact H2.
Qed.

Lemma str_lstrip_space (s t : string) :
  all_space s = true -> str_lstrip (s ++ t) = str_lstrip t.
Proof.
  induction s as [ | c s IH]; cbn [all_space append str_lstrip];
    [reflexivity | ].
  intros H. apply andb_prop in H. destruct H as [-> H2]. apply IH, H2.
Qed.

Lemma str_lstrip_all_space (s : string) :
  all_space s = true -> str_lstrip s = EmptyString.
Proof.
  induction s as [ | c s IH]; cbn [all_space str_lstrip]; [reflexivity | ].
  intros H. apply andb_prop in H. destruct H as [-> H2]. apply IH, H2.
Qed.

Lemma str_rstrip_all_space (s : string) :
  all_space s = true -> str_rstrip s = EmptyString.
Proof.
  induction s as [ | c s IH]; cbn [all_space str_rstrip]; [reflexivity | ].
  intros H. apply andb_prop in H. destruct H as [-> H2]. rewrite IH by exact H2.
  reflexivity.
Qed.

Lemma str_rstrip_space (s t : string) :
  all_space t = true -> str_rstrip (s ++ t) = str_rstrip s.
Proof.
  intros Ht. induction s as [ | c s IH]; cbn [append str_rstrip].
  - apply str_rstrip_all_space, Ht.
  - rewrite IH. reflexivity.
Qed.

Lemma str_rstrip_id (s : string) :
  (forall c, last_char s = Some c -> isspace c = false) -> str_rstrip s = s.
Proof.
  induction s as [ | c s IH]; cbn [str_rstrip]; [reflexivity | ].
  intros H. destruct s as [ | c' s].
  - cbn [str_rstrip]. rewrite (H c eq_refl). reflexivity.
  - rewrite IH by exact H. reflexivity.
Qed.

Lemma str_strip_padded (p : padded) :
  well_padded p -> str_strip (padded_text p) = address p.
Proof.
  intros (Hb & Ha & _ & Hfirst & Hlast). unfold str_strip, padded_text.
  rewrite str_lstrip_space by exact Hb.
  destruct (address p) as [ | c a] eqn:Haddr.
  - cbn [append]. rewrite str_lstrip_all_space by exact Ha. reflexivity.
  - cbn [append str_lstrip]. rewrite (Hfirst c eq_refl).
    change (String c (a ++ after p)) with (String c a ++ after p)%string.
    rewrite str_rstrip_space by exact Ha.
    apply str_rstrip_id. exact Hlast.
Qed.

Lemma padded_text_no_comma (p : padded) :
  well_padded p -> count_char "," (padded_text p) = 0%nat.
Proof.
  intros (Hb & Ha & Hc & _). unfold padded_text.
  rewrite !count_char_app, Hc.
  rewrite !(all_space_count ","%char) by (reflexivity || assumption).
  reflexivity.
Qed.

(** X17: a setting written as addresses separated by commas, each one with
    any white space before and after it, is read back as these addresses, in
    order, provided no address contains a comma or has white space at its
    ends. *)
Theorem addresses_round_trip (entries : list padded) :
  entries <> [] ->
  Forall well_padded entries ->
  wled_ip_addresses (String.concat "," (map padded_text entries))
  = map address entries.
Proof.
  intros Hne Hall. unfold wled_ip_addresses.
  rewrite str_split_concat.
  - rewrite map_map. apply map_ext_in. intros p Hp.
    apply str_strip_padded. rewrite Forall_forall in Hall. apply Hall, Hp.
  - destruct entries; [congruence | discriminate].
  - apply Forall_map. eapply Forall_impl; [ | exact Hall].
    cbv beta. apply padded_text_no_comma.
Qed.

Lemma addresses_round_trip_witness :
  wled_ip_addresses (String.concat "," (map padded_text Sample.entries))
  = map address Sample.entries.
Proof.
  apply (addresses_round_trip Sample.entries).
  - discriminate.
  - repeat constructor; cbn; intros c H; injection H as <-; reflexivity.
Defined.

(** ** The sign of the smoothed level *)

Lemma shr_fexp_nonneg (m e : Z) (l : location) :
  0 <= m -> 0 <= shr_m (fst (shr_fexp F64.prec F64.emax m e l)).
Proof.
  intros Hm. unfold shr_fexp, shr.
  assert (Hrec : shr_m (shr_record_of_loc m l) = m)
    by (destruct l as [ | [ | | ] ]; reflexivity).
  destruct (fexp F64.prec F64.emax (Zdigits2 m + e) - e) as [ | n | n ];
    cbn [fst]; rewrite ?Hrec; try lia.
  rewrite iter_shr_1_m by lia. rewrite Hrec. apply Z.div_pos; lia.
Qed.

(** The rounding of a mantissa that is not negative is no NaN and has the
    sign it was given. *)
Lemma binary_round_aux_sign (s : bool) (m e : Z) (l : location) :
  0 <= m ->
  match binary_round_aux F64.prec F64.emax s m e l with
  | S754_nan => False
  | S754_zero s' | S754_infinity s' | S754_finite s' _ _ => s' = s
  end.
Proof.
  intros Hm. unfold binary_round_aux.
  pose proof (shr_fexp_nonneg m e l Hm) as H1.
  destruct (shr_fexp F64.prec F64.emax m e l) as [r1 e1]. cbn [fst] in H1.
  assert (H2 : 0 <= round_nearest_even (shr_m r1) (loc_of_shr_record r1))
    by (destruct (round_nearest_even_cases (shr_m r1) (loc_of_shr_record r1));
        lia).
  pose proof (shr_fexp_nonneg _ e1 loc_Exact H2) as H3.
  destruct (shr_fexp F64.prec F64.emax _ e1 loc_Exact) as [r2 e2].
  cbn [fst] in H3.
  destruct (shr_m r2) as [ | p | p ]; try lia; [reflexivity | ].
  destruct (e2 <=? F64.emax - F64.prec); reflexivity.
Qed.

Lemma leb_zero_cases (x : float) :
  F64.leb F64.zero x = true
  <-> match x with
      | S754_nan => False
      | S754_zero _ => True
      | S754_infinity s | S754_finite s _ _ => s = false
      end.
Proof.
  destruct x as [s | [ | ] | | [ | ] m e]; cbn; split; intros H;
    (reflexivity || discriminate || exact I || contradiction).
Qed.

Lemma binary_round_aux_leb (m e : Z) (l : location) :
  0 <= m ->
  F64.leb F64.zero (binary_round_aux F64.prec F64.emax false m e l) = true.
Proof.
  intros Hm. apply leb_zero_cases.
  pose proof (binary_round_aux_sign false m e l Hm) as H.
  destruct (binary_round_aux F64.prec F64.emax false m e l);
    (exact I || exact H).
Qed.

Lemma mul_leb_zero (m : positive) (e : Z) (y : float) :
  F64.leb F64.zero y = true ->
  F64.leb F64.zero (F64.mul (S754_finite false m e) y) = true.
Proof.
  intros Hy. apply leb_zero_cases in Hy.
  destruct y as [s | s | | s my ey]; try contradiction.
  - reflexivity.
  - subst s. reflexivity.
  - subst s. unfold F64.mul, SFmul. cbn [xorb].
    apply binary_round_aux_leb. lia.
Qed.

Lemma add_leb_zero (x y : float) :
  F64.leb F64.zero x = true -> F64.leb F64.zero y = true ->
  F64.leb F64.zero (F64.add x y) = true.
Proof.
  intros Hx Hy. apply leb_zero_cases in Hx. apply leb_zero_cases in Hy.
  destruct x as [sx | sx | | sx mx ex]; try contradiction;
    destruct y as [sy | sy | | sy my ey]; try contradiction; subst;
    try reflexivity.
  - destruct sx, sy; reflexivity.
  - unfold F64.add, SFadd. cbn [cond_Zopp].
    unfold binary_normalize.
    destruct (Zpos (fst (shl_align mx ex (Z.min ex ey)))
              + Zpos (fst (shl_align my ey (Z.min ex ey)))) as [ | p | p] eqn:Hp;
      try lia.
    unfold binary_round.
    destruct (shl_align p _ _) as [mz ez].
    apply binary_round_aux_leb. lia.
Qed.

Lemma smooth_leb_zero (s r : float) :
  F64.leb F64.zero s = true -> F64.leb F64.zero r = true ->
  F64.leb F64.zero (smooth s r) = true.
Proof.
  intros Hs Hr. unfold smooth.
  assert (H8 : exists m e, F64.of_ratio 8 10 = S754_finite false m e)
    by (vm_compute; eauto).
  assert (H2 : exists m e, F64.of_ratio 2 10 = S754_finite false m e)
    by (vm_compute; eauto).
  destruct H8 as (m8 & e8 & ->). destruct H2 as (m2 & e2 & ->).
  apply add_leb_zero; apply mul_leb_zero; assumption.
Qed.

Lemma smoothed_levels_leb_zero (raws : list float) :
  forall s,
    F64.leb F64.zero s = true ->
    Forall (fun r => F64.leb F64.zero r = true) raws ->
    Forall (fun x => F64.leb F64.zero x = true) (smoothed_levels s raws).
Proof.
  induction raws as [ | r raws IH]; intros s Hs Hr; cbn [smoothed_levels].
  - constructor.
  - inversion Hr as [ | ? ? Hr1 Hr2]; subst.
    pose proof (smooth_leb_zero s r Hs Hr1) as H.
    constructor; [exact H | apply IH; assumption].
Qed.

(** X18: in a run of the program, as long as the raw level of every
    analysis is a number that is not negative, so is the smoothed level
    every analysed iteration leaves: the smoothing yields no negative level
    and no NaN. *)
Theorem smoothed_level_nonnegative
  (rfft_abs : list Z -> list float) (cfg : config) (net : string -> bool)
  (reads : list (list byte)) :
  Forall (fun p => F64.leb F64.zero (raw_level (fst p)) = true)
         (analysed (stream_audio_to_wled rfft_abs cfg net reads)) ->
  Forall (fun p => F64.leb F64.zero (previous_smoothed_level (snd p)) = true)
         (analysed (stream_audio_to_wled rfft_abs cfg net reads)).
Proof.
  intros Hraw. unfold stream_audio_to_wled in *.
  pose proof (run_smoothed rfft_abs cfg net reads (initial_state cfg)) as Hrun.
  cbv zeta in Hrun.
  apply (Forall_map (fun p => previous_smoothed_level (snd p))
           (fun x => F64.leb F64.zero x = true)).
  rewrite Hrun. apply smoothed_levels_leb_zero; [reflexivity | ].
  apply Forall_map. exact Hraw.
Qed.

Lemma smoothed_level_nonnegative_witness :
  Forall (fun p => F64.leb F64.zero (previous_smoothed_level (snd p)) = true)
         (analysed (stream_audio_to_wled RefDFT.dft_abs Sample.cfg Sample.up
                      [Sample.constant x64 x00 30; repeat x00 60;
                       repeat x00 60])).
Proof.
  apply (smoothed_level_nonnegative RefDFT.dft_abs Sample.cfg Sample.up
           [Sample.constant x64 x00 30; repeat x00 60; repeat x00 60]).
  apply (Forall_map fst (fun r => F64.leb F64.zero (raw_level r) = true)).
  apply (Forall_map raw_level (fun x => F64.leb F64.zero x = true)).
  rewrite map_map.
  pose proof run_smoothing as H.
  apply (f_equal (map fst)) in H. rewrite map_map in H. cbn [fst] in H.
  rewrite H. repeat constructor.
Defined.

(** ** The signs of the peak frequency and of the magnitude sum *)

Lemma of_Z_leb_zero (z : Z) :
  0 <= z -> F64.leb F64.zero (F64.of_Z z) = true.
Proof.
  intros Hz. destruct z as [ | p | p]; try lia; [reflexivity | ].
  destruct (of_Z_positive p); reflexivity.
Qed.

(** X19: in an analysis, for a sample rate and a number of samples between 1
    and [2 ^ 52 - 1], the peak frequency is a number that is not negative
    (and no NaN). *)
Theorem peak_frequency_nonnegative
  (rfft_abs : list Z -> list float) (chunk : list byte) (sr : Z)
  (samples : list Z) (r : analysis) :
  frombuffer_int16 chunk = Ok samples ->
  calculate_fft rfft_abs chunk sr = Some r ->
  0 < sr < 2 ^ 52 ->
  Z.of_nat (length samples) < 2 ^ 52 ->
  F64.leb F64.zero (fft_peak_frequency r) = true.
Proof.
  intros Hdec Hr Hsr Hn.
  apply calculate_fft_inv in Hr.
  destruct Hr as (samples' & x & sp & Hdec' & Hne & Hsp & ->).
  rewrite Hdec in Hdec'. injection Hdec' as <-.
  cbn [fft_peak_frequency analysis_of].
  assert (Hpos : 0 < Z.of_nat (length samples))
    by (destruct samples; [congruence | cbn [length]; lia]).
  destruct (div_of_Z_finite sr (Z.of_nat (length samples)))
    as (m & e & ->); [exact Hsr | lia | ].
  pose proof (argmax_from_bound sp 1 x 0) as Hidx.
  assert (H0 : 0 <= argmax_from sp 1 x 0) by lia.
  pose proof (of_Z_leb_zero _ H0) as Hf.
  apply leb_zero_cases in Hf. apply leb_zero_cases.
  destruct (F64.of_Z (argmax_from sp 1 x 0)) as [s | s | | s mi ei];
    try contradiction.
  - exact I.
  - subst s. reflexivity.
  - subst s. apply leb_zero_cases.
    unfold F64.mul, SFmul. cbn [xorb]. apply binary_round_aux_leb. lia.
Qed.

Lemma peak_frequency_nonnegative_witness :
  F64.leb F64.zero F64.zero = true.
Proof.
  apply (peak_frequency_nonnegative RefDFT.dft_abs [x64; x00; x00; x00]
           44100 [100; 0]
           {| fft_values := [255; 255];
              raw_level := F64.of_Z 50;
              peak_level := 0;
              fft_magnitude_sum := F64.of_Z 200;
              fft_peak_frequency := F64.zero |}).
  - reflexivity.
  - exact (proj1 calculate_fft_pulse).
  - split; reflexivity.
  - reflexivity.
Defined.

(** X20: in an analysis the magnitude sum, the pairwise sum of the spectrum,
    is a number that is not negative (and no NaN) when no magnitude of the
    spectrum is negative or a NaN. *)
Theorem magnitude_sum_nonnegative
  (rfft_abs : list Z -> list float) (chunk : list byte) (sr : Z)
  (samples : list Z) (r : analysis) :
  frombuffer_int16 chunk = Ok samples ->
  calculate_fft rfft_abs chunk sr = Some r ->
  Forall (fun x => F64.leb F64.zero x = true) (rfft_abs samples) ->
  F64.leb F64.zero (fft_magnitude_sum r) = true.
Proof.
  intros Hdec Hr Hall.
  apply calculate_fft_inv in Hr.
  destruct Hr as (samples' & x & sp & Hdec' & Hne & Hsp & ->).
  rewrite Hdec in Hdec'. injection Hdec' as <-.
  cbn [fft_magnitude_sum analysis_of]. rewrite Hsp in Hall.
  apply (np_sum_closed (fun y => F64.leb F64.zero y = true)).
  - reflexivity.
  - intros a b. apply add_leb_zero.
  - exact Hall.
Qed.

Lemma magnitude_sum_nonnegative_witness :
  F64.leb F64.zero (F64.of_Z 200) = true.
Proof.
  apply (magnitude_sum_nonnegative RefDFT.dft_abs [x64; x00; x00; x00]
           44100 [100; 0]
           {| fft_values := [255; 255];
              raw_level := F64.of_Z 50;
              peak_level := 0;
              fft_magnitude_sum := F64.of_Z 200;
              fft_peak_frequency := F64.zero |}).
  - reflexivity.
  - exact (proj1 calculate_fft_pulse).
  - rewrite (proj2 calculate_fft_pulse). repeat constructor.
Defined.
